(** * videos-viewer: a shallow embedding of [main.go]

    The program serves a directory of video files over HTTP and keeps, for
    every video, a viewed flag, a time stamp and a playback offset in the
    sidecar file [video_data.json].  This development embeds the scanner
    ([loadVideoFiles]), the store ([loadViewedVideos], [saveViewedVideos])
    and the request handlers, and states the properties of the
    specification over them.

    Go strings are byte strings: they are [string]s whose characters are the
    bytes.  Go's [int] is the 64-bit integer, carried in [Z].  The slice
    [videoFiles] that [main] shares with its handlers is threaded through
    them explicitly: a handler takes the list and returns the list it leaves
    behind. *)

From Stdlib Require Import ZArith Ascii String List Floats Sorting.Sorted Sorting.Permutation.
From stdpp Require Import base tactics option list gmap strings sorting.

Set Warnings "-register-all".
Local Open Scope string_scope.
Local Open Scope Z_scope.

(** ** Go library functions on strings *)

Module GoStrings.

(** [strings.HasPrefix]. *)
Fixpoint HasPrefix (s prefix : string) : bool :=
  match prefix, s with
  | EmptyString, _ => true
  | String p prefix', String c s' => if Ascii.eqb p c then HasPrefix s' prefix' else false
  | String _ _, EmptyString => false
  end.

Fixpoint drop_bytes (n : nat) (s : string) : string :=
  match n, s with
  | O, _ => s
  | S n', String _ s' => drop_bytes n' s'
  | S _, EmptyString => EmptyString
  end.

(** [strings.TrimPrefix]: [s] without the leading [prefix], or [s] itself. *)
Definition TrimPrefix (s prefix : string) : string :=
  if HasPrefix s prefix then drop_bytes (String.length prefix) s else s.

(** The scanning loop of [strings.Split] for a separator that is not
    empty: [skip] counts the bytes of a separator still to be passed over,
    [part] is the piece read so far. *)
Fixpoint split_from (sep s : string) (skip : nat) (part : string) : list string :=
  match s with
  | EmptyString => [part]
  | String c s' =>
      match skip with
      | S k => split_from sep s' k part
      | O =>
          if HasPrefix s sep
          then part :: split_from sep s' (Nat.pred (String.length sep)) EmptyString
          else split_from sep s' O (part ++ String c EmptyString)
      end
  end.

(** [strings.Split s sep], [sep] not empty (the program splits on [" - "]
    and on ["/"]): the pieces between the leftmost non-overlapping
    occurrences of [sep]; there is always a first piece. *)
Definition Split (s sep : string) : list string := split_from sep s O EmptyString.

(** The UTF-8 encodings of the runes [unicode.IsSpace] accepts: the six
    ASCII ones, U+0085, U+00A0, U+1680, U+2000 to U+200A, U+2028, U+2029,
    U+202F, U+205F and U+3000. *)
Definition bytes_of (l : list nat) : string :=
  fold_right (fun n s => String (ascii_of_nat n) s) EmptyString l.

Definition space_runes : list string :=
  map bytes_of
    [ [9]; [10]; [11]; [12]; [13]; [32]; [194; 133]; [194; 160]; [225; 154; 128];
      [226; 128; 128]; [226; 128; 129]; [226; 128; 130]; [226; 128; 131];
      [226; 128; 132]; [226; 128; 133]; [226; 128; 134]; [226; 128; 135];
      [226; 128; 136]; [226; 128; 137]; [226; 128; 138]; [226; 128; 168];
      [226; 128; 169]; [226; 128; 175]; [226; 129; 159]; [227; 128; 128] ]%nat.

Fixpoint rev_string (s acc : string) : string :=
  match s with
  | EmptyString => acc
  | String c s' => rev_string s' (String c acc)
  end.

(** Length of the space rune [s] starts with, [0] when there is none. *)
Definition leading_space (runes : list string) (s : string) : nat :=
  match List.find (HasPrefix s) runes with
  | Some r => String.length r
  | None => O
  end.

Fixpoint trim_left (runes : list string) (fuel : nat) (s : string) : string :=
  match fuel with
  | O => s
  | S fuel' =>
      match leading_space runes s with
      | O => s
      | n => trim_left runes fuel' (drop_bytes n s)
      end
  end.

(** [strings.TrimSpace]: leading and trailing white space removed. *)
Definition TrimSpace (s : string) : string :=
  let l := trim_left space_runes (String.length s) s in
  let r := trim_left (map (fun x => rev_string x EmptyString) space_runes)
             (String.length l) (rev_string l EmptyString) in
  rev_string r EmptyString.

Definition lower_byte (c : ascii) : ascii :=
  let n := nat_of_ascii c in
  if ((65 <=? n) && (n <=? 90))%nat then ascii_of_nat (n + 32) else c.

(** A byte as a number, and back. *)
Definition byte_val (c : ascii) : Z := Z.of_nat (nat_of_ascii c).
Definition byte_of (b : Z) : ascii := ascii_of_nat (Z.to_nat b).

(** [utf8.RuneError], U+FFFD. *)
Definition RuneError : Z := 65533.

(** Whether [c] is a byte from [lo] to [hi]. *)
Definition between (lo hi : Z) (c : ascii) : bool :=
  (lo <=? byte_val c) && (byte_val c <=? hi).

(** [utf8.DecodeRuneInString]: the rune the string starts with and its
    width in bytes.  The table [first] gives for the first byte the size of
    the encoding and the range the second byte must lie in; a byte that
    starts no encoding, and an encoding that is cut short or has a byte out
    of range, yield [RuneError] and width 1. *)
Definition DecodeRuneInString (s : string) : Z * nat :=
  match s with
  | EmptyString => (RuneError, 0%nat)
  | String c0 s1 =>
      let s0 := byte_val c0 in
      if s0 <? 128 then (s0, 1%nat)
      else
        let '(sz, lo, hi) :=
          if (194 <=? s0) && (s0 <=? 223) then (2, 128, 191)
          else if s0 =? 224 then (3, 160, 191)
          else if (225 <=? s0) && (s0 <=? 236) then (3, 128, 191)
          else if s0 =? 237 then (3, 128, 159)
          else if (238 <=? s0) && (s0 <=? 239) then (3, 128, 191)
          else if s0 =? 240 then (4, 144, 191)
          else if (241 <=? s0) && (s0 <=? 243) then (4, 128, 191)
          else if s0 =? 244 then (4, 128, 143)
          else (1, 0, 0) in
        match s1 with
        | String c1 s2 =>
            if (sz =? 1) || negb (between lo hi c1) then (RuneError, 1%nat)
            else if sz =? 2 then
              (Z.lor (Z.shiftl (Z.land s0 31) 6) (Z.land (byte_val c1) 63), 2%nat)
            else
              match s2 with
              | String c2 s3 =>
                  if negb (between 128 191 c2) then (RuneError, 1%nat)
                  else if sz =? 3 then
                    (Z.lor (Z.lor (Z.shiftl (Z.land s0 15) 12)
                                  (Z.shiftl (Z.land (byte_val c1) 63) 6))
                           (Z.land (byte_val c2) 63), 3%nat)
                  else
                    match s3 with
                    | String c3 _ =>
                        if negb (between 128 191 c3) then (RuneError, 1%nat)
                        else
                          (Z.lor (Z.lor (Z.lor (Z.shiftl (Z.land s0 7) 18)
                                               (Z.shiftl (Z.land (byte_val c1) 63) 12))
                                        (Z.shiftl (Z.land (byte_val c2) 63) 6))
                                 (Z.land (byte_val c3) 63), 4%nat)
                    | EmptyString => (RuneError, 1%nat)
                    end
              | EmptyString => (RuneError, 1%nat)
              end
        | EmptyString => (RuneError, 1%nat)
        end
  end.

(** [utf8.AppendRune]: the encoding of the rune; a surrogate and a number
    that is no code point are encoded as [RuneError]. *)
Definition encodeRune (r : Z) : string :=
  let tail (x : Z) : ascii := byte_of (Z.lor 128 (Z.land x 63)) in
  let three (r : Z) : string :=
    String (byte_of (Z.lor 224 (Z.shiftr r 12)))
      (String (tail (Z.shiftr r 6)) (String (tail r) EmptyString)) in
  if (0 <=? r) && (r <=? 127) then String (byte_of r) EmptyString
  else if (0 <=? r) && (r <=? 2047) then
    String (byte_of (Z.lor 192 (Z.shiftr r 6))) (String (tail r) EmptyString)
  else if (r <? 0) || (1114111 <? r) || ((55296 <=? r) && (r <=? 57343)) then three RuneError
  else if r <=? 65535 then three r
  else
    String (byte_of (Z.lor 240 (Z.shiftr r 18)))
      (String (tail (Z.shiftr r 12))
         (String (tail (Z.shiftr r 6)) (String (tail r) EmptyString))).

(** The runes above U+007F that have a lower-case mapping in the Unicode
    Character Database (version 15.0, the one of package [unicode] from
    go1.21 on), which [unicode.CaseRanges] tabulates: an entry
    [(lo, hi, stride, delta)] says that the runes [lo], [lo + stride], ...,
    [hi] map to themselves plus [delta]. *)
Definition lowerRanges : list (Z * Z * Z * Z) :=
  [ (192, 214, 1, 32); (216, 222, 1, 32); (256, 302, 2, 1); (304, 304, 1, (-199));
    (306, 310, 2, 1); (313, 327, 2, 1); (330, 374, 2, 1); (376, 376, 1, (-121));
    (377, 381, 2, 1); (385, 385, 1, 210); (386, 388, 2, 1); (390, 390, 1, 206);
    (391, 391, 1, 1); (393, 394, 1, 205); (395, 395, 1, 1); (398, 398, 1, 79);
    (399, 399, 1, 202); (400, 400, 1, 203); (401, 401, 1, 1); (403, 403, 1, 205);
    (404, 404, 1, 207); (406, 406, 1, 211); (407, 407, 1, 209); (408, 408, 1, 1);
    (412, 412, 1, 211); (413, 413, 1, 213); (415, 415, 1, 214); (416, 420, 2, 1);
    (422, 422, 1, 218); (423, 423, 1, 1); (425, 425, 1, 218); (428, 428, 1, 1);
    (430, 430, 1, 218); (431, 431, 1, 1); (433, 434, 1, 217); (435, 437, 2, 1);
    (439, 439, 1, 219); (440, 440, 1, 1); (444, 444, 1, 1); (452, 452, 1, 2); (453, 453, 1, 1);
    (455, 455, 1, 2); (456, 456, 1, 1); (458, 458, 1, 2); (459, 475, 2, 1); (478, 494, 2, 1);
    (497, 497, 1, 2); (498, 500, 2, 1); (502, 502, 1, (-97)); (503, 503, 1, (-56));
    (504, 542, 2, 1); (544, 544, 1, (-130)); (546, 562, 2, 1); (570, 570, 1, 10795);
    (571, 571, 1, 1); (573, 573, 1, (-163)); (574, 574, 1, 10792); (577, 577, 1, 1);
    (579, 579, 1, (-195)); (580, 580, 1, 69); (581, 581, 1, 71); (582, 590, 2, 1);
    (880, 882, 2, 1); (886, 886, 1, 1); (895, 895, 1, 116); (902, 902, 1, 38);
    (904, 906, 1, 37); (908, 908, 1, 64); (910, 911, 1, 63); (913, 929, 1, 32);
    (931, 939, 1, 32); (975, 975, 1, 8); (984, 1006, 2, 1); (1012, 1012, 1, (-60));
    (1015, 1015, 1, 1); (1017, 1017, 1, (-7)); (1018, 1018, 1, 1); (1021, 1023, 1, (-130));
    (1024, 1039, 1, 80); (1040, 1071, 1, 32); (1120, 1152, 2, 1); (1162, 1214, 2, 1);
    (1216, 1216, 1, 15); (1217, 1229, 2, 1); (1232, 1326, 2, 1); (1329, 1366, 1, 48);
    (4256, 4293, 1, 7264); (4295, 4295, 1, 7264); (4301, 4301, 1, 7264);
    (5024, 5103, 1, 38864); (5104, 5109, 1, 8); (7312, 7354, 1, (-3008));
    (7357, 7359, 1, (-3008)); (7680, 7828, 2, 1); (7838, 7838, 1, (-7615)); (7840, 7934, 2, 1);
    (7944, 7951, 1, (-8)); (7960, 7965, 1, (-8)); (7976, 7983, 1, (-8)); (7992, 7999, 1, (-8));
    (8008, 8013, 1, (-8)); (8025, 8031, 2, (-8)); (8040, 8047, 1, (-8)); (8072, 8079, 1, (-8));
    (8088, 8095, 1, (-8)); (8104, 8111, 1, (-8)); (8120, 8121, 1, (-8));
    (8122, 8123, 1, (-74)); (8124, 8124, 1, (-9)); (8136, 8139, 1, (-86));
    (8140, 8140, 1, (-9)); (8152, 8153, 1, (-8)); (8154, 8155, 1, (-100));
    (8168, 8169, 1, (-8)); (8170, 8171, 1, (-112)); (8172, 8172, 1, (-7));
    (8184, 8185, 1, (-128)); (8186, 8187, 1, (-126)); (8188, 8188, 1, (-9));
    (8486, 8486, 1, (-7517)); (8490, 8490, 1, (-8383)); (8491, 8491, 1, (-8262));
    (8498, 8498, 1, 28); (8544, 8559, 1, 16); (8579, 8579, 1, 1); (9398, 9423, 1, 26);
    (11264, 11311, 1, 48); (11360, 11360, 1, 1); (11362, 11362, 1, (-10743));
    (11363, 11363, 1, (-3814)); (11364, 11364, 1, (-10727)); (11367, 11371, 2, 1);
    (11373, 11373, 1, (-10780)); (11374, 11374, 1, (-10749)); (11375, 11375, 1, (-10783));
    (11376, 11376, 1, (-10782)); (11378, 11378, 1, 1); (11381, 11381, 1, 1);
    (11390, 11391, 1, (-10815)); (11392, 11490, 2, 1); (11499, 11501, 2, 1);
    (11506, 11506, 1, 1); (42560, 42604, 2, 1); (42624, 42650, 2, 1); (42786, 42798, 2, 1);
    (42802, 42862, 2, 1); (42873, 42875, 2, 1); (42877, 42877, 1, (-35332));
    (42878, 42886, 2, 1); (42891, 42891, 1, 1); (42893, 42893, 1, (-42280));
    (42896, 42898, 2, 1); (42902, 42920, 2, 1); (42922, 42922, 1, (-42308));
    (42923, 42923, 1, (-42319)); (42924, 42924, 1, (-42315)); (42925, 42925, 1, (-42305));
    (42926, 42926, 1, (-42308)); (42928, 42928, 1, (-42258)); (42929, 42929, 1, (-42282));
    (42930, 42930, 1, (-42261)); (42931, 42931, 1, 928); (42932, 42946, 2, 1);
    (42948, 42948, 1, (-48)); (42949, 42949, 1, (-42307)); (42950, 42950, 1, (-35384));
    (42951, 42953, 2, 1); (42960, 42960, 1, 1); (42966, 42968, 2, 1); (42997, 42997, 1, 1);
    (65313, 65338, 1, 32); (66560, 66599, 1, 40); (66736, 66771, 1, 40); (66928, 66938, 1, 39);
    (66940, 66954, 1, 39); (66956, 66962, 1, 39); (66964, 66965, 1, 39); (68736, 68786, 1, 64);
    (71840, 71871, 1, 32); (93760, 93791, 1, 32); (125184, 125217, 1, 34) ].

(** [unicode.ToLower]. *)
Definition unicode_ToLower (r : Z) : Z :=
  if r <=? 127 then
    if (65 <=? r) && (r <=? 90) then r + 32 else r
  else
    match List.find (fun '(lo, hi, stride, _) =>
                       (lo <=? r) && (r <=? hi) && ((r - lo) mod stride =? 0)) lowerRanges with
    | Some (_, _, _, delta) => r + delta
    | None => r
    end.

(** The loop [for _, c := range s] of [strings.Map], which writes the
    mapped runes one after the other; a byte that is no valid UTF-8 is read
    as [RuneError]; a negative rune is dropped. *)
Fixpoint map_runes (fuel : nat) (mapping : Z -> Z) (s : string) : string :=
  match fuel with
  | O => EmptyString
  | S fuel' =>
      match s with
      | EmptyString => EmptyString
      | _ =>
          let '(c, width) := DecodeRuneInString s in
          let r := mapping c in
          (if 0 <=? r then encodeRune r else EmptyString)
          ++ map_runes fuel' mapping (drop_bytes width s)
      end
  end.

(** [strings.Map]. *)
Definition Map (mapping : Z -> Z) (s : string) : string :=
  map_runes (String.length s) mapping s.

Fixpoint isASCII (s : string) : bool :=
  match s with
  | EmptyString => true
  | String c s' => (byte_val c <? 128) && isASCII s'
  end.

Fixpoint lowerASCII (s : string) : string :=
  match s with
  | EmptyString => EmptyString
  | String c s' => String (lower_byte c) (lowerASCII s')
  end.

(** [strings.ToLower]: byte by byte when every byte is below 128, else
    [Map(unicode.ToLower, s)]. *)
Definition ToLower (s : string) : string :=
  if isASCII s then lowerASCII s else Map unicode_ToLower s.

End GoStrings.

(** ** [strconv.Atoi] *)

Module GoStrconv.

Definition maxUint64 : Z := 2 ^ 64 - 1.
Definition maxInt64 : Z := 2 ^ 63 - 1.
Definition minInt64 : Z := - 2 ^ 63.

Inductive scan := ScanOk (n : Z) | ScanSyntax | ScanRange.

(** The digit loop of [ParseUint(s, 10, 64)]: a byte that is no decimal
    digit is a syntax error, a value above [maxUint64] a range error;
    whichever comes first ends the loop. *)
Fixpoint digits (s : string) (n : Z) : scan :=
  match s with
  | EmptyString => ScanOk n
  | String c s' =>
      let d := Z.of_nat (nat_of_ascii c) - 48 in
      if (0 <=? d) && (d <=? 9)
      then let n1 := n * 10 + d in
           if maxUint64 <? n1 then ScanRange else digits s' n1
      else ScanSyntax
  end.

(** [strconv.Atoi]: the value and whether the error is [nil].  A syntax
    error comes with [0]; a range error with the nearest 64-bit value. *)
Definition Atoi (s : string) : Z * bool :=
  match s with
  | EmptyString => (0, false)
  | String c s' =>
      let neg := Ascii.eqb c "-" in
      let body := if neg || Ascii.eqb c "+" then s' else s in
      match body with
      | EmptyString => (0, false)
      | _ =>
          match digits body 0 with
          | ScanSyntax => (0, false)
          | ScanRange => (if neg then minInt64 else maxInt64, false)
          | ScanOk un =>
              if negb neg && (maxInt64 <? un) then (maxInt64, false)
              else if neg && (- minInt64 <? un) then (minInt64, false)
              else (if neg then - un else un, true)
          end
      end
  end.

End GoStrconv.

(** ** [path/filepath] on slash-separated paths *)

Module GoFilepath.
Import GoStrings.

Definition is_sep (c : ascii) : bool := Ascii.eqb c "/".

(** The loop of [filepath.Ext], run over the reversed path: the bytes
    after the last dot of the last element, or nothing. *)
Fixpoint ext_rev (r acc : string) : string :=
  match r with
  | EmptyString => EmptyString
  | String c r' =>
      if is_sep c then EmptyString
      else if Ascii.eqb c "." then String c acc
      else ext_rev r' (String c acc)
  end.

(** [filepath.Ext]: the suffix of the last element from its last dot. *)
Definition Ext (path : string) : string := ext_rev (rev_string path EmptyString) EmptyString.

Fixpoint strip_seps (r : string) : string :=
  match r with
  | String c r' => if is_sep c then strip_seps r' else r
  | EmptyString => EmptyString
  end.

Fixpoint last_elem_rev (r acc : string) : string :=
  match r with
  | EmptyString => acc
  | String c r' => if is_sep c then acc else last_elem_rev r' (String c acc)
  end.

(** [filepath.Base]: the last element of the path, trailing separators
    removed; ["."] for the empty path and ["/"] for one of separators
    only. *)
Definition Base (path : string) : string :=
  match path with
  | EmptyString => "."
  | _ =>
      match last_elem_rev (strip_seps (rev_string path EmptyString)) EmptyString with
      | EmptyString => "/"
      | b => b
      end
  end.

(** The buffer [out] of [filepath.Clean] is kept with its last byte first,
    so that [out.w] is its length. *)

(** [out.w--; for out.w > dotdot && !os.IsPathSeparator(out.index(out.w)) { out.w-- }],
    after the decrement: [removed] is the byte at index [out.w]. *)
Fixpoint backtrack (removed : ascii) (out : string) (dotdot : nat) : string :=
  match out with
  | EmptyString => out
  | String c out' =>
      if (dotdot <? String.length out)%nat && negb (is_sep removed)
      then backtrack c out' dotdot
      else out
  end.

(** [for ; r < n && !os.IsPathSeparator(path[r]); r++ { out.append(path[r]) }]:
    the bytes appended and the path from the new [r] on. *)
Fixpoint element (path : string) : string * string :=
  match path with
  | EmptyString => (EmptyString, EmptyString)
  | String c rest =>
      if is_sep c then (EmptyString, path)
      else let '(e, rest') := element rest in (String c e, rest')
  end.

(** [r == n || os.IsPathSeparator(path[r])], for the path from [r] on. *)
Definition atEnd (path : string) : bool :=
  match path with
  | EmptyString => true
  | String c _ => is_sep c
  end.

(** The loop [for r < n] of [filepath.Clean]; [path] is the path from [r]
    on, and every round passes one byte at least. *)
Fixpoint clean_loop (fuel : nat) (rooted : bool) (path out : string) (dotdot : nat) : string :=
  match fuel with
  | O => out
  | S fuel' =>
      match path with
      | EmptyString => out
      | String c rest =>
          if is_sep c then
            (* empty path element *)
            clean_loop fuel' rooted rest out dotdot
          else if Ascii.eqb c "." && atEnd rest then
            (* . element *)
            clean_loop fuel' rooted rest out dotdot
          else if Ascii.eqb c "." && HasPrefix rest "." && atEnd (drop_bytes 1 rest) then
            (* .. element: remove to last separator *)
            let rest := drop_bytes 1 rest in
            if (dotdot <? String.length out)%nat then
              (* can backtrack *)
              match out with
              | String last out' => clean_loop fuel' rooted rest (backtrack last out' dotdot) dotdot
              | EmptyString => clean_loop fuel' rooted rest out dotdot
              end
            else if negb rooted then
              (* cannot backtrack, but not rooted, so append .. element *)
              let out := if (0 <? String.length out)%nat then String "/" out else out in
              let out := String "." (String "." out) in
              clean_loop fuel' rooted rest out (String.length out)
            else clean_loop fuel' rooted rest out dotdot
          else
            (* real path element: add slash if needed, copy element *)
            let w := String.length out in
            let out :=
              if (rooted && negb (w =? 1)%nat) || (negb rooted && negb (w =? 0)%nat)
              then String "/" out else out in
            let '(e, rest') := element path in
            clean_loop fuel' rooted rest' (rev_string e out) dotdot
      end
  end.

(** [filepath.Clean] where the separator is the slash and there are no
    volume names. *)
Definition Clean (path : string) : string :=
  match path with
  | EmptyString => "."
  | String c rest =>
      let rooted := is_sep c in
      let out :=
        if rooted then clean_loop (String.length path) rooted rest "/" 1
        else clean_loop (String.length path) rooted path "" 0 in
      match out with
      | EmptyString => "."
      | _ => rev_string out ""
      end
  end.

(** [filepath.Join] of two elements: the first that is not empty and what
    follows it, joined by a separator and cleaned. *)
Definition Join (dir name : string) : string :=
  match dir, name with
  | EmptyString, EmptyString => EmptyString
  | EmptyString, _ => Clean name
  | _, _ => Clean (dir ++ "/" ++ name)
  end.

End GoFilepath.

(** ** Data model *)

(** A [time.Time] as the instant it denotes, in nanoseconds from the zero
    time; the zero value of the type is [0]. *)
Definition Time : Type := Z.

Definition bytes : Type := string.
Definition error : Type := string.

Inductive result (A : Type) : Type :=
| Ok (a : A)
| Err (e : error).
Arguments Ok {A} a.
Arguments Err {A} e.

Record VideoFile : Type := mkVideoFile {
  Name : string;
  Path : string;
  Viewed : bool;
  Current : Time;
  Progress : float
}.

(** The zero value [VideoFile{}], which a map lookup yields for a key that
    is not there. *)
Definition zeroVideoFile : VideoFile :=
  {| Name := ""; Path := ""; Viewed := false; Current := 0; Progress := 0%float |}.

Record TemplateData : Type := mkTemplateData {
  ReadmeContent : string;
  Videos : list VideoFile;
  CurrentVideo : string;
  CurrentVideoFile : option VideoFile;
  FolderName : string
}.

Definition videoDataFile : string := "video_data.json".

(** ** The file system and the effects of a request *)

(** What [os.Lstat] and the directory listing show below the library root.
    The entries of a directory are in the order [filepath.Walk] visits them
    (it sorts the names). *)
Inductive FsNode : Type :=
| FsFile (name : string)
| FsDir (name : string) (readErr : option error) (entries : list FsNode)
| FsBroken (name : string) (lstatErr : error).

Definition node_name (n : FsNode) : string :=
  match n with
  | FsFile name | FsDir name _ _ | FsBroken name _ => name
  end.

(** The sidecar file as [os.ReadFile] finds it. *)
Inductive FileState : Type :=
| FileAbsent
| FileUnreadable (e : error)
| FileData (b : bytes).

Inductive Event : Type :=
| EvLog (msg : string)
| EvWriteFile (name : string) (data : bytes) (ok : bool).

(** How [os.WriteFile] fails.  It opens the file with [O_TRUNC] and then
    writes: when the opening fails the file is as it was; when the write or
    the closing fails the file was emptied first and holds the bytes that
    were written by then, [written] of them. *)
Inductive WriteFault : Type :=
| OpenFails (e : error)
| WriteFails (written : nat) (e : error).

Record World : Type := mkWorld {
  root : FsNode;                   (* the tree under the directory argument *)
  store : FileState;               (* [video_data.json] in that directory *)
  write_err : option WriteFault;   (* whether and how [os.WriteFile] fails there *)
  readme : gmap string string;     (* the README files that can be read *)
  now : Time;                      (* [time.Now()] *)
  trace : list Event               (* log lines and writes so far, oldest first *)
}.

(** The world with another sidecar file, or another answer to writes. *)
Definition withStore (f : FileState) (w : World) : World :=
  {| root := root w; store := f; write_err := write_err w; readme := readme w;
     now := now w; trace := trace w |}.

Definition withWriteErr (e : option WriteFault) (w : World) : World :=
  {| root := root w; store := store w; write_err := e; readme := readme w;
     now := now w; trace := trace w |}.

Definition emit (e : Event) (w : World) : World :=
  {| root := root w; store := store w; write_err := write_err w;
     readme := readme w; now := now w; trace := (trace w ++ [e])%list |}.

Definition log_Printf (msg : string) (w : World) : World := emit (EvLog msg) w.

(** [os.ReadFile] of the sidecar file. *)
Definition os_ReadFile (w : World) : result bytes :=
  match store w with
  | FileAbsent => Err "open video_data.json: no such file or directory"
  | FileUnreadable e => Err e
  | FileData b => Ok b
  end.

(** What a failed [os.WriteFile] of [data] leaves of the file. *)
Definition afterFault (f : WriteFault) (data : bytes) (before : FileState) : FileState :=
  match f with
  | OpenFails _ => before
  | WriteFails written _ => FileData (String.substring 0 written data)
  end.

Definition faultError (f : WriteFault) : error :=
  match f with
  | OpenFails e | WriteFails _ e => e
  end.

(** [os.WriteFile] of the sidecar file: it replaces the content, or fails
    and leaves what [afterFault] says. *)
Definition os_WriteFile (data : bytes) (w : World) : World * option error :=
  match write_err w with
  | Some f =>
      (emit (EvWriteFile videoDataFile data false)
         (withStore (afterFault f data (store w)) w), Some (faultError f))
  | None =>
      (emit (EvWriteFile videoDataFile data true)
         {| root := root w; store := FileData data; write_err := write_err w;
            readme := readme w; now := now w; trace := trace w |}, None)
  end.

(** ** [filepath.Walk] *)

(** The [(info, err)] pairs [filepath.Walk] hands to its callback: a node
    whose [Lstat] succeeded, with the error of listing it when it is a
    directory that cannot be read, or a node whose [Lstat] failed (then
    [info] is [nil]). *)
Inductive WalkArg : Type :=
| Visited (isDir : bool) (err : option error)
| Failed (err : error).

Definition WalkFunc (S : Type) : Type := string -> WalkArg -> S -> S * option error.

Section Walk.
Context {S : Type} (walkFn : WalkFunc S).

(** [filepath.Walk] for a callback that never answers [SkipDir] or
    [SkipAll] (the one of this program answers [nil] or the error it was
    given): the node itself first, then the entries of a readable
    directory in order, stopping at the first error the callback
    returns. *)
Fixpoint walk (path : string) (n : FsNode) (s : S) {struct n} : S * option error :=
  match n with
  | FsBroken _ e => walkFn path (Failed e) s
  | FsFile _ => walkFn path (Visited false None) s
  | FsDir _ readErr entries =>
      let '(s1, err1) := walkFn path (Visited true readErr) s in
      match readErr, err1 with
      | None, None =>
          (fix each (l : list FsNode) (s : S) {struct l} : S * option error :=
             match l with
             | [] => (s, None)
             | c :: l' =>
                 let '(s', e) := walk (GoFilepath.Join path (node_name c)) c s in
                 match e with
                 | Some _ => (s', e)
                 | None => each l' s'
                 end
             end) entries s1
      | _, _ => (s1, err1)
      end
  end.

Definition filepath_Walk (path : string) (n : FsNode) (s : S) : S * option error :=
  walk path n s.
End Walk.

(** ** The Go libraries the program calls *)

(** [url.Values]: the values of each key of a query string. *)
Abbreviation Values := (gmap string (list string)).

(** [Values.Get]: the first value of the key, or the empty string. *)
Definition Values_Get (q : Values) (key : string) : string :=
  match q !! key with
  | Some (v :: _) => v
  | _ => ""
  end.

(** [Values.Del]. *)
Definition Values_Del (q : Values) (key : string) : Values := delete key q.

(** The fields of a [url.URL] the program reads or writes; [Rest] stands for
    all the others. *)
Record URL : Type := mkURL {
  Rest : string;
  RawQuery : string
}.

(** What the program takes from [encoding/json], [strconv], [sort] and
    [net/url].  Each function is the library's; the program's behaviour is
    stated for any of them, under the library's contract where one is
    needed. *)
Class GoLib : Type := {
  json_Marshal : list VideoFile -> result bytes;
  json_Indent : bytes -> result bytes;
  json_Unmarshal : bytes -> result (list VideoFile);
  strconv_ParseFloat : string -> result float;
  (* [sort.Slice], with [less] read on the elements the indices name *)
  sort_Slice : (VideoFile -> VideoFile -> bool) -> list VideoFile -> list VideoFile;
  url_Parse : string -> result URL;
  URL_Query : URL -> Values;
  Values_Encode : Values -> string;
  URL_String : URL -> string
}.

(** An HTTP request, as far as the handlers look at it. *)
Record Request : Type := mkRequest {
  URL_Path : string;        (* [r.URL.Path] *)
  Query : Values;           (* [r.URL.Query()] *)
  Referer : string          (* [r.Header.Get("Referer")] *)
}.

Inductive Response : Type :=
| Rendered (data : TemplateData)            (* [tmpl.Execute(w, data)] *)
| NotFound                                  (* [http.NotFound] *)
| Redirect (location : string) (code : Z)   (* [http.Redirect] *)
| Error (msg : string) (code : Z)           (* [http.Error] *)
| WriteHeader (code : Z)                    (* [w.WriteHeader] *)
| ServeFile (name : string)                 (* [http.ServeFile] *)
| Panic.                                    (* index out of range *)

Definition StatusOK : Z := 200.
Definition StatusSeeOther : Z := 303.
Definition StatusBadRequest : Z := 400.
Definition StatusNotFound : Z := 404.
Definition StatusInternalServerError : Z := 500.

(** The status line of a response; serving a file or aborting the handler
    has none that the program chooses. *)
Definition status (r : Response) : option Z :=
  match r with
  | Rendered _ => Some StatusOK
  | NotFound => Some StatusNotFound
  | Redirect _ code | Error _ code | WriteHeader code => Some code
  | ServeFile _ | Panic => None
  end.

(** ** The store *)

Section Program.
Context `{GoLib}.

(** [loadViewedVideos]: the saved records by name; a later record of a name
    replaces an earlier one.  Any failure to read the file yields the empty
    map and no error. *)
Definition loadViewedVideos (path : string) (w : World) : result (gmap string VideoFile) :=
  let viewedVideos : gmap string VideoFile := ∅ in
  match os_ReadFile w with
  | Err _ => Ok viewedVideos
  | Ok jsonData =>
      match json_Unmarshal jsonData with
      | Err err => Err err
      | Ok savedVideos =>
          Ok (foldl (fun m v => <[Name v := v]> m) viewedVideos savedVideos)
      end
  end.

(** [saveViewedVideos]: it returns nothing; a failure is a log line. *)
Definition saveViewedVideos (videoFiles : list VideoFile) (path : string) (w : World) : World :=
  match json_Marshal videoFiles with
  | Err _ => log_Printf "Error marshaling video files" w
  | Ok jsonData =>
      match json_Indent jsonData with
      | Ok prettyJSON =>
          match os_WriteFile prettyJSON w with
          | (w', Some _) => log_Printf "Error saving viewed videos" w'
          | (w', None) => w'
          end
      | Err _ => w
      end
  end.

(** ** The scanner *)

Definition videoExtensions : gmap string bool :=
  list_to_map [(".mp4", true); (".avi", true); (".mkv", true); (".mov", true);
               (".wmv", true); (".flv", true); (".webm", true)].

(** The callback [loadVideoFiles] gives to [filepath.Walk]; [videoFiles] is
    the slice it appends to. *)
Definition loadVideoFiles_walkFn (viewedVideos : gmap string VideoFile)
    : WalkFunc (list VideoFile) :=
  fun path arg videoFiles =>
    match arg with
    | Failed err | Visited _ (Some err) => (videoFiles, Some err)
    | Visited true None => (videoFiles, None)
    | Visited false None =>
        let ext := GoStrings.ToLower (GoFilepath.Ext path) in
        if default false (videoExtensions !! ext) then
          let base := GoFilepath.Base path in
          let saved := default zeroVideoFile (viewedVideos !! base) in
          let videoFile :=
            {| Name := base; Path := path; Viewed := Viewed saved;
               Current := Current saved; Progress := Progress saved |} in
          ((videoFiles ++ [videoFile])%list, None)
        else (videoFiles, None)
    end.

(** The number the comparison of [sort.Slice] reads off a name; the error of
    [strconv.Atoi] is dropped. *)
Definition orderKey (name : string) : Z :=
  fst (GoStrconv.Atoi (GoStrings.TrimSpace (hd "" (GoStrings.Split name " - ")))).

Definition loadVideoFiles_less (vi vj : VideoFile) : bool :=
  let numI := orderKey (Name vi) in
  let numJ := orderKey (Name vj) in
  numI <? numJ.

(** The slice [filepath.Walk] leaves, before it is sorted. *)
Definition scanned (path : string) (viewedVideos : gmap string VideoFile) (w : World)
    : list VideoFile * option error :=
  filepath_Walk (loadVideoFiles_walkFn viewedVideos) path (root w) [].

Definition loadVideoFiles (path : string) (w : World) : result (list VideoFile) :=
  match loadViewedVideos path w with
  | Err err => Err err
  | Ok viewedVideos =>
      match scanned path viewedVideos w with
      | (_, Some err) => Err err
      | (videoFiles, None) => Ok (sort_Slice loadVideoFiles_less videoFiles)
      end
  end.

(** ** [main], up to the start of the server *)

Inductive Process : Type :=
| Exit (code : Z)                         (* usage printed, [os.Exit(1)] *)
| Fatal (msg : string) (err : error)      (* [log.Fatalf] *)
| Serving (path folderName : string) (videoFiles : list VideoFile).

Definition main (args : list string) (w : World) : Process :=
  match args with
  | [path] =>
      match loadVideoFiles path w with
      | Err err => Fatal "Error loading video files" err
      | Ok videoFiles => Serving path (GoFilepath.Base path) videoFiles
      end
  | _ => Exit 1
  end.

(** ** Handlers *)

(** Index of the first element with the given name: the element at which
    the loops [for i := range videoFiles] stop. *)
Fixpoint indexOfName (fileName : string) (videoFiles : list VideoFile) : option nat :=
  match videoFiles with
  | [] => None
  | v :: rest =>
      if String.eqb (Name v) fileName then Some O
      else S <$> indexOfName fileName rest
  end.

(** The first element with the given name: the copy the loops
    [for _, video := range videoFiles] stop with. *)
Definition findByName (fileName : string) (videoFiles : list VideoFile) : option VideoFile :=
  List.find (fun video => String.eqb (Name video) fileName) videoFiles.

Definition readmePaths : list string := ["README.md"; "README.txt"; "readme.md"; "readme.txt"].

Definition readReadmeFile (basePath : string) (w : World) : string :=
  default "" (head (omap (fun p => readme w !! p) readmePaths)).

Definition handleRoot (r : Request) (path : string) (videoFiles : list VideoFile)
    (folderName : string) (w : World) : Response :=
  if negb (String.eqb (URL_Path r) "/") then NotFound
  else Rendered {| ReadmeContent := readReadmeFile path w; Videos := videoFiles;
                   CurrentVideo := ""; CurrentVideoFile := None;
                   FolderName := folderName |}.

Definition setViewed (viewed : bool) (v : VideoFile) : VideoFile :=
  {| Name := Name v; Path := Path v; Viewed := viewed;
     Current := Current v; Progress := Progress v |}.

Definition setCurrent (t : Time) (v : VideoFile) : VideoFile :=
  {| Name := Name v; Path := Path v; Viewed := Viewed v;
     Current := t; Progress := Progress v |}.

Definition setProgress (p : float) (v : VideoFile) : VideoFile :=
  {| Name := Name v; Path := Path v; Viewed := Viewed v;
     Current := Current v; Progress := p |}.

Definition markVideoAsViewed (endedFilename : string) (videoFiles : list VideoFile)
    (path : string) (w : World) : list VideoFile * World :=
  match indexOfName endedFilename videoFiles with
  | Some i =>
      let videoFiles' :=
        alter (fun v => setProgress 0%float (setCurrent (now w) (setViewed true v))) i videoFiles in
      (videoFiles', saveViewedVideos videoFiles' path w)
  | None => (videoFiles, w)
  end.

Definition handleWatch (r : Request) (videoFiles : list VideoFile) (folderName : string)
    (path : string) (w : World) : Response * list VideoFile * World :=
  let fileName := GoStrings.TrimPrefix (URL_Path r) "/watch/" in
  (* a copy of the element, taken before anything is marked *)
  let currentVideo := findByName fileName videoFiles in
  let '(videoFiles', w') :=
    if negb (String.eqb (Values_Get (Query r) "ended") "") && bool_decide (is_Some currentVideo)
    then markVideoAsViewed (Values_Get (Query r) "ended") videoFiles path w
    else (videoFiles, w) in
  (Rendered {| ReadmeContent := ""; Videos := videoFiles'; CurrentVideo := fileName;
               CurrentVideoFile := currentVideo; FolderName := folderName |},
   videoFiles', w').

Definition redirectAfterUnview (r : Request) : Response :=
  let referer := Referer r in
  if negb (String.eqb referer "") then
    match url_Parse referer with
    | Ok refererURL =>
        let q := URL_Query refererURL in
        let q := Values_Del q "ended" in
        let refererURL := {| Rest := Rest refererURL; RawQuery := Values_Encode q |} in
        Redirect (URL_String refererURL) StatusSeeOther
    | Err _ => Redirect "/" StatusSeeOther
    end
  else Redirect "/" StatusSeeOther.

Definition handleUnview (r : Request) (videoFiles : list VideoFile) (path : string)
    (w : World) : Response * list VideoFile * World :=
  let fileName := GoStrings.TrimPrefix (URL_Path r) "/unview/" in
  match indexOfName fileName videoFiles with
  | Some i =>
      let videoFiles' := alter (setViewed false) i videoFiles in
      (redirectAfterUnview r, videoFiles', saveViewedVideos videoFiles' path w)
  | None => (NotFound, videoFiles, w)
  end.

Definition handleVideo (r : Request) (videoFiles : list VideoFile) : Response :=
  let fileName := GoStrings.TrimPrefix (URL_Path r) "/video/" in
  match findByName fileName videoFiles with
  | Some video => ServeFile (Path video)
  | None => NotFound
  end.

(** [handleUpdateProgress] does not get the slice of [main]: it scans the
    directory again and works on the slice that scan returns, which only
    the store outlives. *)
Definition handleUpdateProgress (r : Request) (path : string) (w : World) : Response * World :=
  let parts := GoStrings.Split (URL_Path r) "/" in
  match strconv_ParseFloat (default "" (last parts)) with
  | Err _ =>
      (Error "Invalid progress value" StatusBadRequest, log_Printf "Invalid progress vaule" w)
  | Ok progress =>
      match loadVideoFiles path w with
      | Err _ =>
          (Error "Error loading video progress" StatusInternalServerError,
           log_Printf "Error loading video progress" w)
      | Ok videoFiles =>
          match reverse parts with
          | _ :: fileName :: _ =>
              match indexOfName fileName videoFiles with
              | Some k =>
                  let videoFiles' :=
                    alter (fun v => setProgress progress (setCurrent (now w) v)) k videoFiles in
                  (WriteHeader StatusOK, saveViewedVideos videoFiles' path w)
              | None => (WriteHeader StatusOK, w)
              end
          | _ => (Panic, w)
          end
      end
  end.

End Program.

(** ** [sort.Slice] as the Go library implements it

    The pattern-defeating quicksort of package [sort] (go1.19 and later),
    function by function.  The slice is a list, an index a [Z]; every loop
    takes the number of rounds it can make at most as its fuel. *)

Module GoSort.
Section Pdqsort.
Context {A : Type} (less : A -> A -> bool).

Definition elem (data : list A) (i : Z) : option A :=
  if i <? 0 then None else data !! Z.to_nat i.

(** [data.Less(i, j)]. *)
Definition Less (data : list A) (i j : Z) : bool :=
  match elem data i, elem data j with
  | Some x, Some y => less x y
  | _, _ => false
  end.

(** [data.Swap(i, j)]. *)
Definition Swap (data : list A) (i j : Z) : list A :=
  match elem data i, elem data j with
  | Some x, Some y => <[Z.to_nat i := y]> (<[Z.to_nat j := x]> data)
  | _, _ => data
  end.

(** [for j := i; j > a && data.Less(j, j-1); j-- { data.Swap(j, j-1) }] *)
Fixpoint insertDown (fuel : nat) (data : list A) (a j : Z) : list A :=
  match fuel with
  | O => data
  | S fuel' =>
      if (a <? j) && Less data j (j - 1)
      then insertDown fuel' (Swap data j (j - 1)) a (j - 1)
      else data
  end.

Fixpoint insertionSort_loop (fuel : nat) (data : list A) (a b i : Z) : list A :=
  match fuel with
  | O => data
  | S fuel' =>
      if i <? b
      then insertionSort_loop fuel' (insertDown (Z.to_nat (i - a)) data a i) a b (i + 1)
      else data
  end.

Definition insertionSort_func (data : list A) (a b : Z) : list A :=
  insertionSort_loop (Z.to_nat (b - a)) data a b (a + 1).

Fixpoint siftDown_loop (fuel : nat) (data : list A) (root hi first : Z) : list A :=
  match fuel with
  | O => data
  | S fuel' =>
      let child := 2 * root + 1 in
      if hi <=? child then data
      else
        let child :=
          if (child + 1 <? hi) && Less data (first + child) (first + child + 1)
          then child + 1 else child in
        if negb (Less data (first + root) (first + child)) then data
        else siftDown_loop fuel' (Swap data (first + root) (first + child)) child hi first
  end.

Definition siftDown_func (data : list A) (lo hi first : Z) : list A :=
  siftDown_loop (Z.to_nat hi) data lo hi first.

(** [for i := (hi - 1) / 2; i >= 0; i-- { siftDown_func(data, i, hi, first) }] *)
Fixpoint heapify (fuel : nat) (data : list A) (i hi first : Z) : list A :=
  match fuel with
  | O => data
  | S fuel' =>
      if 0 <=? i then heapify fuel' (siftDown_func data i hi first) (i - 1) hi first
      else data
  end.

(** [for i := hi - 1; i >= 0; i-- { data.Swap(first, first+i); siftDown_func(data, lo, i, first) }] *)
Fixpoint popAll (fuel : nat) (data : list A) (i lo first : Z) : list A :=
  match fuel with
  | O => data
  | S fuel' =>
      if 0 <=? i
      then popAll fuel' (siftDown_func (Swap data first (first + i)) lo i first) (i - 1) lo first
      else data
  end.

Definition heapSort_func (data : list A) (a b : Z) : list A :=
  let first := a in
  let lo := 0 in
  let hi := b - a in
  let data := heapify (Z.to_nat hi) data (Z.quot (hi - 1) 2) hi first in
  popAll (Z.to_nat hi) data (hi - 1) lo first.

(** [bits.Len]. *)
Definition bits_Len (x : Z) : Z := if x <=? 0 then 0 else Z.log2 x + 1.

Definition nextPowerOfTwo (length : Z) : Z := Z.shiftl 1 (bits_Len length).

(** [xorshift.Next] on 64 bits. *)
Definition xorshift_Next (r : Z) : Z :=
  let r := Z.lxor r (Z.land (Z.shiftl r 13) GoStrconv.maxUint64) in
  let r := Z.lxor r (Z.shiftr r 7) in
  Z.lxor r (Z.land (Z.shiftl r 17) GoStrconv.maxUint64).

Fixpoint breakPatterns_loop (fuel : nat) (data : list A) (a length modulus idx random i : Z)
    : list A :=
  match fuel with
  | O => data
  | S fuel' =>
      let random := xorshift_Next random in
      let other := Z.land random (modulus - 1) in
      let other := if length <=? other then other - length else other in
      breakPatterns_loop fuel' (Swap data (idx + i) (a + other))
        a length modulus idx random (i + 1)
  end.

Definition breakPatterns_func (data : list A) (a b : Z) : list A :=
  let length := b - a in
  if 8 <=? length then
    let random := length in
    let modulus := nextPowerOfTwo length in
    let idx := a + Z.quot length 4 * 2 - 1 in
    breakPatterns_loop 3 data a length modulus idx random 0
  else data.

Inductive sortedHint : Type := unknownHint | increasingHint | decreasingHint.

(** [order2_func]: the two indices with the smaller element first, and the
    count of swaps. *)
Definition order2_func (data : list A) (a b swaps : Z) : Z * Z * Z :=
  if Less data b a then (b, a, swaps + 1) else (a, b, swaps).

Definition median_func (data : list A) (a b c swaps : Z) : Z * Z :=
  let '(a, b, swaps) := order2_func data a b swaps in
  let '(b, c, swaps) := order2_func data b c swaps in
  let '(a, b, swaps) := order2_func data a b swaps in
  (b, swaps).

Definition medianAdjacent_func (data : list A) (a swaps : Z) : Z * Z :=
  median_func data (a - 1) a (a + 1) swaps.

Definition choosePivot_func (data : list A) (a b : Z) : Z * sortedHint :=
  let shortestNinther := 50 in
  let maxSwaps := 4 * 3 in
  let l := b - a in
  let swaps := 0 in
  let i := a + Z.quot l 4 * 1 in
  let j := a + Z.quot l 4 * 2 in
  let k := a + Z.quot l 4 * 3 in
  let '(j, swaps) :=
    if 8 <=? l then
      let '(i, j, k, swaps) :=
        if shortestNinther <=? l then
          let '(i, swaps) := medianAdjacent_func data i swaps in
          let '(j, swaps) := medianAdjacent_func data j swaps in
          let '(k, swaps) := medianAdjacent_func data k swaps in
          (i, j, k, swaps)
        else (i, j, k, swaps) in
      median_func data i j k swaps
    else (j, swaps) in
  if swaps =? 0 then (j, increasingHint)
  else if swaps =? maxSwaps then (j, decreasingHint)
  else (j, unknownHint).

Fixpoint reverseRange_loop (fuel : nat) (data : list A) (i j : Z) : list A :=
  match fuel with
  | O => data
  | S fuel' =>
      if i <? j then reverseRange_loop fuel' (Swap data i j) (i + 1) (j - 1) else data
  end.

Definition reverseRange_func (data : list A) (a b : Z) : list A :=
  reverseRange_loop (Z.to_nat (b - a)) data a (b - 1).

(** [for i < b && !data.Less(i, i-1) { i++ }] *)
Fixpoint skipOrdered (fuel : nat) (data : list A) (b i : Z) : Z :=
  match fuel with
  | O => i
  | S fuel' =>
      if (i <? b) && negb (Less data i (i - 1)) then skipOrdered fuel' data b (i + 1) else i
  end.

(** [for j := i - 1; j >= 1; j-- { if !data.Less(j, j-1) { break }; data.Swap(j, j-1) }] *)
Fixpoint shiftLeft (fuel : nat) (data : list A) (j : Z) : list A :=
  match fuel with
  | O => data
  | S fuel' =>
      if (1 <=? j) && Less data j (j - 1)
      then shiftLeft fuel' (Swap data j (j - 1)) (j - 1)
      else data
  end.

(** [for j := i + 1; j < b; j++ { if !data.Less(j, j-1) { break }; data.Swap(j, j-1) }] *)
Fixpoint shiftRight (fuel : nat) (data : list A) (b j : Z) : list A :=
  match fuel with
  | O => data
  | S fuel' =>
      if (j <? b) && Less data j (j - 1)
      then shiftRight fuel' (Swap data j (j - 1)) b (j + 1)
      else data
  end.

Fixpoint partialInsertionSort_loop (steps : nat) (data : list A) (a b i : Z) : list A * bool :=
  let shortestShifting := 50 in
  match steps with
  | O => (data, false)
  | S steps' =>
      let i := skipOrdered (Z.to_nat (b - i)) data b i in
      if i =? b then (data, true)
      else if b - a <? shortestShifting then (data, false)
      else
        let data := Swap data i (i - 1) in
        let data := if 2 <=? i - a then shiftLeft (Z.to_nat i) data (i - 1) else data in
        let data := if 2 <=? b - i then shiftRight (Z.to_nat (b - i)) data b (i + 1) else data in
        partialInsertionSort_loop steps' data a b i
  end.

Definition partialInsertionSort_func (data : list A) (a b : Z) : list A * bool :=
  let maxSteps := 5%nat in
  partialInsertionSort_loop maxSteps data a b (a + 1).

(** [for i <= j && data.Less(i, a) { i++ }] *)
Fixpoint scanUp (fuel : nat) (data : list A) (a i j : Z) : Z :=
  match fuel with
  | O => i
  | S fuel' => if (i <=? j) && Less data i a then scanUp fuel' data a (i + 1) j else i
  end.

(** [for i <= j && !data.Less(j, a) { j-- }] *)
Fixpoint scanDown (fuel : nat) (data : list A) (a i j : Z) : Z :=
  match fuel with
  | O => j
  | S fuel' => if (i <=? j) && negb (Less data j a) then scanDown fuel' data a i (j - 1) else j
  end.

Fixpoint partition_loop (fuel : nat) (data : list A) (a i j : Z) : list A * Z :=
  match fuel with
  | O => (data, j)
  | S fuel' =>
      let i := scanUp (Z.to_nat (j - i + 1)) data a i j in
      let j := scanDown (Z.to_nat (j - i + 1)) data a i j in
      if j <? i then (data, j)
      else partition_loop fuel' (Swap data i j) a (i + 1) (j - 1)
  end.

Definition partition_func (data : list A) (a b pivot : Z) : list A * Z * bool :=
  let data := Swap data a pivot in
  let i := a + 1 in
  let j := b - 1 in
  let i := scanUp (Z.to_nat (j - i + 1)) data a i j in
  let j := scanDown (Z.to_nat (j - i + 1)) data a i j in
  if j <? i then (Swap data j a, j, true)
  else
    let data := Swap data i j in
    let '(data, j) := partition_loop (Z.to_nat (b - a)) data a (i + 1) (j - 1) in
    (Swap data j a, j, false).

(** [for i <= j && !data.Less(a, i) { i++ }] *)
Fixpoint scanUpEqual (fuel : nat) (data : list A) (a i j : Z) : Z :=
  match fuel with
  | O => i
  | S fuel' =>
      if (i <=? j) && negb (Less data a i) then scanUpEqual fuel' data a (i + 1) j else i
  end.

(** [for i <= j && data.Less(a, j) { j-- }] *)
Fixpoint scanDownEqual (fuel : nat) (data : list A) (a i j : Z) : Z :=
  match fuel with
  | O => j
  | S fuel' =>
      if (i <=? j) && Less data a j then scanDownEqual fuel' data a i (j - 1) else j
  end.

Fixpoint partitionEqual_loop (fuel : nat) (data : list A) (a i j : Z) : list A * Z :=
  match fuel with
  | O => (data, i)
  | S fuel' =>
      let i := scanUpEqual (Z.to_nat (j - i + 1)) data a i j in
      let j := scanDownEqual (Z.to_nat (j - i + 1)) data a i j in
      if j <? i then (data, i)
      else partitionEqual_loop fuel' (Swap data i j) a (i + 1) (j - 1)
  end.

Definition partitionEqual_func (data : list A) (a b pivot : Z) : list A * Z :=
  let data := Swap data a pivot in
  partitionEqual_loop (S (Z.to_nat (b - a))) data a (a + 1) (b - 1).

Definition maxInsertion : Z := 12.

(** [pdqsort_func]: one round of its loop per unit of fuel; the two flags
    are the loop's [wasBalanced] and [wasPartitioned]. *)
Fixpoint pdqsort_func (fuel : nat) (data : list A) (a b limit : Z)
    (wasBalanced wasPartitioned : bool) : list A :=
  match fuel with
  | O => data
  | S fuel' =>
      let length := b - a in
      if length <=? maxInsertion then insertionSort_func data a b
      else if limit =? 0 then heapSort_func data a b
      else
        let '(data, limit) :=
          if negb wasBalanced then (breakPatterns_func data a b, limit - 1)
          else (data, limit) in
        let '(pivot, hint) := choosePivot_func data a b in
        let '(data, pivot, hint) :=
          match hint with
          | decreasingHint =>
              (reverseRange_func data a b, (b - 1) - (pivot - a), increasingHint)
          | _ => (data, pivot, hint)
          end in
        let '(data, sorted) :=
          match hint with
          | increasingHint =>
              if wasBalanced && wasPartitioned then partialInsertionSort_func data a b
              else (data, false)
          | _ => (data, false)
          end in
        if sorted then data
        else if (0 <? a) && negb (Less data (a - 1) pivot) then
          let '(data, mid) := partitionEqual_func data a b pivot in
          pdqsort_func fuel' data mid b limit wasBalanced wasPartitioned
        else
          let '(data, mid, alreadyPartitioned) := partition_func data a b pivot in
          let leftLen := mid - a in
          let rightLen := b - mid in
          let balanceThreshold := Z.quot length 8 in
          if leftLen <? rightLen then
            let data := pdqsort_func fuel' data a mid limit true true in
            pdqsort_func fuel' data (mid + 1) b limit
              (balanceThreshold <=? leftLen) alreadyPartitioned
          else
            let data := pdqsort_func fuel' data (mid + 1) b limit true true in
            pdqsort_func fuel' data a mid limit
              (balanceThreshold <=? rightLen) alreadyPartitioned
  end.

(** [sort.Slice]. *)
Definition Slice (data : list A) : list A :=
  let length := Z.of_nat (List.length data) in
  let limit := bits_Len length in
  pdqsort_func (S (List.length data)) data 0 length limit true true.

End Pdqsort.
End GoSort.

(** ** Insertion sort on lists

    What [insertionSort_func] computes, told without indices: each element
    in turn moves to the left over the elements of greater key. *)

Section InsertionSort.
Context {A : Type} (key : A -> Z).

Definition lessByKey (x y : A) : bool := key x <? key y.

(** The element [x] moved to the left over the greater elements at the end
    of a prefix; [rp] is the part of the prefix still to the left of [x],
    reversed, [moved] the elements [x] has passed. *)
Fixpoint insertLeft (x : A) (rp moved : list A) : list A :=
  match rp with
  | y :: rp' =>
      if lessByKey x y then insertLeft x rp' (y :: moved)
      else (reverse rp ++ x :: moved)%list
  | [] => x :: moved
  end.

Definition insertionSorted (l : list A) : list A :=
  foldl (fun p x => insertLeft x (reverse p) []) [] l.

End InsertionSort.

(** ** Ranges of a slice

    What is said of the part [[a, b)] of the slice [pdqsort_func] works
    on, by index as the code has it. *)

Section Ranges.
Context {A : Type} (less : A -> A -> bool).

(** [d'] differs from [d] inside [[a, b)] only, and what it holds there it
    took from there. *)
Definition Frame (a b : Z) (d d' : list A) : Prop :=
  Z.of_nat (length d') = Z.of_nat (length d)
  /\ (forall k, ~ (a <= k < b) -> GoSort.elem d' k = GoSort.elem d k)
  /\ (forall k, a <= k < b -> exists k', a <= k' < b /\ GoSort.elem d' k = GoSort.elem d k').

(** Every element of [[a, b)] satisfies [P]. *)
Definition AllIn (a b : Z) (d : list A) (P : A -> Prop) : Prop :=
  forall k x, a <= k < b -> GoSort.elem d k = Some x -> P x.

(** [[a, b)] is in order: no element is less than one before it. *)
Definition SortedIn (a b : Z) (d : list A) : Prop :=
  forall i j x y, a <= i -> i <= j -> j < b ->
    GoSort.elem d i = Some x -> GoSort.elem d j = Some y -> less y x = false.

(** What [partition_func] leaves: the pivot [p] at [mid], the lesser
    elements before it, the others after it. *)
Definition Partitioned (a b mid : Z) (p : A) (d : list A) : Prop :=
  a <= mid < b /\ GoSort.elem d mid = Some p
  /\ AllIn a mid d (fun x => less x p = true)
  /\ AllIn (mid + 1) b d (fun x => less x p = false).

(** The state of [partition_func] between two exchanges. *)
Definition Parting (a b i j : Z) (p : A) (d : list A) : Prop :=
  GoSort.elem d a = Some p
  /\ AllIn (a + 1) i d (fun x => less x p = true)
  /\ AllIn (j + 1) b d (fun x => less x p = false).

(** The state of [partitionEqual_func] between two exchanges. *)
Definition PartingEqual (a b i j : Z) (p : A) (d : list A) : Prop :=
  GoSort.elem d a = Some p
  /\ AllIn (a + 1) i d (fun x => less p x = false)
  /\ AllIn (j + 1) b d (fun x => less p x = true).

(** In the heap of [hi] elements that starts at [first], no node from [lo]
    on is less than a child of its. *)
Definition HeapFrom (lo hi first : Z) (d : list A) : Prop :=
  forall k c x y, lo <= k -> (c = 2 * k + 1 \/ c = 2 * k + 2) -> c < hi ->
    GoSort.elem d (first + k) = Some x -> GoSort.elem d (first + c) = Some y ->
    less x y = false.

(** The element before [a], when there is one, is no greater than any
    element of [[a, b)]. *)
Definition Floor (a b : Z) (d : list A) : Prop :=
  forall x, GoSort.elem d (a - 1) = Some x -> AllIn a b d (fun y => less y x = false).

End Ranges.

(** ** The server as a transition system *)

(** One call of one of the five handlers [main] registers, with the
    request it is given. *)
Inductive Call : Type :=
| CallRoot (r : Request)
| CallWatch (r : Request)
| CallUnview (r : Request)
| CallVideo (r : Request)
| CallUpdateProgress (r : Request).

(** What the process holds while it serves: the arguments the closures of
    [main] captured, the slice among them, and the world outside. *)
Record Server : Type := mkServer {
  srv_path : string;
  srv_folderName : string;
  srv_videoFiles : list VideoFile;
  srv_world : World
}.

Section Serve.
Context `{GoLib}.

Definition serve (c : Call) (s : Server) : Response * Server :=
  let path := srv_path s in
  let folderName := srv_folderName s in
  let videoFiles := srv_videoFiles s in
  let w := srv_world s in
  match c with
  | CallRoot r => (handleRoot r path videoFiles folderName w, s)
  | CallWatch r =>
      let '(resp, videoFiles', w') := handleWatch r videoFiles folderName path w in
      (resp, mkServer path folderName videoFiles' w')
  | CallUnview r =>
      let '(resp, videoFiles', w') := handleUnview r videoFiles path w in
      (resp, mkServer path folderName videoFiles' w')
  | CallVideo r => (handleVideo r videoFiles, s)
  | CallUpdateProgress r =>
      let '(resp, w') := handleUpdateProgress r path w in
      (resp, mkServer path folderName videoFiles w')
  end.

(** A step of a run: a request is served, or the file system changes
    behind the back of the process (the clock moves, files come and go). *)
Inductive Step : Type :=
| Serve (c : Call)
| Outside (w : World).

Definition step (s : Server) (e : Step) : Server :=
  match e with
  | Serve c => snd (serve c s)
  | Outside w => mkServer (srv_path s) (srv_folderName s) (srv_videoFiles s) w
  end.

Definition run (s : Server) (steps : list Step) : Server := foldl step s steps.

End Serve.

(** An unview request for the name. *)
Definition unviews (name : string) (e : Step) : Prop :=
  match e with
  | Serve (CallUnview r) => GoStrings.TrimPrefix (URL_Path r) "/unview/" = name
  | _ => False
  end.

(** ** Contracts of the libraries *)

(** What [sort.Slice] asks of [less]. *)
Definition strict_weak_order {A : Type} (less : A -> A -> bool) : Prop :=
  (forall x, less x x = false)
  /\ (forall x y z, less x y = true -> less y z = true -> less x z = true)
  /\ (forall x y z, less x y = false -> less y z = false -> less x z = false).

(** [sort.Slice] rearranges the slice. *)
Definition sort_permutes `{GoLib} : Prop :=
  forall less l, sort_Slice less l ≡ₚ l.

(** [sort.Slice] leaves the slice sorted: no element is less than one
    before it.  Its documentation promises no more; the order of elements
    that compare equal is not fixed. *)
Definition sort_sorts `{GoLib} : Prop :=
  forall less l, strict_weak_order less ->
    StronglySorted (fun x y => less y x = false) (sort_Slice less l).

(** A document [json.Marshal] and [json.Indent] produce from a slice reads
    back as that slice. *)
Definition json_roundtrip_at `{GoLib} (l : list VideoFile) (pretty : bytes) : Prop :=
  exists jsonData,
    json_Marshal l = Ok jsonData /\ json_Indent jsonData = Ok pretty
    /\ json_Unmarshal pretty = Ok l.

(** A URL that [URL.String] writes with the query [Values.Encode] makes of
    [q] reads back with the query [q]. *)
Definition url_roundtrip_at `{GoLib} (u : URL) (q : Values) : Prop :=
  exists u', url_Parse (URL_String {| Rest := Rest u; RawQuery := Values_Encode q |}) = Ok u'
    /\ URL_Query u' = q.

(** ** What a scan reads off the tree *)

(** The paths of the nodes that are no directories, in walk order. *)
Fixpoint treeFiles (path : string) (n : FsNode) {struct n} : list string :=
  match n with
  | FsFile _ => [path]
  | FsBroken _ _ => []
  | FsDir _ _ entries =>
      (fix each (l : list FsNode) : list string :=
         match l with
         | [] => []
         | c :: l' => (treeFiles (GoFilepath.Join path (node_name c)) c ++ each l')%list
         end) entries
  end.

(** Whether the walk meets no error: every node can be examined and every
    directory listed. *)
Fixpoint treeSound (n : FsNode) {struct n} : bool :=
  match n with
  | FsFile _ => true
  | FsBroken _ _ => false
  | FsDir _ readErr entries =>
      match readErr with
      | Some _ => false
      | None =>
          (fix each (l : list FsNode) : bool :=
             match l with
             | [] => true
             | c :: l' => treeSound c && each l'
             end) entries
      end
  end.

(** The extension test of the scanner. *)
Definition allowed (path : string) : bool :=
  default false (videoExtensions !! GoStrings.ToLower (GoFilepath.Ext path)).

(** The entry the scanner makes of a file it accepts. *)
Definition entryOf (viewedVideos : gmap string VideoFile) (path : string) : VideoFile :=
  let base := GoFilepath.Base path in
  let saved := default zeroVideoFile (viewedVideos !! base) in
  {| Name := base; Path := path; Viewed := Viewed saved;
     Current := Current saved; Progress := Progress saved |}.

(** The entries a walk without error collects from the files it visits. *)
Definition scanEntries (viewedVideos : gmap string VideoFile) (files : list string)
    : list VideoFile :=
  entryOf viewedVideos <$> filter (fun p => allowed p = true) files.

(** The names of a directory listing are in the order [filepath.Walk]
    sorts them into: strictly ascending, byte by byte. *)
Fixpoint ascending (names : list string) : bool :=
  match names with
  | a :: (b :: _) as rest => String.ltb a b && ascending rest
  | _ => true
  end.

Fixpoint listingSorted (n : FsNode) {struct n} : bool :=
  match n with
  | FsDir _ _ entries =>
      ascending (map node_name entries)
      && (fix each (l : list FsNode) : bool :=
            match l with
            | [] => true
            | c :: l' => listingSorted c && each l'
            end) entries
  | _ => true
  end.

(** The saved state of a name in a slice as [loadViewedVideos] reads it
    back: that of the last element with the name. *)
Definition lastNamed (name : string) (l : list VideoFile) : option VideoFile :=
  last (filter (fun v => Name v = name) l).

(** Ties keep their order: elements of [l'] with equal keys stand as in
    [l]. *)
Definition stable_wrt {A : Type} (key : A -> Z) (l l' : list A) : Prop :=
  forall k, filter (fun x => key x = k) l' = filter (fun x => key x = k) l.

(** ** The name test of the other scanner

    The second Go file of the repository (it keeps [viewed_videos.json])
    scans inside [main] and appends a file only when its base name passes
    this test; [loadVideoFiles] has no such test. *)

Module Legacy.

Definition nameAccepted (base : string) : bool :=
  match GoStrings.Split base " - " with
  | [num; _] => negb (String.eqb (GoStrings.TrimSpace num) "")
  | _ => false
  end.

End Legacy.

(** ** The libraries on the inputs of the examples

    [encoding/json] and [strconv.ParseFloat] are tabulated on the documents
    and numbers the examples use; [net/url] is cut down to URLs of a path,
    or of [http] or [https], a host and a path, with or without a query and
    without a fragment; [sort.Slice] is [GoSort.Slice]. *)

Module Demo.

Definition nl : string := String (ascii_of_nat 10) EmptyString.
Definition dq : string := String (ascii_of_nat 34) EmptyString.
Definition quoted (s : string) : string := dq ++ s ++ dq.

Definition jsonField (indent key value : string) : string :=
  indent ++ quoted key ++ ": " ++ value.

(** One record as [json.Indent] lays it out with four spaces. *)
Definition jsonVideo (name path : string) (viewed : bool) (current progress : string) : string :=
  "    {" ++ nl
  ++ jsonField "        " "Name" (quoted name) ++ "," ++ nl
  ++ jsonField "        " "Path" (quoted path) ++ "," ++ nl
  ++ jsonField "        " "Viewed" (if viewed then "true" else "false") ++ "," ++ nl
  ++ jsonField "        " "Current" (quoted current) ++ "," ++ nl
  ++ jsonField "        " "Progress" progress ++ nl
  ++ "    }".

Fixpoint joinWith (sep : string) (items : list string) : string :=
  match items with
  | [] => ""
  | [x] => x
  | x :: rest => x ++ sep ++ joinWith sep rest
  end.

Definition jsonArray (items : list string) : string :=
  match items with
  | [] => "[]"
  | _ => "[" ++ nl ++ joinWith ("," ++ nl) items ++ nl ++ "]"
  end.

Definition t0 : Time := 0.
Definition t1 : Time := 1000000000.
Definition t0_text : string := "0001-01-01T00:00:00Z".
Definition t1_text : string := "0001-01-01T00:00:01Z".

Definition video (name path : string) (viewed : bool) (current : Time) (progress : float)
    : VideoFile :=
  {| Name := name; Path := path; Viewed := viewed; Current := current; Progress := progress |}.

(** The library of the scenarios: three files in one directory. *)
Definition bad : VideoFile := video "bad_name.mp4" "videos/bad_name.mp4" false t0 0%float.
Definition intro : VideoFile := video "1 - Intro.mp4" "videos/1 - Intro.mp4" false t0 0%float.
Definition body : VideoFile := video "2 - Body.mp4" "videos/2 - Body.mp4" false t0 0%float.
Definition bad_text : string := jsonVideo "bad_name.mp4" "videos/bad_name.mp4" false t0_text "0".
Definition body_text : string := jsonVideo "2 - Body.mp4" "videos/2 - Body.mp4" false t0_text "0".

Definition lib0 : list VideoFile := [bad; intro; body].

(** [1 - Intro.mp4] marked viewed at [t1]. *)
Definition introViewed : VideoFile :=
  video "1 - Intro.mp4" "videos/1 - Intro.mp4" true t1 0%float.
Definition libViewed : list VideoFile := [bad; introViewed; body].
Definition docViewed : bytes :=
  jsonArray [bad_text; jsonVideo "1 - Intro.mp4" "videos/1 - Intro.mp4" true t1_text "0";
             body_text].

(** and unviewed again. *)
Definition introUnviewed : VideoFile :=
  video "1 - Intro.mp4" "videos/1 - Intro.mp4" false t1 0%float.
Definition libUnviewed : list VideoFile := [bad; introUnviewed; body].
Definition docUnviewed : bytes :=
  jsonArray [bad_text; jsonVideo "1 - Intro.mp4" "videos/1 - Intro.mp4" false t1_text "0";
             body_text].

(** [1 - Intro.mp4] played up to second 42.5 at [t1]. *)
Definition introPlayed : VideoFile :=
  video "1 - Intro.mp4" "videos/1 - Intro.mp4" false t1 42.5%float.
Definition libPlayed : list VideoFile := [bad; introPlayed; body].
Definition docPlayed : bytes :=
  jsonArray [bad_text; jsonVideo "1 - Intro.mp4" "videos/1 - Intro.mp4" false t1_text "42.5";
             body_text].

(** Two files of one name in two directories, the first of them viewed. *)
Definition twinA : VideoFile := video "1 - Intro.mp4" "videos/a/1 - Intro.mp4" true t1 0%float.
Definition twinB : VideoFile := video "1 - Intro.mp4" "videos/b/1 - Intro.mp4" false t0 0%float.
Definition libTwins : list VideoFile := [twinA; twinB].
Definition docTwins : bytes :=
  jsonArray [jsonVideo "1 - Intro.mp4" "videos/a/1 - Intro.mp4" true t1_text "0";
             jsonVideo "1 - Intro.mp4" "videos/b/1 - Intro.mp4" false t0_text "0"].

(** [2 - Body.mp4] marked viewed at [t1], nothing known of the others. *)
Definition bodyViewed : VideoFile :=
  video "2 - Body.mp4" "videos/2 - Body.mp4" true t1 0%float.
Definition libBodyViewed : list VideoFile := [bad; intro; bodyViewed].
Definition docBodyViewed : bytes :=
  jsonArray [bad_text; jsonVideo "1 - Intro.mp4" "videos/1 - Intro.mp4" false t0_text "0";
             jsonVideo "2 - Body.mp4" "videos/2 - Body.mp4" true t1_text "0"].

Definition docs : list (bytes * list VideoFile) :=
  [ ("[]", []); (docViewed, libViewed); (docUnviewed, libUnviewed);
    (docPlayed, libPlayed); (docTwins, libTwins); (docBodyViewed, libBodyViewed) ].

Definition VideoFile_eqb (a b : VideoFile) : bool :=
  String.eqb (Name a) (Name b) && String.eqb (Path a) (Path b)
  && Bool.eqb (Viewed a) (Viewed b) && (Current a =? Current b)
  && PrimFloat.eqb (Progress a) (Progress b).

Fixpoint list_eqb (l1 l2 : list VideoFile) : bool :=
  match l1, l2 with
  | [], [] => true
  | a :: l1', b :: l2' => VideoFile_eqb a b && list_eqb l1' l2'
  | _, _ => false
  end.

Definition finite (f : float) : bool := negb (is_nan f || is_infinity f).

(** [json.Marshal] refuses a number that is not finite. *)
Definition json_Marshal (l : list VideoFile) : result bytes :=
  if forallb (fun v => finite (Progress v)) l then
    match List.find (fun d => list_eqb l (snd d)) docs with
    | Some d => Ok (fst d)
    | None => Err "document not tabulated"
    end
  else Err "json: unsupported value".

(** The tabulated documents are indented already. *)
Definition json_Indent (b : bytes) : result bytes := Ok b.

Definition json_Unmarshal (b : bytes) : result (list VideoFile) :=
  match List.find (fun d => String.eqb b (fst d)) docs with
  | Some d => Ok (snd d)
  | None => Err "invalid character"
  end.

Definition strconv_ParseFloat (s : string) : result float :=
  if String.eqb s "42.5" then Ok 42.5%float
  else if String.eqb s "0" then Ok 0%float
  else if String.eqb s "NaN" then Ok nan
  else Err "invalid syntax".

(** The text before the first [c], and the text after it if there is one:
    [strings.Cut]. *)
Fixpoint cut (c : ascii) (s : string) : string * option string :=
  match s with
  | EmptyString => (EmptyString, None)
  | String x s' =>
      if Ascii.eqb x c then (EmptyString, Some s')
      else let '(before, after) := cut c s' in (String x before, after)
  end.

Fixpoint hasControlByte (s : string) : bool :=
  match s with
  | EmptyString => false
  | String x s' =>
      let n := nat_of_ascii x in
      (n <? 32)%nat || (n =? 127)%nat || hasControlByte s'
  end.

Fixpoint contains (c : ascii) (s : string) : bool :=
  match s with
  | EmptyString => false
  | String x s' => Ascii.eqb x c || contains c s'
  end.

Definition isAlnum (c : ascii) : bool :=
  let n := nat_of_ascii c in
  ((97 <=? n) && (n <=? 122) || (65 <=? n) && (n <=? 90) || (48 <=? n) && (n <=? 57))%nat.

(** The two modes of [shouldEscape] the program comes by: the path of a
    URL and a component of its query. *)
Inductive encoding : Type := encodePath | encodeQueryComponent.

(** [shouldEscape] of [net/url]. *)
Definition shouldEscape (c : ascii) (mode : encoding) : bool :=
  if isAlnum c then false
  else if existsb (Ascii.eqb c) ["-"; "_"; "."; "~"]%char then false
  else if existsb (Ascii.eqb c) ["$"; "&"; "+"; ","; "/"; ":"; ";"; "="; "?"; "@"]%char then
    match mode with
    | encodePath => Ascii.eqb c "?"
    | encodeQueryComponent => true
    end
  else true.

Definition upperhex (n : nat) : ascii :=
  if (n <? 10)%nat then ascii_of_nat (48 + n) else ascii_of_nat (55 + n).

(** [escape]: a blank becomes [+] in a query component, every other byte
    that should be escaped becomes [%XX]. *)
Fixpoint escape (s : string) (mode : encoding) : string :=
  match s with
  | EmptyString => EmptyString
  | String c s' =>
      if shouldEscape c mode then
        match mode, Ascii.eqb c " " with
        | encodeQueryComponent, true => String "+" (escape s' mode)
        | _, _ =>
            let n := nat_of_ascii c in
            String "%" (String (upperhex (n / 16)) (String (upperhex (n mod 16))
              (escape s' mode)))
        end
      else String c (escape s' mode)
  end.

(** [unhex], and nothing for a byte that is no hexadecimal digit. *)
Definition unhex (c : ascii) : option nat :=
  let n := nat_of_ascii c in
  if ((48 <=? n) && (n <=? 57))%nat then Some (n - 48)%nat
  else if ((97 <=? n) && (n <=? 102))%nat then Some (n - 87)%nat
  else if ((65 <=? n) && (n <=? 70))%nat then Some (n - 55)%nat
  else None.

(** [unescape]: [%XX] becomes the byte, [+] a blank in a query component;
    a [%] that two hexadecimal digits do not follow is an error. *)
Fixpoint unescape (s : string) (mode : encoding) : result string :=
  match s with
  | EmptyString => Ok EmptyString
  | String "%" (String h (String l s')) =>
      match unhex h, unhex l, unescape s' mode with
      | Some a, Some b, Ok t => Ok (String (ascii_of_nat (16 * a + b)) t)
      | Some _, Some _, Err e => Err e
      | _, _, _ => Err "invalid URL escape"
      end
  | String "%" _ => Err "invalid URL escape"
  | String c s' =>
      match unescape s' mode with
      | Ok t =>
          Ok (String (match mode, Ascii.eqb c "+" with
                      | encodeQueryComponent, true => " "%char
                      | _, _ => c
                      end) t)
      | Err e => Err e
      end
  end.

(** [validEncoded] for a path. *)
Fixpoint validEncoded (s : string) : bool :=
  match s with
  | EmptyString => true
  | String c s' =>
      (existsb (Ascii.eqb c)
         ["!"; "$"; "&"; "'"; "("; ")"; "*"; "+"; ","; ";"; "="; ":"; "@"; "["; "]"; "%"]%char
       || negb (shouldEscape c encodePath))
      && validEncoded s'
  end.

(** The scheme and the authority in front of a URL, for the URLs that
    start with [http://] or [https://] and name a host, with or without a
    port, in letters, digits, dots and hyphens; and the path that
    follows. *)
Definition isHostByte (c : ascii) : bool :=
  isAlnum c || existsb (Ascii.eqb c) ["."; "-"; ":"]%char.

Fixpoint authority (s : string) : string * string :=
  match s with
  | EmptyString => (EmptyString, EmptyString)
  | String c s' =>
      if Ascii.eqb c "/" then (EmptyString, s)
      else let '(a, rest) := authority s' in (String c a, rest)
  end.

Definition splitOrigin (rest : string) : option (string * string) :=
  let withScheme (scheme : string) : option (string * string) :=
    let '(host, path) := authority (GoStrings.drop_bytes (String.length scheme) rest) in
    match host with
    | EmptyString => None
    | String c _ =>
        if forallb isHostByte (list_ascii_of_string host) && negb (Ascii.eqb c ":")
        then Some (scheme ++ host, path) else None
    end in
  if GoStrings.HasPrefix rest "http://" then withScheme "http://"
  else if GoStrings.HasPrefix rest "https://" then withScheme "https://"
  else if GoStrings.HasPrefix rest "/" && negb (GoStrings.HasPrefix rest "//")
  then Some (EmptyString, rest)
  else None.

(** [url.Parse] on URLs of that shape without fragment; [Rest] is the text
    in front of the query.  Others are not tabulated. *)
Definition url_Parse (rawURL : string) : result URL :=
  if hasControlByte rawURL then Err "net/url: invalid control character in URL"
  else if contains "#" rawURL then Err "URL not tabulated"
  else
    let '(rest, query) := cut "?" rawURL in
    match splitOrigin rest, query with
    | None, _ | _, Some EmptyString => Err "URL not tabulated"
    | Some (_, path), _ =>
        match unescape path encodePath with
        | Err e => Err e
        | Ok _ => Ok {| Rest := rest; RawQuery := default "" query |}
        end
    end.

(** [parseQuery]: the pairs between the [&]; a pair with a semicolon or
    with a bad escape is left out, and so is an empty one. *)
Definition addPair (q : Values) (pair : string) : Values :=
  if contains ";" pair then q
  else
    match pair with
    | EmptyString => q
    | _ =>
        let '(key, value) := cut "=" pair in
        match unescape key encodeQueryComponent,
              unescape (default "" value) encodeQueryComponent with
        | Ok key, Ok value => <[key := (default [] (q !! key) ++ [value])%list]> q
        | _, _ => q
        end
    end.

(** [URL.Query]. *)
Definition URL_Query (u : URL) : Values :=
  foldl addPair ∅ (GoStrings.Split (RawQuery u) "&").

(** [Values.Encode]: the pairs in the order of their keys. *)
Definition Values_Encode (q : Values) : string :=
  joinWith "&"
    (flat_map
       (fun kv =>
          map (fun v => escape (fst kv) encodeQueryComponent ++ "="
                        ++ escape v encodeQueryComponent) (snd kv))
       (@merge_sort (string * list string)
          (fun a b => String.leb (fst a) (fst b) = true)
          (fun a b => decide (String.leb (fst a) (fst b) = true))
          (map_to_list q))).

(** [URL.EscapedPath]: the path as it was written when that is a valid
    encoding, else the escaped form of what it decodes to. *)
Definition escapedPath (raw : string) : string :=
  if validEncoded raw then raw
  else
    match unescape raw encodePath with
    | Ok path => escape path encodePath
    | Err _ => raw
    end.

(** [URL.String], for a URL [url_Parse] made. *)
Definition URL_String (u : URL) : string :=
  let front :=
    match splitOrigin (Rest u) with
    | Some (origin, path) => origin ++ escapedPath path
    | None => Rest u
    end in
  match RawQuery u with
  | EmptyString => front
  | q => front ++ "?" ++ q
  end.

(** The libraries with Go's own [sort.Slice]. *)
Definition goLib : GoLib :=
  Build_GoLib json_Marshal json_Indent json_Unmarshal strconv_ParseFloat
    (@GoSort.Slice VideoFile) url_Parse URL_Query Values_Encode URL_String.

(** The same with a merge sort in the place of [sort.Slice]: another
    implementation of its contract. *)
Definition mergeLib : GoLib :=
  Build_GoLib json_Marshal json_Indent json_Unmarshal strconv_ParseFloat
    (fun less =>
       @merge_sort VideoFile (fun x y => less y x = false)
         (fun x y => decide (less y x = false)))
    url_Parse URL_Query Values_Encode URL_String.

Definition library : FsNode :=
  FsDir "videos" None [FsFile "1 - Intro.mp4"; FsFile "2 - Body.mp4"; FsFile "bad_name.mp4"].

Definition world0 : World :=
  {| root := library; store := FileAbsent; write_err := None; readme := ∅;
     now := t1; trace := [] |}.

Definition readOnly (w : World) : World :=
  withWriteErr (Some (OpenFails "permission denied")) w.

(** The same with a disk that fills up after [written] bytes. *)
Definition diskFull (written : nat) (w : World) : World :=
  withWriteErr (Some (WriteFails written "no space left on device")) w.


(** Eleven numbered episodes and two files without a number, as
    [filepath.Walk] lists them. *)
Definition season : FsNode :=
  FsDir "videos" None
    (map FsFile
       ["1 - Intro.mp4"; "10 - J.mp4"; "11 - K.mp4"; "2 - B.mp4"; "3 - C.mp4"; "4 - D.mp4";
        "5 - E.mp4"; "6 - F.mp4"; "7 - G.mp4"; "8 - H.mp4"; "9 - I.mp4"; "bonus.mp4";
        "extras.mp4"]).

Definition seasonWorld : World :=
  {| root := season; store := FileAbsent; write_err := None; readme := ∅;
     now := t1; trace := [] |}.


(** A third implementation of the contract of [sort.Slice]: it sorts, and
    turns elements that compare equal around. *)
Definition reversingLib : GoLib :=
  Build_GoLib json_Marshal json_Indent json_Unmarshal strconv_ParseFloat
    (fun less l =>
       @merge_sort VideoFile (fun x y => less y x = false)
         (fun x y => decide (less y x = false)) (reverse l))
    url_Parse URL_Query Values_Encode URL_String.

(** The world after a write of the document. *)
Definition written (doc : bytes) (w : World) : World :=
  emit (EvWriteFile videoDataFile doc true) (withStore (FileData doc) w).

Definition get (path : string) (query : list (string * list string)) (referer : string)
    : Request :=
  {| URL_Path := path; Query := list_to_map query; Referer := referer |}.

(** The requests of the scenarios. *)
Definition watchBodyAfterIntro : Request :=
  get "/watch/2 - Body.mp4" [("ended", ["1 - Intro.mp4"])] "".
Definition watchIntroAfterBody : Request :=
  get "/watch/1 - Intro.mp4" [("ended", ["2 - Body.mp4"])] "".
Definition watchMissingAfterIntro : Request :=
  get "/watch/9 - Missing.mp4" [("ended", ["1 - Intro.mp4"])] "".
Definition unviewIntro : Request := get "/unview/1 - Intro.mp4" [] "".
Definition unviewIntroFromPlayer : Request :=
  get "/unview/1 - Intro.mp4" []
    "http://localhost:8080/watch/2 - Body.mp4?ended=1+-+Intro.mp4".
Definition unviewBody : Request := get "/unview/2 - Body.mp4" [] "".
Definition progressIntro : Request := get "/update-progress/1 - Intro.mp4/42.5" [] "".
Definition progressIntroBad : Request :=
  get "/update-progress/1 - Intro.mp4/notanumber" [] "".
Definition progressIntroNaN : Request := get "/update-progress/1 - Intro.mp4/NaN" [] "".


Definition server0 : Server := mkServer "videos" "videos" lib0 world0.

End Demo.

(** ** Errors of a walk, numerals and plain names

    What the properties beyond the specification's are stated with. *)

(** The first error a walk of the tree meets, in the order of the walk: a
    node [os.Lstat] fails on, or a directory that cannot be listed. *)
Fixpoint treeError (n : FsNode) {struct n} : option error :=
  match n with
  | FsFile _ => None
  | FsBroken _ e => Some e
  | FsDir _ readErr entries =>
      match readErr with
      | Some e => Some e
      | None =>
          (fix each (l : list FsNode) : option error :=
             match l with
             | [] => None
             | c :: l' =>
                 match treeError c with
                 | Some e => Some e
                 | None => each l'
                 end
             end) entries
      end
  end.

(** The digits of [u], the last one first, put before [acc]: the loop of
    [strconv.FormatInt] in base ten. *)
Fixpoint formatDecimal (fuel : nat) (u : Z) (acc : string) : string :=
  match fuel with
  | O => acc
  | S fuel' =>
      let acc := String (ascii_of_nat (Z.to_nat (48 + u mod 10))) acc in
      if u <? 10 then acc else formatDecimal fuel' (u / 10) acc
  end.

(** [strconv.Itoa] on 64-bit integers: the numeral a numbered file name
    starts with. *)
Definition Itoa (i : Z) : string :=
  if i <? 0 then String "-" (formatDecimal 20 (- i) EmptyString)
  else formatDecimal 20 i EmptyString.

(** Whether the path separator occurs in [s]. *)
Fixpoint hasSlash (s : string) : bool :=
  match s with
  | EmptyString => false
  | String c s' => GoFilepath.is_sep c || hasSlash s'
  end.

(** The printable ASCII bytes other than the blank: no white space rune
    starts or ends with one of them. *)
Definition plain (c : ascii) : bool :=
  ((33 <=? nat_of_ascii c) && (nat_of_ascii c <=? 126))%nat.

(** Text of such bytes only. *)
Fixpoint allPlain (s : string) : bool :=
  match s with
  | EmptyString => true
  | String c s' => plain c && allPlain s'
  end.

(** The element of a reversed path up to its first separator. *)
Fixpoint lastElemRev (r : string) : string :=
  match r with
  | EmptyString => EmptyString
  | String c r' => if GoFilepath.is_sep c then EmptyString else String c (lastElemRev r')
  end.

(** The bytes [0] to [9]. *)
Definition isDigit (c : ascii) : bool :=
  ((48 <=? nat_of_ascii c) && (nat_of_ascii c <=? 57))%nat.

(** Whether a dot or a separator occurs in [s]: [filepath.Ext] stops at
    either. *)
Fixpoint hasDotOrSlash (s : string) : bool :=
  match s with
  | EmptyString => false
  | String c s' => GoFilepath.is_sep c || Ascii.eqb c "." || hasDotOrSlash s'
  end.

(** * Properties *)

(** ** The library functions *)

Example Split_two_parts : GoStrings.Split "1 - Intro.mp4" " - " = ["1"; "Intro.mp4"].
Proof. reflexivity. Qed.

Example Split_no_separator : GoStrings.Split "bad_name.mp4" " - " = ["bad_name.mp4"].
Proof. reflexivity. Qed.

Example Split_three_parts : GoStrings.Split "1 - a - b.mp4" " - " = ["1"; "a"; "b.mp4"].
Proof. reflexivity. Qed.

Example Split_path : GoStrings.Split "/update-progress/1 - Intro.mp4/42.5" "/"
  = [""; "update-progress"; "1 - Intro.mp4"; "42.5"].
Proof. reflexivity. Qed.

Example TrimSpace_both : GoStrings.TrimSpace "  12 " = "12".
Proof. reflexivity. Qed.

Example Atoi_plain : GoStrconv.Atoi "12" = (12, true).
Proof. reflexivity. Qed.

Example Atoi_word : GoStrconv.Atoi "bad_name.mp4" = (0, false).
Proof. reflexivity. Qed.

Example Atoi_negative : GoStrconv.Atoi "-7" = (-7, true).
Proof. reflexivity. Qed.

Example Atoi_too_big : GoStrconv.Atoi "99999999999999999999" = (9223372036854775807, false).
Proof. reflexivity. Qed.

Example Ext_upper : GoFilepath.Ext "lib/a.b/1 - Intro.MP4" = ".MP4".
Proof. reflexivity. Qed.

Example Ext_none : GoFilepath.Ext "lib/a.b/README" = "".
Proof. reflexivity. Qed.

Example Base_nested : GoFilepath.Base "lib/season 1/1 - Intro.mp4" = "1 - Intro.mp4".
Proof. reflexivity. Qed.

Example orderKey_numbered : orderKey "10 - J.mp4" = 10.
Proof. reflexivity. Qed.

Example orderKey_unnumbered : orderKey "bonus.mp4" = 0.
Proof. reflexivity. Qed.

Example orderKey_too_big : orderKey "99999999999999999999 - x.mp4" = 9223372036854775807.
Proof. reflexivity. Qed.

(** The other scanner asked for two pieces and a first piece that is not
    blank; it did not ask for a number either. *)
Example Legacy_rejects_unseparated : Legacy.nameAccepted "bad_name.mp4" = false.
Proof. reflexivity. Qed.

Example Legacy_accepts_words : Legacy.nameAccepted "intro - part one.mp4" = true.
Proof. reflexivity. Qed.

Lemma split_from_not_nil sep s : forall skip part, GoStrings.split_from sep s skip part <> [].
Proof.
  induction s as [| c s IH]; intros skip part; cbn [GoStrings.split_from]; [done|].
  destruct skip; [| apply IH].
  destruct (GoStrings.HasPrefix (String c s) sep); [discriminate | apply IH].
Qed.

(** [strings.Split] always has a first piece: [...[0]] cannot fail. *)
Lemma Split_not_nil s sep : GoStrings.Split s sep <> [].
Proof. apply split_from_not_nil. Qed.

(** ** [sort.Slice] rearranges: every step of [GoSort.Slice] is a swap *)

Section GoSortPermutes.
Context {A : Type} (less : A -> A -> bool).
Import GoSort.

Lemma insert_cons_Permutation (l : list A) : forall j x y,
  l !! j = Some y -> y :: <[j := x]> l ≡ₚ x :: l.
Proof.
  induction l as [| a l IH]; intros [| j] x y Hj; simplify_eq/=.
  - apply Permutation_swap.
  - rewrite Permutation_swap. rewrite (IH j x y Hj). apply Permutation_swap.
Qed.

Lemma insert_insert_Permutation (l : list A) : forall i j x y,
  l !! i = Some x -> l !! j = Some y -> <[i := y]> (<[j := x]> l) ≡ₚ l.
Proof.
  induction l as [| a l IH]; intros [| i] [| j] x y Hi Hj; simplify_eq/=.
  - reflexivity.
  - by apply insert_cons_Permutation.
  - by apply insert_cons_Permutation.
  - f_equiv. by apply IH.
Qed.

Lemma Swap_Permutation (data : list A) i j : Swap data i j ≡ₚ data.
Proof.
  unfold Swap, elem.
  destruct (i <? 0); [done|]. destruct (data !! Z.to_nat i) as [x|] eqn:Hi; [| done].
  destruct (j <? 0); [done|]. destruct (data !! Z.to_nat j) as [y|] eqn:Hj; [| done].
  by apply insert_insert_Permutation.
Qed.

Lemma Swap_length (data : list A) i j : length (Swap data i j) = length data.
Proof. apply Permutation_length, Swap_Permutation. Qed.

Lemma insertDown_Permutation fuel : forall data a j, insertDown less fuel data a j ≡ₚ data.
Proof.
  induction fuel as [| fuel IH]; intros; simpl; [done|].
  destruct (_ && _); [| done]. by rewrite IH, Swap_Permutation.
Qed.

Lemma insertionSort_loop_Permutation fuel : forall data a b i,
  insertionSort_loop less fuel data a b i ≡ₚ data.
Proof.
  induction fuel as [| fuel IH]; intros; simpl; [done|].
  destruct (_ <? _); [| done]. by rewrite IH, insertDown_Permutation.
Qed.

Lemma insertionSort_func_Permutation data a b : insertionSort_func less data a b ≡ₚ data.
Proof. apply insertionSort_loop_Permutation. Qed.

Lemma siftDown_loop_Permutation fuel : forall data root hi first,
  siftDown_loop less fuel data root hi first ≡ₚ data.
Proof.
  induction fuel as [| fuel IH]; intros; simpl; [done|].
  destruct (_ <=? _); [done|]. destruct (negb _); [done|].
  by rewrite IH, Swap_Permutation.
Qed.

Lemma siftDown_func_Permutation data lo hi first : siftDown_func less data lo hi first ≡ₚ data.
Proof. apply siftDown_loop_Permutation. Qed.

Lemma heapify_Permutation fuel : forall data i hi first, heapify less fuel data i hi first ≡ₚ data.
Proof.
  induction fuel as [| fuel IH]; intros; simpl; [done|].
  destruct (_ <=? _); [| done]. by rewrite IH, siftDown_func_Permutation.
Qed.

Lemma popAll_Permutation fuel : forall data i lo first, popAll less fuel data i lo first ≡ₚ data.
Proof.
  induction fuel as [| fuel IH]; intros; simpl; [done|].
  destruct (_ <=? _); [| done]. by rewrite IH, siftDown_func_Permutation, Swap_Permutation.
Qed.

Lemma heapSort_func_Permutation data a b : heapSort_func less data a b ≡ₚ data.
Proof. unfold heapSort_func. by rewrite popAll_Permutation, heapify_Permutation. Qed.

Lemma breakPatterns_loop_Permutation fuel : forall (data : list A) a length modulus idx random i,
  breakPatterns_loop fuel data a length modulus idx random i ≡ₚ data.
Proof.
  induction fuel as [| fuel IH]; intros; simpl; [done|].
  by rewrite IH, Swap_Permutation.
Qed.

Lemma breakPatterns_func_Permutation (data : list A) a b : breakPatterns_func data a b ≡ₚ data.
Proof.
  unfold breakPatterns_func. destruct (_ <=? _); [| done]. apply breakPatterns_loop_Permutation.
Qed.

Lemma reverseRange_loop_Permutation fuel : forall (data : list A) i j,
  reverseRange_loop fuel data i j ≡ₚ data.
Proof.
  induction fuel as [| fuel IH]; intros; simpl; [done|].
  destruct (_ <? _); [| done]. by rewrite IH, Swap_Permutation.
Qed.

Lemma reverseRange_func_Permutation (data : list A) a b : reverseRange_func data a b ≡ₚ data.
Proof. apply reverseRange_loop_Permutation. Qed.

Lemma shiftLeft_Permutation fuel : forall data j, shiftLeft less fuel data j ≡ₚ data.
Proof.
  induction fuel as [| fuel IH]; intros; simpl; [done|].
  destruct (_ && _); [| done]. by rewrite IH, Swap_Permutation.
Qed.

Lemma shiftRight_Permutation fuel : forall data b j, shiftRight less fuel data b j ≡ₚ data.
Proof.
  induction fuel as [| fuel IH]; intros; simpl; [done|].
  destruct (_ && _); [| done]. by rewrite IH, Swap_Permutation.
Qed.

Lemma partialInsertionSort_loop_Permutation steps : forall data a b i,
  (partialInsertionSort_loop less steps data a b i).1 ≡ₚ data.
Proof.
  induction steps as [| steps IH]; intros; simpl; [done|].
  destruct (_ =? _); [done|]. destruct (_ <? _); [done|].
  rewrite IH.
  destruct (2 <=? b - _); destruct (2 <=? _ - a);
    rewrite ?shiftRight_Permutation, ?shiftLeft_Permutation, Swap_Permutation; done.
Qed.

Lemma partialInsertionSort_func_Permutation data a b :
  (partialInsertionSort_func less data a b).1 ≡ₚ data.
Proof. apply partialInsertionSort_loop_Permutation. Qed.

Lemma partition_loop_Permutation fuel : forall data a i j,
  (partition_loop less fuel data a i j).1 ≡ₚ data.
Proof.
  induction fuel as [| fuel IH]; intros; simpl; [done|].
  destruct (_ <? _); [done|]. by rewrite IH, Swap_Permutation.
Qed.

Lemma partition_func_Permutation data a b pivot :
  (partition_func less data a b pivot).1.1 ≡ₚ data.
Proof.
  unfold partition_func. destruct (_ <? _); simpl.
  - by rewrite !Swap_Permutation.
  - destruct (partition_loop _ _ _ _ _ _) as [data' j] eqn:Hloop. simpl.
    rewrite Swap_Permutation.
    change data' with (data', j).1. rewrite <- Hloop.
    by rewrite partition_loop_Permutation, !Swap_Permutation.
Qed.

Lemma partitionEqual_loop_Permutation fuel : forall data a i j,
  (partitionEqual_loop less fuel data a i j).1 ≡ₚ data.
Proof.
  induction fuel as [| fuel IH]; intros; simpl; [done|].
  destruct (_ <? _); [done|]. by rewrite IH, Swap_Permutation.
Qed.

Lemma partitionEqual_func_Permutation data a b pivot :
  (partitionEqual_func less data a b pivot).1 ≡ₚ data.
Proof.
  unfold partitionEqual_func. by rewrite partitionEqual_loop_Permutation, Swap_Permutation.
Qed.

Lemma pdqsort_func_Permutation fuel : forall data a b limit wasBalanced wasPartitioned,
  pdqsort_func less fuel data a b limit wasBalanced wasPartitioned ≡ₚ data.
Proof.
  induction fuel as [| fuel IH]; intros; simpl; [done|].
  destruct (_ <=? maxInsertion); [apply insertionSort_func_Permutation|].
  destruct (limit =? 0); [apply heapSort_func_Permutation|].
  set (d1 := if negb wasBalanced then _ else _).
  assert (d1.1 ≡ₚ data) as Hd1.
  { subst d1. destruct (negb wasBalanced); simpl; [apply breakPatterns_func_Permutation | done]. }
  destruct d1 as [data1 limit1]. simpl in Hd1.
  destruct (choosePivot_func less data1 a b) as [pivot hint].
  set (d2 := match hint with decreasingHint => _ | _ => _ end).
  assert (d2.1.1 ≡ₚ data) as Hd2.
  { subst d2. destruct hint; simpl; rewrite ?reverseRange_func_Permutation; done. }
  destruct d2 as [[data2 pivot2] hint2]. simpl in Hd2.
  set (d3 := match hint2 with increasingHint => _ | _ => _ end).
  assert (d3.1 ≡ₚ data) as Hd3.
  { subst d3. destruct hint2; simpl; try done.
    destruct (_ && _); simpl; rewrite ?partialInsertionSort_func_Permutation; done. }
  destruct d3 as [data3 sorted]. simpl in Hd3.
  destruct sorted; [done|].
  destruct (_ && _).
  - pose proof (partitionEqual_func_Permutation data3 a b pivot2) as Hpe.
    destruct (partitionEqual_func _ _ _ _ _) as [data4 mid]. simpl in Hpe.
    by rewrite IH, Hpe.
  - pose proof (partition_func_Permutation data3 a b pivot2) as Hpa.
    destruct (partition_func _ _ _ _ _) as [[data4 mid] already]. simpl in Hpa.
    destruct (_ <? _); by rewrite !IH, Hpa.
Qed.

Lemma Slice_Permutation data : Slice less data ≡ₚ data.
Proof. apply pdqsort_func_Permutation. Qed.
End GoSortPermutes.

(** ** Up to twelve elements [sort.Slice] is an insertion sort, and stable *)

Section GoSortSmall.
Context {A : Type} (key : A -> Z).
Import GoSort.

Lemma elem_middle (p r : list A) (x : A) (i : Z) :
  i = Z.of_nat (length p) -> elem (p ++ x :: r) i = Some x.
Proof.
  intros ->. unfold elem.
  destruct (Z.ltb_spec (Z.of_nat (length p)) 0) as [Hneg | _]; [lia|].
  by rewrite Nat2Z.id, list_lookup_middle.
Qed.

Lemma Swap_adjacent (p r : list A) (x y : A) (j : Z) :
  j = Z.of_nat (length p) + 1 ->
  Swap (p ++ y :: x :: r) j (j - 1) = (p ++ x :: y :: r)%list.
Proof.
  intros ->. unfold Swap.
  rewrite (elem_middle p (x :: r) y (Z.of_nat (length p) + 1 - 1)) by lia.
  replace (elem (p ++ y :: x :: r) (Z.of_nat (length p) + 1)) with (Some x).
  2: { replace (p ++ y :: x :: r)%list with ((p ++ [y]) ++ x :: r)%list
         by (by rewrite <- app_assoc).
       symmetry. apply elem_middle. rewrite length_app. simpl. lia. }
  replace (Z.to_nat (Z.of_nat (length p) + 1 - 1)) with (length p + 0)%nat by lia.
  replace (Z.to_nat (Z.of_nat (length p) + 1)) with (length p + 1)%nat by lia.
  rewrite insert_app_r. simpl. rewrite insert_app_r. reflexivity.
Qed.

Lemma Less_adjacent (p r : list A) (x y : A) (j : Z) :
  j = Z.of_nat (length p) + 1 ->
  Less (lessByKey key) (p ++ y :: x :: r) j (j - 1) = lessByKey key x y.
Proof.
  intros ->. unfold Less.
  rewrite (elem_middle p (x :: r) y (Z.of_nat (length p) + 1 - 1)) by lia.
  replace (elem (p ++ y :: x :: r) (Z.of_nat (length p) + 1)) with (Some x); [done|].
  replace (p ++ y :: x :: r)%list with ((p ++ [y]) ++ x :: r)%list
    by (by rewrite <- app_assoc).
  symmetry. apply elem_middle. rewrite length_app. simpl. lia.
Qed.

(** The inner loop of [insertionSort_func] moves the element at [j] to the
    left as [insertLeft] does. *)
Lemma insertDown_insertLeft fuel : forall (p moved rest : list A) (x : A),
  (length p <= fuel)%nat ->
  insertDown (lessByKey key) fuel (p ++ x :: moved ++ rest) 0 (Z.of_nat (length p))
  = (insertLeft key x (reverse p) moved ++ rest)%list.
Proof.
  induction fuel as [| fuel IH]; intros p moved rest x Hfuel.
  - destruct p; [| simpl in Hfuel; lia]. reflexivity.
  - destruct p as [| y0 p0] using rev_ind; [reflexivity|]. clear IHp0.
    rewrite reverse_app. simpl. rewrite length_app in *. simpl in *.
    rewrite <- !app_assoc. simpl.
    replace (0 <? Z.of_nat (length p0 + 1)) with true by (symmetry; apply Z.ltb_lt; lia).
    rewrite (Less_adjacent p0 (moved ++ rest) x y0) by lia. simpl.
    destruct (lessByKey key x y0) eqn:Hxy.
    + rewrite (Swap_adjacent p0 (moved ++ rest) x y0) by lia.
      replace (Z.of_nat (length p0 + 1) - 1) with (Z.of_nat (length p0)) by lia.
      apply (IH p0 (y0 :: moved) rest x). lia.
    + rewrite reverse_cons, reverse_involutive, <- !app_assoc. reflexivity.
Qed.

Lemma insertLeft_length x : forall rp moved,
  length (insertLeft key x rp moved) = S (length rp + length moved).
Proof.
  induction rp as [| y rp IH]; intros moved; simpl; [done|].
  destruct (lessByKey key x y).
  - rewrite IH. simpl. lia.
  - rewrite length_app, length_reverse. simpl. lia.
Qed.

Lemma insertionSort_loop_insertionSorted fuel : forall (p rest : list A),
  (length rest <= fuel)%nat ->
  insertionSort_loop (lessByKey key) fuel (p ++ rest) 0 (Z.of_nat (length (p ++ rest)))
    (Z.of_nat (length p))
  = foldl (fun p x => insertLeft key x (reverse p) []) p rest.
Proof.
  induction fuel as [| fuel IH]; intros p rest Hfuel.
  - destruct rest; [| simpl in Hfuel; lia]. simpl. by rewrite app_nil_r.
  - simpl. destruct rest as [| x rest].
    + rewrite app_nil_r. simpl. by rewrite Z.ltb_irrefl.
    + replace (Z.of_nat (length p) <? Z.of_nat (length (p ++ x :: rest))) with true
        by (symmetry; apply Z.ltb_lt; rewrite length_app; simpl; lia).
      replace (Z.to_nat (Z.of_nat (length p) - 0)) with (length p) by lia.
      pose proof (insertDown_insertLeft (length p) p [] rest x (le_n _)) as Hdown.
      simpl in Hdown. rewrite Hdown. clear Hdown.
      set (p' := insertLeft key x (reverse p) []).
      assert (length p' = S (length p)) as Hp'.
      { subst p'. rewrite insertLeft_length, length_reverse. simpl. lia. }
      replace (Z.of_nat (length (p ++ x :: rest))) with (Z.of_nat (length (p' ++ rest)))
        by (rewrite !length_app, Hp'; simpl; lia).
      replace (Z.of_nat (length p) + 1) with (Z.of_nat (length p')) by lia.
      rewrite IH by (simpl in Hfuel; lia). reflexivity.
Qed.

Lemma insertionSort_func_insertionSorted (data : list A) :
  insertionSort_func (lessByKey key) data 0 (Z.of_nat (length data)) = insertionSorted key data.
Proof.
  unfold insertionSort_func, insertionSorted. destruct data as [| x data]; [reflexivity|].
  change (x :: data) with ([x] ++ data)%list.
  replace (0 + 1) with (Z.of_nat (length [x])) by reflexivity.
  rewrite (insertionSort_loop_insertionSorted _ [x] data) by (simpl; lia).
  reflexivity.
Qed.

Lemma Slice_small (data : list A) :
  (length data <= 12)%nat -> Slice (lessByKey key) data = insertionSorted key data.
Proof.
  intros Hlen. unfold Slice. cbn [pdqsort_func].
  replace (Z.of_nat (length data) - 0 <=? maxInsertion) with true
    by (symmetry; apply Z.leb_le; unfold maxInsertion; lia).
  apply insertionSort_func_insertionSorted.
Qed.

Lemma insertLeft_split x : forall rp moved,
  exists p1 p2,
    reverse rp = (p1 ++ p2)%list
    /\ insertLeft key x rp moved = (p1 ++ x :: p2 ++ moved)%list
    /\ Forall (fun y => key x < key y) p2
    /\ (forall y, last p1 = Some y -> key y <= key x).
Proof.
  induction rp as [| y rp IH]; intros moved.
  - exists [], []. repeat split; [constructor | done].
  - simpl. destruct (lessByKey key x y) eqn:Hxy.
    + destruct (IH (y :: moved)) as (p1 & p2 & Hrev & Hins & Hp2 & Hp1).
      exists p1, (p2 ++ [y])%list. rewrite reverse_cons, Hrev, Hins, <- !app_assoc.
      repeat split; [| done].
      apply Forall_app. split; [done|]. constructor; [| constructor].
      by apply Z.ltb_lt.
    + exists (reverse (y :: rp)), []. rewrite app_nil_r. repeat split; [constructor|].
      intros y' Hy'. rewrite reverse_cons, last_snoc in Hy'. injection Hy' as <-.
      by apply Z.ltb_ge.
Qed.

Lemma insertLeft_sorted x p :
  StronglySorted (fun a b => key a <= key b) p ->
  StronglySorted (fun a b => key a <= key b) (insertLeft key x (reverse p) []).
Proof.
  intros Hp. destruct (insertLeft_split x (reverse p) []) as (p1 & p2 & Hrev & -> & Hp2 & Hp1).
  rewrite reverse_involutive in Hrev. subst p. rewrite app_nil_r.
  apply StronglySorted_app in Hp as (Hcross & Hs1 & Hs2).
  assert (forall x1, x1 ∈ p1 -> key x1 <= key x) as Hle.
  { intros x1 Hx1. destruct p1 as [| y p1' _] using rev_ind; [by apply elem_of_nil in Hx1|].
    specialize (Hp1 y (last_snoc _ _)).
    apply elem_of_app in Hx1 as [Hx1 | Hx1%list_elem_of_singleton]; [| by subst].
    apply StronglySorted_app in Hs1 as (Hc & _ & _).
    specialize (Hc x1 y Hx1). etrans; [apply Hc; set_solver | done]. }
  apply StronglySorted_app_2; [| done |].
  - intros x1 x2 Hx1 [-> | Hx2]%elem_of_cons; [by apply Hle|].
    rewrite Forall_forall in Hp2. specialize (Hp2 x2 Hx2). specialize (Hle x1 Hx1). lia.
  - constructor; [done|]. eapply Forall_impl; [apply Hp2|]. simpl. intros. lia.
Qed.

Lemma filter_none (P : A -> Prop) `{forall y, Decision (P y)} (l : list A) :
  Forall (fun y => ~ P y) l -> filter P l = [].
Proof.
  induction 1 as [| y l Hy _ IH]; [done|]. by rewrite filter_cons_False.
Qed.

Lemma insertLeft_stable x p k :
  filter (fun y => key y = k) (insertLeft key x (reverse p) [])
  = filter (fun y => key y = k) (p ++ [x])%list.
Proof.
  destruct (insertLeft_split x (reverse p) []) as (p1 & p2 & Hrev & -> & Hp2 & _).
  rewrite reverse_involutive in Hrev. subst p. rewrite app_nil_r.
  rewrite !filter_app, !filter_cons, filter_nil. case_decide as Hk; [| by rewrite app_nil_r].
  assert (filter (fun y => key y = k) p2 = []) as ->; [| by rewrite app_nil_r].
  apply filter_none. eapply Forall_impl; [apply Hp2|]. simpl. intros y Hy. lia.
Qed.

(** The insertion sort sorts, and keeps elements of one key in order. *)
Lemma insertionSorted_spec (l : list A) :
  StronglySorted (fun a b => key a <= key b) (insertionSorted key l)
  /\ stable_wrt key l (insertionSorted key l).
Proof.
  unfold insertionSorted, stable_wrt.
  induction l as [| x l [IHs IHf]] using rev_ind; [by split; [constructor|]|].
  rewrite foldl_snoc. split.
  - by apply insertLeft_sorted.
  - intros k. rewrite insertLeft_stable, !filter_app, IHf. reflexivity.
Qed.

(** [sort.Slice] on at most twelve elements, with a comparison of keys. *)
Lemma Slice_small_sorted_stable (data : list A) :
  (length data <= 12)%nat ->
  StronglySorted (fun a b => key a <= key b) (Slice (lessByKey key) data)
  /\ stable_wrt key data (Slice (lessByKey key) data).
Proof. intros Hlen. rewrite Slice_small by done. apply insertionSorted_spec. Qed.

End GoSortSmall.

(** ** [sort.Slice] sorts

    The model of [pdqsort_func] leaves the slice in order whenever [less]
    is a strict weak order: by insertion on short ranges, by the heap when
    the partitions went wrong too often, by partition around a pivot
    otherwise. *)

(** *** Reading and exchanging by index *)

Section GoSortSorts.
Context {A : Type} (less : A -> A -> bool).
Hypothesis Hswo : strict_weak_order less.
Import GoSort.

Local Abbreviation ordered x y := (less y x = false).

Lemma swo_refl x : ordered x x.
Proof. apply Hswo. Qed.

Lemma swo_trans x y z : ordered x y -> ordered y z -> ordered x z.
Proof. intros Hxy Hyz. destruct Hswo as (_ & _ & Hneg). by apply (Hneg z y x). Qed.

Lemma swo_less_le x y : less x y = true -> ordered x y.
Proof.
  intros Hxy. destruct Hswo as (Hirr & Htrans & _).
  destruct (less y x) eqn:Hyx; [| done].
  pose proof (Hirr x) as Hx. by rewrite (Htrans x y x Hxy Hyx) in Hx.
Qed.

Lemma swo_less_trans_le x y p : less x p = true -> ordered p y -> ordered x y.
Proof.
  intros Hxp Hpy. destruct Hswo as (_ & Htrans & _).
  destruct (less y x) eqn:Hyx; [| done].
  by rewrite (Htrans y x p Hyx Hxp) in Hpy.
Qed.

Local Abbreviation len d := (Z.of_nat (length d)).

Lemma elem_Some (d : list A) i x : elem d i = Some x -> 0 <= i < len d.
Proof.
  unfold elem. destruct (Z.ltb_spec i 0); [done|]. intros Hx%lookup_lt_Some. lia.
Qed.

Lemma elem_in_range (d : list A) i : 0 <= i < len d -> exists x, elem d i = Some x.
Proof.
  intros Hi. unfold elem. destruct (Z.ltb_spec i 0); [lia|].
  apply lookup_lt_is_Some. lia.
Qed.

Lemma elem_out (d : list A) i : ~ (0 <= i < len d) -> elem d i = None.
Proof.
  intros Hi. destruct (elem d i) eqn:He; [| done]. apply elem_Some in He. lia.
Qed.

Lemma Swap_out (d : list A) i j :
  ~ (0 <= i < len d) \/ ~ (0 <= j < len d) -> Swap d i j = d.
Proof.
  intros [Hi | Hj]; unfold Swap.
  - by rewrite (elem_out d i Hi).
  - rewrite (elem_out d j Hj). by destruct (elem d i).
Qed.

Lemma Swap_len (d : list A) i j : len (Swap d i j) = len d.
Proof.
  unfold Swap. destruct (elem d i), (elem d j); try done. by rewrite !length_insert.
Qed.

Lemma elem_Swap (d : list A) i j k :
  0 <= i < len d -> 0 <= j < len d ->
  elem (Swap d i j) k
  = if k =? i then elem d j else if k =? j then elem d i else elem d k.
Proof.
  intros Hi Hj. unfold Swap.
  destruct (elem_in_range d i Hi) as [x Hx]. destruct (elem_in_range d j Hj) as [y Hy].
  rewrite Hx, Hy. unfold elem in *.
  destruct (Z.ltb_spec i 0), (Z.ltb_spec j 0); try lia.
  destruct (Z.ltb_spec k 0).
  - destruct (Z.eqb_spec k i); [lia|]. destruct (Z.eqb_spec k j); [lia|]. done.
  - destruct (Z.eqb_spec k i) as [-> | Hki].
    + rewrite list_lookup_insert_eq; [done|]. rewrite length_insert. lia.
    + rewrite list_lookup_insert_ne by lia.
      destruct (Z.eqb_spec k j) as [-> | Hkj].
      * rewrite list_lookup_insert_eq; [done | lia].
      * by rewrite list_lookup_insert_ne by lia.
Qed.

Lemma Less_elem (d : list A) i j x y :
  elem d i = Some x -> elem d j = Some y -> Less less d i j = less x y.
Proof. intros Hx Hy. unfold Less. by rewrite Hx, Hy. Qed.

Lemma Frame_refl a b (d : list A) : Frame a b d d.
Proof. split; [done|]. split; [done|]. intros k Hk. eauto. Qed.

Lemma Frame_trans a b (d1 d2 d3 : list A) : Frame a b d1 d2 -> Frame a b d2 d3 -> Frame a b d1 d3.
Proof.
  intros (Hl1 & Ho1 & Hi1) (Hl2 & Ho2 & Hi2). split; [lia|]. split.
  - intros k Hk. by rewrite Ho2, Ho1.
  - intros k Hk. destruct (Hi2 k Hk) as (k' & Hk' & ->). destruct (Hi1 k' Hk') as (k'' & ? & ->).
    eauto.
Qed.

Lemma Frame_weaken a b a' b' (d d' : list A) :
  a' <= a -> b <= b' -> Frame a b d d' -> Frame a' b' d d'.
Proof.
  intros Ha Hb (Hl & Ho & Hi). split; [done|]. split.
  - intros k Hk. apply Ho. lia.
  - intros k Hk. destruct (decide (a <= k < b)) as [Hin | Hout].
    + destruct (Hi k Hin) as (k' & Hk' & ->). exists k'. split; [lia | done].
    + rewrite (Ho k Hout). exists k. done.
Qed.

Lemma Frame_Swap a b (d : list A) i j :
  a <= i < b -> a <= j < b -> Frame a b d (Swap d i j).
Proof.
  intros Hi Hj.
  destruct (decide (0 <= i < len d /\ 0 <= j < len d)) as [[Hi' Hj'] | Hout].
  - split; [apply Swap_len|]. split.
    + intros k Hk. rewrite elem_Swap by done.
      destruct (Z.eqb_spec k i); [lia|]. destruct (Z.eqb_spec k j); [lia|]. done.
    + intros k Hk. rewrite elem_Swap by done.
      destruct (Z.eqb_spec k i); [by eauto|]. destruct (Z.eqb_spec k j); by eauto.
  - rewrite Swap_out by lia. apply Frame_refl.
Qed.

Lemma Frame_AllIn a b (d d' : list A) P : Frame a b d d' -> AllIn a b d P -> AllIn a b d' P.
Proof.
  intros (_ & _ & Hi) Hall k x Hk Hx. destruct (Hi k Hk) as (k' & Hk' & He).
  rewrite He in Hx. by apply (Hall k' x).
Qed.

Lemma Frame_AllIn_sub a b a' b' (d d' : list A) P :
  a <= a' -> b' <= b -> Frame a' b' d d' -> AllIn a b d P -> AllIn a b d' P.
Proof. intros Ha Hb Hf. apply Frame_AllIn. by apply (Frame_weaken a' b'). Qed.

End GoSortSorts.

(** Reads an exchanged slice index by index. *)
Ltac swap_cases :=
  repeat match goal with
  | H : context [GoSort.elem (GoSort.Swap _ _ _) _] |- _ => rewrite elem_Swap in H by lia
  | |- context [GoSort.elem (GoSort.Swap _ _ _) _] => rewrite elem_Swap by lia
  | H : context [if ?k =? ?i then _ else _] |- _ => destruct (Z.eqb_spec k i)
  | |- context [if ?k =? ?i then _ else _] => destruct (Z.eqb_spec k i)
  end.

(** Closes a goal on indices, or on the order of two elements from a
    hypothesis on the range they lie in. *)
Ltac ord :=
  first
  [ lia
  | done
  | apply swo_refl; done
  | apply swo_less_le; done
  | match goal with
    | H : _ |- _ = false =>
        eapply H; try match goal with |- GoSort.elem _ _ = Some _ => eassumption end; lia
    end ].

(** *** [insertionSort_func] *)

Section GoSortInsertion.
Context {A : Type} (less : A -> A -> bool).
Hypothesis Hswo : strict_weak_order less.
Import GoSort.
Local Abbreviation ordered x y := (less y x = false).
Local Abbreviation len d := (Z.of_nat (length d)).

Lemma insertDown_sorts fuel : forall (d : list A) a j i,
  0 <= a <= j -> j <= i -> i < len d -> (Z.to_nat (j - a) <= fuel)%nat ->
  SortedIn less a j d -> SortedIn less j (i + 1) d ->
  (forall u v x y, a <= u < j -> j < v <= i ->
     elem d u = Some x -> elem d v = Some y -> ordered x y) ->
  Frame a (i + 1) d (insertDown less fuel d a j)
  /\ SortedIn less a (i + 1) (insertDown less fuel d a j).
Proof.
  induction fuel as [| fuel IH]; intros d a j i Ha Hj Hi Hfuel Hlo Hhi Hcross.
  - simpl. split; [apply Frame_refl|]. assert (j = a) as -> by lia. done.
  - simpl. destruct (Z.ltb_spec a j) as [Haj | Haj]; simpl.
    + destruct (elem_in_range d j ltac:(lia)) as [x Hx].
      destruct (elem_in_range d (j - 1) ltac:(lia)) as [y Hy].
      rewrite (Less_elem less d j (j - 1) x y Hx Hy).
      destruct (less x y) eqn:Hxy.
      * destruct (IH (Swap d j (j - 1)) a (j - 1) i) as [Hf Hs]; try lia.
        { rewrite Swap_len. lia. }
        { intros u v xu xv Hu Huv Hv Hxu Hxv. swap_cases; simplify_eq; ord. }
        { intros u v xu xv Hu Huv Hv Hxu Hxv. swap_cases; simplify_eq; ord. }
        { intros u v xu xv Hu Hv Hxu Hxv. swap_cases; simplify_eq; ord. }
        split; [| done].
        eapply Frame_trans; [| apply Hf]. apply Frame_Swap; lia.
      * split; [apply Frame_refl|].
        intros u v xu xv Hu Huv Hv Hxu Hxv.
        destruct (decide (v < j)); [ord|].
        destruct (decide (j <= u)); [ord|].
        destruct (decide (v = j)) as [-> | Hvj]; [| ord].
        simplify_eq. eapply (swo_trans less Hswo _ y); ord.
    + split; [apply Frame_refl|]. assert (j = a) as -> by lia. done.
Qed.

Lemma SortedIn_one a (d : list A) : SortedIn less a (a + 1) d.
Proof.
  intros u v x y Hu Huv Hv Hx Hy. assert (u = v) as -> by lia. simplify_eq.
  by apply swo_refl.
Qed.

Lemma SortedIn_empty a b (d : list A) : b <= a -> SortedIn less a b d.
Proof. intros Hab u v x y Hu Huv Hv. lia. Qed.

Lemma Frame_SortedIn_outside a b a' b' (d d' : list A) :
  Frame a' b' d d' -> (b <= a' \/ b' <= a) -> SortedIn less a b d -> SortedIn less a b d'.
Proof.
  intros (_ & Ho & _) Hdis Hs u v x y Hu Huv Hv Hx Hy.
  rewrite Ho in Hx, Hy by lia. by apply (Hs u v x y).
Qed.

Lemma insertionSort_loop_sorts fuel : forall (d : list A) a b i,
  0 <= a -> a < i -> i <= b -> b <= len d -> (Z.to_nat (b - i) <= fuel)%nat ->
  SortedIn less a i d ->
  Frame a b d (insertionSort_loop less fuel d a b i)
  /\ SortedIn less a b (insertionSort_loop less fuel d a b i).
Proof.
  induction fuel as [| fuel IH]; intros d a b i Ha Hai Hib Hb Hfuel Hs.
  - simpl. split; [apply Frame_refl|]. assert (i = b) as -> by lia. done.
  - simpl. destruct (Z.ltb_spec i b) as [Hlt | Hge].
    + destruct (insertDown_sorts (Z.to_nat (i - a)) d a i i) as [Hf1 Hs1]; try lia; try done.
      { apply SortedIn_one. }
      destruct (IH (insertDown less (Z.to_nat (i - a)) d a i) a b (i + 1)) as [Hf2 Hs2];
        try lia; try done.
      { destruct Hf1 as (-> & _). lia. }
      split; [| done]. eapply Frame_trans; [| apply Hf2].
      apply (Frame_weaken a (i + 1)); [lia | lia | done].
    + split; [apply Frame_refl|]. assert (i = b) as -> by lia. done.
Qed.

Lemma insertionSort_func_sorts (d : list A) a b :
  0 <= a <= b -> b <= len d ->
  Frame a b d (insertionSort_func less d a b)
  /\ SortedIn less a b (insertionSort_func less d a b).
Proof.
  intros Ha Hb. unfold insertionSort_func.
  destruct (decide (a = b)) as [-> | Hne].
  - replace (Z.to_nat (b - b)) with 0%nat by lia. simpl.
    split; [apply Frame_refl | by apply SortedIn_empty].
  - apply insertionSort_loop_sorts; try lia. apply SortedIn_one.
Qed.

End GoSortInsertion.

(** *** [partition_func] *)

Section GoSortPartition.
Context {A : Type} (less : A -> A -> bool).
Hypothesis Hswo : strict_weak_order less.
Import GoSort.
Local Abbreviation ordered x y := (less y x = false).
Local Abbreviation len d := (Z.of_nat (length d)).

Lemma AllIn_empty a b (d : list A) P : b <= a -> AllIn a b d P.
Proof. intros Hab k x Hk. lia. Qed.

Lemma AllIn_snoc a b (d : list A) (P : A -> Prop) x :
  AllIn a b d P -> elem d b = Some x -> P x -> AllIn a (b + 1) d P.
Proof.
  intros Hall Hx HP k y Hk Hy. destruct (decide (k = b)) as [-> | Hne].
  - by simplify_eq.
  - apply (Hall k y); [lia | done].
Qed.

Lemma AllIn_cons a b (d : list A) (P : A -> Prop) x :
  AllIn (a + 1) b d P -> elem d a = Some x -> P x -> AllIn a b d P.
Proof.
  intros Hall Hx HP k y Hk Hy. destruct (decide (k = a)) as [-> | Hne].
  - by simplify_eq.
  - apply (Hall k y); [lia | done].
Qed.

Lemma AllIn_sub a b a' b' (d : list A) P :
  a <= a' -> b' <= b -> AllIn a b d P -> AllIn a' b' d P.
Proof. intros Ha Hb Hall k x Hk. apply Hall. lia. Qed.

Lemma scanUp_spec fuel : forall (d : list A) a lo i j p,
  elem d a = Some p -> (Z.to_nat (j - i + 1) <= fuel)%nat ->
  0 <= i -> j < len d -> i <= j + 1 ->
  AllIn lo i d (fun x => less x p = true) ->
  i <= scanUp less fuel d a i j <= j + 1
  /\ AllIn lo (scanUp less fuel d a i j) d (fun x => less x p = true)
  /\ (scanUp less fuel d a i j <= j ->
      exists x, elem d (scanUp less fuel d a i j) = Some x /\ less x p = false).
Proof.
  induction fuel as [| fuel IH]; intros d a lo i j p Hp Hfuel Hi Hj Hij Hall; simpl.
  - split; [lia|]. split; [done|]. intros; lia.
  - destruct (Z.leb_spec i j) as [Hle | Hgt]; simpl.
    + destruct (elem_in_range d i ltac:(lia)) as [x Hx].
      rewrite (Less_elem less d i a x p Hx Hp).
      destruct (less x p) eqn:Hxp.
      * destruct (IH d a lo (i + 1) j p) as (Hr & Hall' & Hstop); try done; try lia.
        { by apply (AllIn_snoc _ _ _ _ x). }
        split; [lia | done].
      * split; [lia|]. split; [done|]. eauto.
    + split; [lia|]. split; [done|]. intros; lia.
Qed.

Lemma scanDown_spec fuel : forall (d : list A) a hi i j p,
  elem d a = Some p -> (Z.to_nat (j - i + 1) <= fuel)%nat ->
  0 <= i -> j < len d -> i <= j + 1 ->
  AllIn (j + 1) hi d (fun x => less x p = false) ->
  i - 1 <= scanDown less fuel d a i j <= j
  /\ AllIn (scanDown less fuel d a i j + 1) hi d (fun x => less x p = false)
  /\ (i <= scanDown less fuel d a i j ->
      exists x, elem d (scanDown less fuel d a i j) = Some x /\ less x p = true).
Proof.
  induction fuel as [| fuel IH]; intros d a hi i j p Hp Hfuel Hi Hj Hij Hall; simpl.
  - split; [lia|]. split; [done|]. intros; lia.
  - destruct (Z.leb_spec i j) as [Hle | Hgt]; simpl.
    + destruct (elem_in_range d j ltac:(lia)) as [x Hx].
      rewrite (Less_elem less d j a x p Hx Hp).
      destruct (less x p) eqn:Hxp; simpl.
      * split; [lia|]. split; [done|]. eauto.
      * destruct (IH d a hi i (j - 1) p) as (Hr & Hall' & Hstop); try done; try lia.
        { replace (j - 1 + 1) with j by lia. by apply (AllIn_cons _ _ _ _ x). }
        split; [lia | done].
    + split; [lia|]. split; [done|]. intros; lia.
Qed.

Lemma Parting_finish a b j p (d : list A) :
  0 <= a -> a <= j < b -> b <= len d ->
  Parting less a b (j + 1) j p d ->
  Frame a b d (Swap d j a) /\ Partitioned less a b j p (Swap d j a).
Proof.
  intros Ha Hj Hb (Hp & Hlo & Hhi). split; [apply Frame_Swap; lia|].
  split; [done|]. split.
  { rewrite elem_Swap by lia. by rewrite Z.eqb_refl. }
  split.
  - intros k x Hk Hx. swap_cases; simplify_eq; try lia.
    + apply (Hlo j x); [lia | done].
    + apply (Hlo k x); [lia | done].
  - intros k x Hk Hx. swap_cases; simplify_eq; try lia.
    apply (Hhi k x); [lia | done].
Qed.

Lemma Parting_round fuel0 (d : list A) a b i j p :
  0 <= a -> a + 1 <= i -> i <= j + 1 -> j < b -> b <= len d ->
  (Z.to_nat (j - i + 1) <= fuel0)%nat ->
  Parting less a b i j p d ->
  let i' := scanUp less fuel0 d a i j in
  let j' := scanDown less (Z.to_nat (j - i' + 1)) d a i' j in
  i <= i' /\ j' <= j /\ i' <= j' + 1 /\
  Parting less a b i' j' p d /\
  (i' <= j' -> i' < j' /\ Parting less a b (i' + 1) (j' - 1) p (Swap d i' j')).
Proof.
  intros Ha Hi Hij Hj Hb Hfuel (Hp & Hlo & Hhi) i' j'.
  destruct (scanUp_spec fuel0 d a (a + 1) i j p) as (Hr1 & Hlo' & Hstop1);
    try done; try lia.
  fold i' in Hr1, Hlo', Hstop1.
  destruct (scanDown_spec (Z.to_nat (j - i' + 1)) d a b i' j p) as (Hr2 & Hhi' & Hstop2);
    try done; try lia.
  fold j' in Hr2, Hhi', Hstop2.
  split; [lia|]. split; [lia|]. split; [lia|]. split; [done|].
  intros Hle. destruct (Hstop1 ltac:(lia)) as (x & Hx & Hxp).
  destruct (Hstop2 Hle) as (y & Hy & Hyp).
  assert (i' <> j') as Hne by (intros Heq; rewrite Heq in Hx; simplify_eq; congruence).
  split; [lia|]. split; [| split].
  - rewrite elem_Swap by lia. swap_cases; try lia. done.
  - intros k z Hk Hz. swap_cases; simplify_eq; try lia; try done.
    apply (Hlo' k z); [lia | done].
  - intros k z Hk Hz. swap_cases; simplify_eq; try lia; try done.
    apply (Hhi' k z); [lia | done].
Qed.

Lemma partition_loop_spec fuel : forall (d : list A) a b i j p,
  0 <= a -> a + 1 <= i -> i <= j + 1 -> j < b -> b <= len d ->
  (Z.to_nat (j - i + 2) <= fuel)%nat ->
  Parting less a b i j p d ->
  Frame (a + 1) b d (partition_loop less fuel d a i j).1
  /\ a <= (partition_loop less fuel d a i j).2 < b
  /\ Parting less a b ((partition_loop less fuel d a i j).2 + 1)
       (partition_loop less fuel d a i j).2 p (partition_loop less fuel d a i j).1.
Proof.
  induction fuel as [| fuel IH]; intros d a b i j p Ha Hi Hij Hj Hb Hfuel Hpart.
  - lia.
  - simpl.
    destruct (Parting_round (Z.to_nat (j - i + 1)) d a b i j p) as (Hi' & Hj' & Hij' & Hp' & Hgo);
      try done; try lia.
    set (i' := scanUp less (Z.to_nat (j - i + 1)) d a i j) in *.
    set (j' := scanDown less (Z.to_nat (j - i' + 1)) d a i' j) in *.
    destruct (Z.ltb_spec j' i') as [Hlt | Hge]; simpl.
    + split; [apply Frame_refl|]. split; [lia|].
      assert (i' = j' + 1) as Heq by lia. by rewrite <- Heq.
    + destruct (Hgo Hge) as (Hlt & Hp'').
      destruct (IH (Swap d i' j') a b (i' + 1) (j' - 1) p) as (Hf & Hr & Hfin);
        try done; try lia.
      { rewrite Swap_len. lia. }
      split; [| done]. eapply Frame_trans; [| apply Hf]. apply Frame_Swap; lia.
Qed.

Lemma partition_func_spec (d : list A) a b pivot p :
  0 <= a -> a <= pivot < b -> b <= len d -> elem d pivot = Some p ->
  Frame a b d (partition_func less d a b pivot).1.1
  /\ Partitioned less a b (partition_func less d a b pivot).1.2 p
       (partition_func less d a b pivot).1.1.
Proof.
  intros Ha Hpivot Hb Hp. unfold partition_func.
  assert (Frame a b d (Swap d a pivot)) as Hf0 by (apply Frame_Swap; lia).
  assert (Parting less a b (a + 1) (b - 1) p (Swap d a pivot)) as Hpart.
  { split; [| split].
    - rewrite elem_Swap by lia. by rewrite Z.eqb_refl.
    - apply AllIn_empty. lia.
    - apply AllIn_empty. lia. }
  set (d0 := Swap d a pivot) in *.
  assert (len d0 = len d) as Hlen by apply Swap_len.
  destruct (Parting_round (Z.to_nat (b - 1 - (a + 1) + 1)) d0 a b (a + 1) (b - 1) p)
    as (Hi' & Hj' & Hij' & Hp' & Hgo); try done; try lia.
  set (i' := scanUp less (Z.to_nat (b - 1 - (a + 1) + 1)) d0 a (a + 1) (b - 1)) in *.
  set (j' := scanDown less (Z.to_nat (b - 1 - i' + 1)) d0 a i' (b - 1)) in *.
  destruct (Z.ltb_spec j' i') as [Hlt | Hge]; simpl.
  - assert (i' = j' + 1) as Heq by lia. rewrite Heq in Hp'.
    destruct (Parting_finish a b j' p d0) as (Hf & Hfin); try done; try lia.
    split; [| done]. by eapply Frame_trans.
  - destruct (Hgo Hge) as (Hlt & Hp'').
    destruct (partition_loop_spec (Z.to_nat (b - a)) (Swap d0 i' j') a b (i' + 1) (j' - 1) p)
      as (Hf & Hr & Hfin); try done; try lia.
    { rewrite Swap_len. lia. }
    destruct (partition_loop less (Z.to_nat (b - a)) (Swap d0 i' j') a (i' + 1) (j' - 1))
      as [d2 j2] eqn:Hloop. simpl in *.
    destruct (Parting_finish a b j2 p d2) as (Hf2 & Hfin2); try done; try lia.
    { destruct Hf as (-> & _). rewrite Swap_len. lia. }
    split; [| done].
    eapply Frame_trans; [apply Hf0|]. eapply Frame_trans; [| apply Hf2].
    eapply Frame_trans; [apply (Frame_Swap a b d0 i' j'); lia|].
    apply (Frame_weaken (a + 1) b); [lia | lia | done].
Qed.

End GoSortPartition.

(** *** [partitionEqual_func] *)

Section GoSortPartitionEqual.
Context {A : Type} (less : A -> A -> bool).
Hypothesis Hswo : strict_weak_order less.
Import GoSort.
Local Abbreviation ordered x y := (less y x = false).
Local Abbreviation len d := (Z.of_nat (length d)).

Lemma scanUpEqual_spec fuel : forall (d : list A) a lo i j p,
  elem d a = Some p -> (Z.to_nat (j - i + 1) <= fuel)%nat ->
  0 <= i -> j < len d -> i <= j + 1 ->
  AllIn lo i d (fun x => less p x = false) ->
  i <= scanUpEqual less fuel d a i j <= j + 1
  /\ AllIn lo (scanUpEqual less fuel d a i j) d (fun x => less p x = false)
  /\ (scanUpEqual less fuel d a i j <= j ->
      exists x, elem d (scanUpEqual less fuel d a i j) = Some x /\ less p x = true).
Proof.
  induction fuel as [| fuel IH]; intros d a lo i j p Hp Hfuel Hi Hj Hij Hall; simpl.
  - split; [lia|]. split; [done|]. intros; lia.
  - destruct (Z.leb_spec i j) as [Hle | Hgt]; simpl.
    + destruct (elem_in_range d i ltac:(lia)) as [x Hx].
      rewrite (Less_elem less d a i p x Hp Hx).
      destruct (less p x) eqn:Hxp; simpl.
      * split; [lia|]. split; [done|]. eauto.
      * destruct (IH d a lo (i + 1) j p) as (Hr & Hall' & Hstop); try done; try lia.
        { by apply (AllIn_snoc _ _ _ _ x). }
        split; [lia | done].
    + split; [lia|]. split; [done|]. intros; lia.
Qed.

Lemma scanDownEqual_spec fuel : forall (d : list A) a hi i j p,
  elem d a = Some p -> (Z.to_nat (j - i + 1) <= fuel)%nat ->
  0 <= i -> j < len d -> i <= j + 1 ->
  AllIn (j + 1) hi d (fun x => less p x = true) ->
  i - 1 <= scanDownEqual less fuel d a i j <= j
  /\ AllIn (scanDownEqual less fuel d a i j + 1) hi d (fun x => less p x = true)
  /\ (i <= scanDownEqual less fuel d a i j ->
      exists x, elem d (scanDownEqual less fuel d a i j) = Some x /\ less p x = false).
Proof.
  induction fuel as [| fuel IH]; intros d a hi i j p Hp Hfuel Hi Hj Hij Hall; simpl.
  - split; [lia|]. split; [done|]. intros; lia.
  - destruct (Z.leb_spec i j) as [Hle | Hgt]; simpl.
    + destruct (elem_in_range d j ltac:(lia)) as [x Hx].
      rewrite (Less_elem less d a j p x Hp Hx).
      destruct (less p x) eqn:Hxp; simpl.
      * destruct (IH d a hi i (j - 1) p) as (Hr & Hall' & Hstop); try done; try lia.
        { replace (j - 1 + 1) with j by lia. by apply (AllIn_cons _ _ _ _ x). }
        split; [lia | done].
      * split; [lia|]. split; [done|]. eauto.
    + split; [lia|]. split; [done|]. intros; lia.
Qed.

Lemma partitionEqual_loop_spec fuel : forall (d : list A) a b i j p,
  0 <= a -> a + 1 <= i -> i <= j + 1 -> j < b -> b <= len d ->
  (Z.to_nat (j - i + 2) <= fuel)%nat ->
  PartingEqual less a b i j p d ->
  Frame (a + 1) b d (partitionEqual_loop less fuel d a i j).1
  /\ a + 1 <= (partitionEqual_loop less fuel d a i j).2 <= b
  /\ PartingEqual less a b (partitionEqual_loop less fuel d a i j).2
       ((partitionEqual_loop less fuel d a i j).2 - 1) p
       (partitionEqual_loop less fuel d a i j).1.
Proof.
  induction fuel as [| fuel IH]; intros d a b i j p Ha Hi Hij Hj Hb Hfuel (Hp & Hlo & Hhi).
  - lia.
  - simpl.
    destruct (scanUpEqual_spec (Z.to_nat (j - i + 1)) d a (a + 1) i j p)
      as (Hr1 & Hlo' & Hstop1); try done; try lia.
    set (i' := scanUpEqual less (Z.to_nat (j - i + 1)) d a i j) in *.
    destruct (scanDownEqual_spec (Z.to_nat (j - i' + 1)) d a b i' j p)
      as (Hr2 & Hhi' & Hstop2); try done; try lia.
    set (j' := scanDownEqual less (Z.to_nat (j - i' + 1)) d a i' j) in *.
    destruct (Z.ltb_spec j' i') as [Hlt | Hge]; simpl.
    + split; [apply Frame_refl|]. split; [lia|].
      assert (j' + 1 = i') as Heq by lia. rewrite Heq in Hhi'.
      split; [done|]. split; [done|]. by replace (i' - 1 + 1) with i' by lia.
    + destruct (Hstop1 ltac:(lia)) as (x & Hx & Hxp).
      destruct (Hstop2 Hge) as (y & Hy & Hyp).
      assert (i' <> j') as Hne by (intros Heq; rewrite Heq in Hx; simplify_eq; congruence).
      destruct (IH (Swap d i' j') a b (i' + 1) (j' - 1) p) as (Hf & Hr & Hfin); try lia.
      { rewrite Swap_len. lia. }
      { split; [| split].
        - rewrite elem_Swap by lia. swap_cases; try lia. done.
        - intros k z Hk Hz. swap_cases; simplify_eq; try lia; try done.
          apply (Hlo' k z); [lia | done].
        - intros k z Hk Hz. swap_cases; simplify_eq; try lia; try done.
          apply (Hhi' k z); [lia | done]. }
      split; [| done]. eapply Frame_trans; [| apply Hf]. apply Frame_Swap; lia.
Qed.

Lemma partitionEqual_func_spec (d : list A) a b pivot p :
  0 <= a -> a <= pivot < b -> b <= len d -> elem d pivot = Some p ->
  Frame a b d (partitionEqual_func less d a b pivot).1
  /\ a + 1 <= (partitionEqual_func less d a b pivot).2 <= b
  /\ AllIn a (partitionEqual_func less d a b pivot).2
       (partitionEqual_func less d a b pivot).1 (fun x => less p x = false)
  /\ AllIn (partitionEqual_func less d a b pivot).2 b
       (partitionEqual_func less d a b pivot).1 (fun x => less p x = true).
Proof.
  intros Ha Hpivot Hb Hp. unfold partitionEqual_func.
  destruct (partitionEqual_loop_spec (S (Z.to_nat (b - a))) (Swap d a pivot) a b
              (a + 1) (b - 1) p) as (Hf & Hr & Hp' & Hlo & Hhi); try lia.
  { rewrite Swap_len. lia. }
  { split; [| split].
    - rewrite elem_Swap by lia. by rewrite Z.eqb_refl.
    - apply AllIn_empty. lia.
    - apply AllIn_empty. lia. }
  destruct (partitionEqual_loop less (S (Z.to_nat (b - a))) (Swap d a pivot) a
              (a + 1) (b - 1)) as [d' mid] eqn:Hloop. simpl in *.
  split.
  { eapply Frame_trans; [apply (Frame_Swap a b d a pivot); lia|].
    apply (Frame_weaken (a + 1) b); [lia | lia | done]. }
  split; [lia|]. split.
  - apply (AllIn_cons _ _ _ _ p); [done | done |]. apply Hswo.
  - by replace (mid - 1 + 1) with mid in Hhi by lia.
Qed.

End GoSortPartitionEqual.

(** *** [heapSort_func] *)

Section GoSortHeap.
Context {A : Type} (less : A -> A -> bool).
Hypothesis Hswo : strict_weak_order less.
Import GoSort.
Local Abbreviation ordered x y := (less y x = false).
Local Abbreviation len d := (Z.of_nat (length d)).

Lemma bigger_child (d : list A) root hi first :
  0 <= first -> 0 <= root -> 2 * root + 1 < hi -> first + hi <= len d ->
  let m := if (2 * root + 1 + 1 <? hi)
              && Less less d (first + (2 * root + 1)) (first + (2 * root + 1) + 1)
           then 2 * root + 1 + 1 else 2 * root + 1 in
  (m = 2 * root + 1 \/ m = 2 * root + 2) /\ m < hi
  /\ forall c y ym, (c = 2 * root + 1 \/ c = 2 * root + 2) -> c < hi ->
       elem d (first + c) = Some y -> elem d (first + m) = Some ym -> ordered y ym.
Proof.
  intros Hfirst Hroot Hchild Hlen.
  destruct (Z.ltb_spec (2 * root + 1 + 1) hi) as [Htwo | Hone]; simpl.
  - destruct (elem_in_range d (first + (2 * root + 1)) ltac:(lia)) as [x Hx].
    destruct (elem_in_range d (first + (2 * root + 1) + 1) ltac:(lia)) as [y Hy].
    rewrite (Less_elem less d _ _ x y Hx Hy).
    destruct (less x y) eqn:Hxy.
    + split; [lia|]. split; [lia|]. intros c z zm [-> | ->] Hc Hz Hzm.
      * replace (first + (2 * root + 1 + 1)) with (first + (2 * root + 1) + 1) in Hzm by lia.
        simplify_eq. by apply swo_less_le.
      * replace (first + (2 * root + 2)) with (first + (2 * root + 1) + 1) in Hz by lia.
        replace (first + (2 * root + 1 + 1)) with (first + (2 * root + 1) + 1) in Hzm by lia.
        simplify_eq. by apply swo_refl.
    + split; [lia|]. split; [lia|]. intros c z zm [-> | ->] Hc Hz Hzm.
      * simplify_eq. by apply swo_refl.
      * replace (first + (2 * root + 2)) with (first + (2 * root + 1) + 1) in Hz by lia.
        simplify_eq. done.
  - split; [lia|]. split; [lia|]. intros c z zm [-> | ->] Hc Hz Hzm; [| lia].
    simplify_eq. by apply swo_refl.
Qed.

Lemma siftDown_loop_spec fuel : forall (d : list A) lo root hi first,
  0 <= first -> 0 <= lo <= root -> root < hi -> first + hi <= len d ->
  (Z.to_nat (hi - root) <= fuel)%nat ->
  (forall k c x y, lo <= k -> k <> root -> (c = 2 * k + 1 \/ c = 2 * k + 2) -> c < hi ->
     elem d (first + k) = Some x -> elem d (first + c) = Some y -> ordered y x) ->
  (forall g c x y, lo <= g -> (root = 2 * g + 1 \/ root = 2 * g + 2) ->
     (c = 2 * root + 1 \/ c = 2 * root + 2) -> c < hi ->
     elem d (first + g) = Some x -> elem d (first + c) = Some y -> ordered y x) ->
  Frame (first + root) (first + hi) d (siftDown_loop less fuel d root hi first)
  /\ HeapFrom less lo hi first (siftDown_loop less fuel d root hi first).
Proof.
  induction fuel as [| fuel IH]; intros d lo root hi first Hfirst Hlo Hroot Hlen Hfuel H1 H2.
  - lia.
  - cbn [siftDown_loop].
    destruct (Z.leb_spec hi (2 * root + 1)) as [Hleaf | Hchild].
    { split; [apply Frame_refl|]. intros k c x y Hk Hc Hchi Hx Hy.
      destruct (decide (k = root)) as [-> | Hne]; [lia|]. by apply (H1 k c x y). }
    destruct (bigger_child d root hi first) as (Hm & Hmhi & Hmax); try done; try lia.
    set (m := if (2 * root + 1 + 1 <? hi)
                 && Less less d (first + (2 * root + 1)) (first + (2 * root + 1) + 1)
              then 2 * root + 1 + 1 else 2 * root + 1) in *.
    destruct (elem_in_range d (first + root) ltac:(lia)) as [xr Hxr].
    destruct (elem_in_range d (first + m) ltac:(lia)) as [xm Hxm].
    rewrite (Less_elem less d _ _ xr xm Hxr Hxm).
    destruct (less xr xm) eqn:Hrm; simpl.
    + destruct (IH (Swap d (first + root) (first + m)) lo m hi first) as (Hf & Hheap);
        try done; try lia.
      { rewrite Swap_len. lia. }
      { intros k c x y Hk Hkm Hc Hchi Hx Hy.
        destruct (decide (k = root)) as [-> | Hkr];
          [| destruct (decide (c = root)) as [-> | Hcr]];
          swap_cases; simplify_eq; ord. }
      { intros g c x y Hg Hgm Hc Hchi Hx Hy.
        assert (g = root) as -> by lia.
        swap_cases; simplify_eq; ord. }
      split; [| done].
      eapply Frame_trans; [apply (Frame_Swap _ _ d (first + root) (first + m)); lia|].
      apply (Frame_weaken (first + m) (first + hi)); [lia | lia | done].
    + split; [apply Frame_refl|]. intros k c x y Hk Hc Hchi Hx Hy.
      destruct (decide (k = root)) as [-> | Hne]; [| by apply (H1 k c x y)].
      simplify_eq. eapply (swo_trans less Hswo _ xm); ord.
Qed.

Lemma siftDown_func_spec (d : list A) lo hi first :
  0 <= first -> 0 <= lo < hi -> first + hi <= len d ->
  HeapFrom less (lo + 1) hi first d ->
  Frame (first + lo) (first + hi) d (siftDown_func less d lo hi first)
  /\ HeapFrom less lo hi first (siftDown_func less d lo hi first).
Proof.
  intros Hfirst Hlo Hlen Hheap. unfold siftDown_func.
  apply siftDown_loop_spec; try done; try lia.
  intros k c x y Hk Hne Hc Hchi Hx Hy. apply (Hheap k c x y); try done; lia.
Qed.

Lemma siftDown_func_none (d : list A) lo hi first :
  hi <= 2 * lo + 1 -> siftDown_func less d lo hi first = d.
Proof.
  intros Hhi. unfold siftDown_func. destruct (Z.to_nat hi); [done|].
  cbn [siftDown_loop]. by destruct (Z.leb_spec hi (2 * lo + 1)); [| lia].
Qed.

Lemma heapify_spec fuel : forall (d : list A) i hi first,
  0 <= first -> -1 <= i < hi -> first + hi <= len d ->
  (Z.to_nat (i + 1) <= fuel)%nat ->
  HeapFrom less (i + 1) hi first d ->
  Frame first (first + hi) d (heapify less fuel d i hi first)
  /\ HeapFrom less 0 hi first (heapify less fuel d i hi first).
Proof.
  induction fuel as [| fuel IH]; intros d i hi first Hfirst Hi Hlen Hfuel Hheap.
  - simpl. split; [apply Frame_refl|]. by replace 0 with (i + 1) by lia.
  - cbn [heapify]. destruct (Z.leb_spec 0 i) as [Hge | Hlt].
    + destruct (siftDown_func_spec d i hi first) as (Hf & Hheap'); try done; try lia.
      destruct (IH (siftDown_func less d i hi first) (i - 1) hi first) as (Hf' & Hheap'');
        try done; try lia.
      { destruct Hf as (-> & _). lia. }
      { by replace (i - 1 + 1) with i by lia. }
      split; [| done]. eapply Frame_trans; [| apply Hf'].
      apply (Frame_weaken (first + i) (first + hi)); [lia | lia | done].
    + split; [apply Frame_refl|]. by replace 0 with (i + 1) by lia.
Qed.

Lemma heap_root_max (d : list A) hi first r :
  0 <= first -> first + hi <= len d -> HeapFrom less 0 hi first d ->
  elem d first = Some r ->
  forall n : nat, forall k x, 0 <= k <= Z.of_nat n -> k < hi ->
    elem d (first + k) = Some x -> ordered x r.
Proof.
  intros Hfirst Hlen Hheap Hr n. induction (lt_wf n) as [n _ IH].
  intros k x Hk Hkhi Hx.
  destruct (decide (k = 0)) as [-> | Hpos].
  - replace (first + 0) with first in Hx by lia. simplify_eq. by apply swo_refl.
  - set (g := (k - 1) / 2).
    assert (k = 2 * g + 1 \/ k = 2 * g + 2) as Hkg.
    { unfold g. pose proof (Z.div_mod (k - 1) 2 ltac:(lia)) as Hdm.
      pose proof (Z.mod_pos_bound (k - 1) 2 ltac:(lia)). lia. }
    assert (0 <= g < k) as Hg by lia.
    destruct (elem_in_range d (first + g) ltac:(lia)) as [y Hy].
    apply (swo_trans less Hswo x y r).
    + by apply (Hheap g k y x); try lia.
    + apply (IH (Z.to_nat g) ltac:(lia) g y); try done; lia.
Qed.

Lemma heap_root_top (d : list A) hi first r :
  0 <= first -> first + hi <= len d -> HeapFrom less 0 hi first d ->
  elem d first = Some r ->
  forall u x, first <= u < first + hi -> elem d u = Some x -> ordered x r.
Proof.
  intros Hfirst Hlen Hheap Hr u x Hu Hx.
  replace u with (first + (u - first)) in Hx by lia.
  apply (heap_root_max d hi first r Hfirst Hlen Hheap Hr (Z.to_nat (u - first)) (u - first) x);
    [lia | lia | done].
Qed.

Lemma popAll_spec fuel : forall (d : list A) i hi first,
  0 <= first -> -1 <= i < hi -> first + hi <= len d ->
  (Z.to_nat (i + 1) <= fuel)%nat ->
  HeapFrom less 0 (i + 1) first d ->
  SortedIn less (first + i + 1) (first + hi) d ->
  (forall u v x y, first <= u <= first + i -> first + i < v < first + hi ->
     elem d u = Some x -> elem d v = Some y -> ordered x y) ->
  Frame first (first + hi) d (popAll less fuel d i 0 first)
  /\ SortedIn less first (first + hi) (popAll less fuel d i 0 first).
Proof.
  induction fuel as [| fuel IH]; intros d i hi first Hfirst Hi Hlen Hfuel Hheap Hsorted Hcross.
  - simpl. split; [apply Frame_refl|]. by replace first with (first + i + 1) at 1 by lia.
  - cbn [popAll]. destruct (Z.leb_spec 0 i) as [Hge | Hlt].
    2: { split; [apply Frame_refl|]. by replace first with (first + i + 1) at 1 by lia. }
    destruct (elem_in_range d first ltac:(lia)) as [r Hr].
    pose proof (heap_root_top d (i + 1) first r Hfirst ltac:(lia) Hheap Hr) as Hmax.
    set (d1 := Swap d first (first + i)).
    assert (len d1 = len d) as Hlen1 by apply Swap_len.
    assert (Frame first (first + hi) d d1) as Hf1 by (apply Frame_Swap; lia).
    assert (Frame first (first + i) d1 (siftDown_func less d1 0 i first)
            /\ HeapFrom less 0 i first (siftDown_func less d1 0 i first)) as (Hf2 & Hheap2).
    { destruct (decide (i <= 1)) as [Hsmall | Hbig].
      - rewrite siftDown_func_none by lia. split; [apply Frame_refl|].
        intros k c x y Hk Hc Hchi. lia.
      - destruct (siftDown_func_spec d1 0 i first) as (Hf & Hh); try done; try lia.
        { intros k c x y Hk Hc Hchi Hx Hy. unfold d1 in Hx, Hy.
          swap_cases; simplify_eq; ord. }
        split; [| done]. by replace (first + 0) with first in Hf by lia. }
    set (d2 := siftDown_func less d1 0 i first) in *.
    assert (SortedIn less (first + i) (first + hi) d1) as Hsorted1.
    { intros u v x y Hu Huv Hv Hx Hy. unfold d1 in Hx, Hy.
      swap_cases; simplify_eq; ord. }
    assert (forall u v x y, first <= u < first + i -> first + i <= v < first + hi ->
              elem d1 u = Some x -> elem d1 v = Some y -> ordered x y) as Hcross1.
    { intros u v x y Hu Hv Hx Hy. unfold d1 in Hx, Hy.
      swap_cases; simplify_eq; ord. }
    destruct (IH d2 (i - 1) hi first) as (Hf3 & Hsorted3); try done; try lia.
    { destruct Hf2 as (-> & _). lia. }
    { by replace (i - 1 + 1) with i by lia. }
    { replace (first + (i - 1) + 1) with (first + i) by lia.
      apply (Frame_SortedIn_outside less _ _ first (first + i) d1); [done | lia | done]. }
    { intros u v x y Hu Hv Hx Hy.
      destruct Hf2 as (_ & Ho & Hin).
      rewrite Ho in Hy by lia.
      destruct (Hin u ltac:(lia)) as (u' & Hu' & He). rewrite He in Hx.
      apply (Hcross1 u' v x y); try done; lia. }
    split; [| done].
    eapply Frame_trans; [apply Hf1|]. eapply Frame_trans; [| apply Hf3].
    apply (Frame_weaken first (first + i)); [lia | lia | done].
Qed.

Lemma heapSort_func_spec (d : list A) a b :
  0 <= a < b -> b <= len d ->
  Frame a b d (heapSort_func less d a b)
  /\ SortedIn less a b (heapSort_func less d a b).
Proof.
  intros Ha Hb. unfold heapSort_func.
  assert (0 <= Z.quot (b - a - 1) 2 < b - a) as Hq.
  { rewrite Z.quot_div_nonneg by lia.
    pose proof (Z.div_mod (b - a - 1) 2 ltac:(lia)).
    pose proof (Z.mod_pos_bound (b - a - 1) 2 ltac:(lia)). lia. }
  destruct (heapify_spec (Z.to_nat (b - a)) d (Z.quot (b - a - 1) 2) (b - a) a)
    as (Hf1 & Hheap); try lia.
  { intros k c x y Hk Hc Hchi. rewrite Z.quot_div_nonneg in Hk by lia.
    pose proof (Z.div_mod (b - a - 1) 2 ltac:(lia)).
    pose proof (Z.mod_pos_bound (b - a - 1) 2 ltac:(lia)). lia. }
  set (d1 := heapify less (Z.to_nat (b - a)) d (Z.quot (b - a - 1) 2) (b - a) a) in *.
  destruct (popAll_spec (Z.to_nat (b - a)) d1 (b - a - 1) (b - a) a) as (Hf2 & Hsorted);
    try lia.
  { destruct Hf1 as (-> & _). lia. }
  { by replace (b - a - 1 + 1) with (b - a) by lia. }
  { apply SortedIn_empty. lia. }
  replace (a + (b - a)) with b in * by lia.
  split; [by eapply Frame_trans | done].
Qed.

End GoSortHeap.

(** *** The rounds of [pdqsort_func] before the partition *)

Section GoSortRest.
Context {A : Type} (less : A -> A -> bool).
Hypothesis Hswo : strict_weak_order less.
Import GoSort.
Local Abbreviation ordered x y := (less y x = false).
Local Abbreviation len d := (Z.of_nat (length d)).

Lemma Floor_Frame a b a' b' (d d' : list A) :
  a <= a' -> b' <= b -> Frame a' b' d d' -> Floor less a b d -> Floor less a b d'.
Proof.
  intros Ha Hb Hf Hfloor x Hx.
  assert (elem d (a - 1) = Some x) as Hx'.
  { destruct Hf as (_ & Ho & _). rewrite <- Ho; [done | lia]. }
  apply (Frame_AllIn_sub a b a' b' d d'); try done. by apply Hfloor.
Qed.

(** *** breakPatterns *)

Lemma nextPowerOfTwo_bounds l :
  0 < l -> nextPowerOfTwo l = 2 ^ (Z.log2 l + 1) /\ l < nextPowerOfTwo l <= 2 * l.
Proof.
  intros Hl. unfold nextPowerOfTwo, bits_Len.
  destruct (Z.leb_spec l 0); [lia|].
  rewrite Z.shiftl_1_l. split; [done|].
  pose proof (Z.log2_spec l Hl) as Hlog. pose proof (Z.log2_nonneg l).
  rewrite Z.pow_succ_r in Hlog by done.
  replace (Z.log2 l + 1) with (Z.succ (Z.log2 l)) by lia.
  rewrite Z.pow_succ_r by done. lia.
Qed.

Lemma breakPatterns_loop_Frame fuel : forall (d : list A) a b idx random i,
  0 <= a -> a < b -> a <= idx + i -> idx + i + Z.of_nat fuel <= b ->
  Frame a b d
    (breakPatterns_loop fuel d a (b - a) (nextPowerOfTwo (b - a)) idx random i).
Proof.
  induction fuel as [| fuel IH]; intros d a b idx random i Ha Hab Hlo Hhi.
  - apply Frame_refl.
  - cbn [breakPatterns_loop].
    destruct (nextPowerOfTwo_bounds (b - a) ltac:(lia)) as (Hpow & Hbounds).
    set (r := xorshift_Next random).
    assert (0 <= Z.land r (nextPowerOfTwo (b - a) - 1) < nextPowerOfTwo (b - a)) as Hother.
    { rewrite Hpow. pose proof (Z.log2_nonneg (b - a)).
      replace (2 ^ (Z.log2 (b - a) + 1) - 1) with (Z.ones (Z.log2 (b - a) + 1))
        by (rewrite Z.ones_equiv; lia).
      rewrite Z.land_ones by lia. apply Z.mod_pos_bound. lia. }
    set (other := Z.land r (nextPowerOfTwo (b - a) - 1)) in *.
    eapply Frame_trans; [| apply IH; lia].
    apply Frame_Swap; [lia|].
    destruct (Z.leb_spec (b - a) other); lia.
Qed.

Lemma breakPatterns_func_Frame (d : list A) a b :
  0 <= a -> a < b -> Frame a b d (breakPatterns_func d a b).
Proof.
  intros Ha Hab. unfold breakPatterns_func.
  destruct (Z.leb_spec 8 (b - a)) as [Hbig | Hsmall]; [| apply Frame_refl].
  assert (2 <= Z.quot (b - a) 4 /\ 4 * Z.quot (b - a) 4 <= b - a) as Hq.
  { rewrite Z.quot_div_nonneg by lia.
    pose proof (Z.div_mod (b - a) 4 ltac:(lia)).
    pose proof (Z.mod_pos_bound (b - a) 4 ltac:(lia)). lia. }
  apply breakPatterns_loop_Frame; lia.
Qed.

(** *** reverseRange *)

Lemma reverseRange_loop_Frame fuel : forall (d : list A) a b i j,
  a <= i -> j < b -> Frame a b d (reverseRange_loop fuel d i j).
Proof.
  induction fuel as [| fuel IH]; intros d a b i j Hi Hj; [apply Frame_refl|].
  cbn [reverseRange_loop]. destruct (Z.ltb_spec i j); [| apply Frame_refl].
  eapply Frame_trans; [| apply IH; lia]. apply Frame_Swap; lia.
Qed.

Lemma reverseRange_func_Frame (d : list A) a b : Frame a b d (reverseRange_func d a b).
Proof. apply reverseRange_loop_Frame; lia. Qed.

(** *** choosePivot *)

Lemma median_func_cases (d : list A) x y z s :
  (median_func less d x y z s).1 = x \/ (median_func less d x y z s).1 = y
  \/ (median_func less d x y z s).1 = z.
Proof.
  unfold median_func, order2_func.
  repeat match goal with
         | |- context [if ?c then _ else _] => destruct c
         end; simpl; auto.
Qed.

Lemma choosePivot_func_range (d : list A) a b :
  a < b -> a <= (choosePivot_func less d a b).1 < b.
Proof.
  intros Hab. unfold choosePivot_func.
  assert (0 <= Z.quot (b - a) 4 /\ 4 * Z.quot (b - a) 4 <= b - a < 4 * Z.quot (b - a) 4 + 4)
    as Hq.
  { rewrite Z.quot_div_nonneg by lia.
    pose proof (Z.div_mod (b - a) 4 ltac:(lia)).
    pose proof (Z.mod_pos_bound (b - a) 4 ltac:(lia)). lia. }
  set (q := Z.quot (b - a) 4) in *.
  assert (forall js : Z * Z, a <= js.1 < b ->
            a <= (let '(j, swaps) := js in
                  if swaps =? 0 then (j, increasingHint)
                  else if swaps =? 4 * 3 then (j, decreasingHint)
                  else (j, unknownHint)).1 < b) as Hfin.
  { intros [j s] Hj. simpl in Hj. by repeat case_match. }
  apply Hfin.
  destruct (Z.leb_spec 8 (b - a)) as [Hbig | Hsmall]; [| simpl; lia].
  destruct (Z.leb_spec 50 (b - a)) as [Hnin | Hmed].
  - unfold medianAdjacent_func.
    pose proof (median_func_cases d (a + q * 1 - 1) (a + q * 1) (a + q * 1 + 1) 0) as Hi.
    destruct (median_func less d (a + q * 1 - 1) (a + q * 1) (a + q * 1 + 1) 0) as [i s1].
    pose proof (median_func_cases d (a + q * 2 - 1) (a + q * 2) (a + q * 2 + 1) s1) as Hj.
    destruct (median_func less d (a + q * 2 - 1) (a + q * 2) (a + q * 2 + 1) s1) as [j s2].
    pose proof (median_func_cases d (a + q * 3 - 1) (a + q * 3) (a + q * 3 + 1) s2) as Hk.
    destruct (median_func less d (a + q * 3 - 1) (a + q * 3) (a + q * 3 + 1) s2) as [k s3].
    pose proof (median_func_cases d i j k s3) as Hm. simpl in *. lia.
  - pose proof (median_func_cases d (a + q * 1) (a + q * 2) (a + q * 3) 0) as Hm. lia.
Qed.

(** *** partialInsertionSort *)

Lemma SortedIn_snoc a i (d : list A) x y :
  a < i -> SortedIn less a i d -> elem d (i - 1) = Some x -> elem d i = Some y ->
  ordered x y -> SortedIn less a (i + 1) d.
Proof.
  intros Hai Hs Hx Hy Hxy u v xu xv Hu Huv Hv Hxu Hxv.
  destruct (decide (v < i)); [ord|]. assert (v = i) as -> by lia.
  destruct (decide (u = i)) as [-> | Hne]; simplify_eq; [by apply swo_refl|].
  eapply (swo_trans less Hswo _ x); ord.
Qed.

Lemma skipOrdered_spec fuel : forall (d : list A) a b i,
  0 <= a -> a < i -> i <= b -> b <= len d -> SortedIn less a i d ->
  i <= skipOrdered less fuel d b i <= b
  /\ SortedIn less a (skipOrdered less fuel d b i) d.
Proof.
  induction fuel as [| fuel IH]; intros d a b i Ha Hai Hib Hb Hs; simpl; [split; [lia | done]|].
  destruct (Z.ltb_spec i b) as [Hlt | Hge]; simpl; [| split; [lia | done]].
  destruct (elem_in_range d i ltac:(lia)) as [y Hy].
  destruct (elem_in_range d (i - 1) ltac:(lia)) as [x Hx].
  rewrite (Less_elem less d i (i - 1) y x Hy Hx).
  destruct (less y x) eqn:Hyx; simpl; [split; [lia | done]|].
  destruct (IH d a b (i + 1)) as (Hr & Hs'); try lia.
  { by apply (SortedIn_snoc a i d x y). }
  split; [lia | done].
Qed.

Lemma shiftLeft_insertDown fuel : forall (d : list A) a b j,
  0 <= a -> a <= j < b -> b <= len d -> Floor less a b d ->
  shiftLeft less fuel d j = insertDown less fuel d a j.
Proof.
  induction fuel as [| fuel IH]; intros d a b j Ha Hj Hb Hfloor; [done|].
  cbn [shiftLeft insertDown].
  destruct (Z.ltb_spec a j) as [Hlt | Hge].
  - destruct (Z.leb_spec 1 j); [| lia]. simpl.
    destruct (Less less d j (j - 1)); [| done].
    apply (IH _ a b); try lia.
    + rewrite Swap_len. lia.
    + apply (Floor_Frame a b a b d); [lia | lia | | done]. apply Frame_Swap; lia.
  - assert (j = a) as -> by lia. simpl.
    destruct (Z.leb_spec 1 a) as [Hpos | Hzero]; [| done]. simpl.
    destruct (elem_in_range d a ltac:(lia)) as [y Hy].
    destruct (elem_in_range d (a - 1) ltac:(lia)) as [x Hx].
    rewrite (Less_elem less d a (a - 1) y x Hy Hx).
    by rewrite (Hfloor x Hx a y ltac:(lia) Hy).
Qed.

Lemma shiftRight_Frame fuel : forall (d : list A) b j,
  Frame (j - 1) b d (shiftRight less fuel d b j).
Proof.
  induction fuel as [| fuel IH]; intros d b j; [apply Frame_refl|].
  cbn [shiftRight]. destruct (Z.ltb_spec j b); simpl; [| apply Frame_refl].
  destruct (Less less d j (j - 1)); [| apply Frame_refl].
  eapply Frame_trans; [apply (Frame_Swap _ _ d j (j - 1)); lia|].
  apply (Frame_weaken (j + 1 - 1) b); [lia | lia | apply IH].
Qed.

Lemma partialInsertionSort_loop_spec steps : forall (d : list A) a b i,
  0 <= a -> a < i -> i <= b -> b <= len d -> SortedIn less a i d -> Floor less a b d ->
  Frame a b d (partialInsertionSort_loop less steps d a b i).1
  /\ ((partialInsertionSort_loop less steps d a b i).2 = true ->
      SortedIn less a b (partialInsertionSort_loop less steps d a b i).1).
Proof.
  induction steps as [| steps IH]; intros d a b i Ha Hai Hib Hb Hs Hfloor.
  - simpl. split; [apply Frame_refl | done].
  - cbn [partialInsertionSort_loop].
    destruct (skipOrdered_spec (Z.to_nat (b - i)) d a b i) as (Hr & Hs'); try done.
    set (i' := skipOrdered less (Z.to_nat (b - i)) d b i) in *.
    destruct (Z.eqb_spec i' b) as [Heq | Hne].
    { simpl. split; [apply Frame_refl|]. intros _. by rewrite <- Heq. }
    destruct (Z.ltb_spec (b - a) 50) as [Hshort | Hlong].
    { simpl. split; [apply Frame_refl | done]. }
    set (d1 := Swap d i' (i' - 1)).
    assert (Frame a b d d1) as Hf1 by (apply Frame_Swap; lia).
    assert (len d1 = len d) as Hlen1 by apply Swap_len.
    assert (Floor less a b d1) as Hfloor1 by (by apply (Floor_Frame a b a b d)).
    assert (SortedIn less a (i' - 1) d1) as Hs1.
    { apply (Frame_SortedIn_outside less _ _ (i' - 1) (i' + 1) d); [| lia |].
      - apply Frame_Swap; lia.
      - intros u v x y Hu Huv Hv. apply Hs'; lia. }
    set (d2 := if 2 <=? i' - a then shiftLeft less (Z.to_nat i') d1 (i' - 1) else d1).
    assert (Frame a i' d1 d2 /\ SortedIn less a i' d2) as (Hf2 & Hs2).
    { unfold d2. destruct (Z.leb_spec 2 (i' - a)) as [Htwo | Hone].
      - rewrite (shiftLeft_insertDown _ d1 a b) by (done || lia).
        destruct (insertDown_sorts less Hswo (Z.to_nat i') d1 a (i' - 1) (i' - 1))
          as (Hf & Hsd); try done; try lia.
        { by apply SortedIn_one. }
        by replace (i' - 1 + 1) with i' in * by lia.
      - split; [apply Frame_refl|]. assert (i' = a + 1) as -> by lia.
        by apply SortedIn_one. }
    assert (len d2 = len d1) as Hlen2 by (by destruct Hf2 as (-> & _)).
    set (d3 := if 2 <=? b - i' then shiftRight less (Z.to_nat (b - i')) d2 b (i' + 1) else d2).
    assert (Frame i' b d2 d3) as Hf3.
    { unfold d3. destruct (Z.leb_spec 2 (b - i')); [| apply Frame_refl].
      pose proof (shiftRight_Frame (Z.to_nat (b - i')) d2 b (i' + 1)) as Hf.
      by replace (i' + 1 - 1) with i' in Hf by lia. }
    assert (Frame a b d d3) as Hf.
    { eapply Frame_trans; [apply Hf1|]. eapply Frame_trans.
      - apply (Frame_weaken a i'); [lia | lia | apply Hf2].
      - apply (Frame_weaken i' b); [lia | lia | apply Hf3]. }
    destruct (IH d3 a b i') as (Hf4 & Hs4); try lia.
    { destruct Hf3 as (-> & _). lia. }
    { apply (Frame_SortedIn_outside less _ _ i' b d2); [done | lia | done]. }
    { by apply (Floor_Frame a b a b d). }
    split; [by eapply Frame_trans | done].
Qed.

Lemma partialInsertionSort_func_spec (d : list A) a b :
  0 <= a -> a < b -> b <= len d -> Floor less a b d ->
  Frame a b d (partialInsertionSort_func less d a b).1
  /\ ((partialInsertionSort_func less d a b).2 = true ->
      SortedIn less a b (partialInsertionSort_func less d a b).1).
Proof.
  intros Ha Hab Hb Hfloor. unfold partialInsertionSort_func.
  apply partialInsertionSort_loop_spec; try done; try lia. by apply SortedIn_one.
Qed.

End GoSortRest.

(** *** [pdqsort_func] and [Slice] *)

Section GoSortMain.
Context {A : Type} (less : A -> A -> bool).
Hypothesis Hswo : strict_weak_order less.
Import GoSort.
Local Abbreviation ordered x y := (less y x = false).
Local Abbreviation len d := (Z.of_nat (length d)).

Lemma swo_le_less_le p x y : less p x = false -> less p y = true -> ordered x y.
Proof.
  intros Hpx Hpy. destruct Hswo as (_ & _ & Hneg).
  destruct (less y x) eqn:Hyx; [| done].
  destruct Hswo as (_ & Htrans & _). by rewrite (Htrans p y x Hpy Hyx) in Hpx.
Qed.

Lemma AllIn_Frame_outside a b a' b' (d d' : list A) P :
  Frame a' b' d d' -> (b <= a' \/ b' <= a) -> AllIn a b d P -> AllIn a b d' P.
Proof.
  intros (_ & Ho & _) Hdis Hall k x Hk Hx. rewrite Ho in Hx by lia. by apply (Hall k x).
Qed.

Lemma Floor_sub a b b' (d : list A) : b' <= b -> Floor less a b d -> Floor less a b' d.
Proof. intros Hb Hfloor x Hx. apply (AllIn_sub a b); [lia | done | by apply Hfloor]. Qed.

Lemma SortedIn_join a b mid p (d : list A) :
  SortedIn less a mid d -> SortedIn less (mid + 1) b d -> elem d mid = Some p ->
  AllIn a mid d (fun x => less x p = true) ->
  AllIn (mid + 1) b d (fun x => less x p = false) ->
  SortedIn less a b d.
Proof.
  intros Hl Hr Hp Hlo Hhi u v x y Hu Huv Hv Hx Hy.
  destruct (decide (v < mid)); [ord|].
  destruct (decide (mid < u)); [ord|].
  destruct (decide (u = mid)) as [-> | Hum]; simplify_eq.
  - destruct (decide (v = mid)) as [-> | Hvm]; simplify_eq; [by apply swo_refl|].
    apply (Hhi v y); [lia | done].
  - assert (less x p = true) as Hxp by (apply (Hlo u x); [lia | done]).
    destruct (decide (v = mid)) as [-> | Hvm]; simplify_eq; [by apply swo_less_le|].
    apply (swo_less_trans_le less Hswo x y p); [done|]. apply (Hhi v y); [lia | done].
Qed.

Lemma SortedIn_join_equal a b mid p f (d : list A) :
  SortedIn less mid b d ->
  AllIn a mid d (fun x => less p x = false) ->
  AllIn mid b d (fun x => less p x = true) ->
  AllIn a mid d (fun x => less x f = false) -> ordered p f ->
  SortedIn less a b d.
Proof.
  intros Hr Hlo Hhi Hfloor Hpf u v x y Hu Huv Hv Hx Hy.
  destruct (decide (mid <= u)); [ord|].
  assert (less p x = false) as Hpx by (apply (Hlo u x); [lia | done]).
  destruct (decide (v < mid)).
  - apply (swo_trans less Hswo x p y); [done|].
    apply (swo_trans less Hswo p f y); [done|]. apply (Hfloor v y); [lia | done].
  - apply (swo_le_less_le p); [done|]. apply (Hhi v y); [lia | done].
Qed.

Lemma pdqsort_func_spec fuel : forall (d : list A) a b limit wasBalanced wasPartitioned,
  0 <= a <= b -> b <= len d -> (Z.to_nat (b - a) < fuel)%nat -> Floor less a b d ->
  Frame a b d (pdqsort_func less fuel d a b limit wasBalanced wasPartitioned)
  /\ SortedIn less a b (pdqsort_func less fuel d a b limit wasBalanced wasPartitioned).
Proof.
  induction fuel as [| fuel IH]; intros d a b limit wb wp Ha Hb Hfuel Hfloor; [lia|].
  cbn [pdqsort_func].
  destruct (Z.leb_spec (b - a) maxInsertion) as [Hsmall | Hbig].
  { apply insertionSort_func_sorts; done || lia. }
  unfold maxInsertion in Hbig.
  destruct (Z.eqb_spec limit 0) as [Hz | Hnz].
  { apply heapSort_func_spec; done || lia. }
  match goal with
  | |- context [match ?e with pair _ _ => _ end] => destruct e as [d1 limit1] eqn:E1
  end.
  assert (Frame a b d d1) as Hf1.
  { destruct wb; simpl in E1; simplify_eq;
      [apply Frame_refl | apply breakPatterns_func_Frame; lia]. }
  assert (len d1 = len d) as Hlen1 by (by destruct Hf1 as (-> & _)).
  pose proof (choosePivot_func_range less d1 a b ltac:(lia)) as Hpivot.
  destruct (choosePivot_func less d1 a b) as [pivot hint]. simpl in Hpivot.
  match goal with
  | |- context [match ?e with pair _ _ => _ end] => destruct e as [[d2 pivot2] hint2] eqn:E2
  end.
  assert (Frame a b d1 d2 /\ a <= pivot2 < b) as [Hf2 Hpivot2].
  { destruct hint; simplify_eq;
      (split; [first [apply Frame_refl | apply reverseRange_func_Frame] | lia]). }
  assert (len d2 = len d) as Hlen2 by (destruct Hf2 as (-> & _); lia).
  assert (Floor less a b d2) as Hfloor2.
  { apply (Floor_Frame less a b a b d1); [lia | lia | done |].
    by apply (Floor_Frame less a b a b d). }
  match goal with
  | |- context [match ?e with pair _ _ => _ end] => destruct e as [d3 sorted] eqn:E3
  end.
  assert (Frame a b d2 d3 /\ (sorted = true -> SortedIn less a b d3)) as [Hf3 Hs3].
  { pose proof (partialInsertionSort_func_spec less Hswo d2 a b ltac:(lia) ltac:(lia)
                  ltac:(lia) Hfloor2) as Hpis.
    destruct hint2; try (simplify_eq; split; [apply Frame_refl | done]).
    destruct (wb && wp); [| simplify_eq; split; [apply Frame_refl | done]].
    by rewrite E3 in Hpis. }
  assert (Frame a b d d3) as Hf.
  { eapply Frame_trans; [apply Hf1|]. by eapply Frame_trans. }
  destruct sorted; [split; [done | by apply Hs3]|]. clear Hs3.
  assert (len d3 = len d) as Hlen3 by (by destruct Hf as (-> & _)).
  assert (Floor less a b d3) as Hfloor3 by (by apply (Floor_Frame less a b a b d2)).
  destruct (elem_in_range d3 pivot2 ltac:(lia)) as [p Hp].
  destruct ((0 <? a) && negb (Less less d3 (a - 1) pivot2)) eqn:Hcase.
  - apply andb_true_iff in Hcase as [Hapos%Z.ltb_lt Hless].
    destruct (elem_in_range d3 (a - 1) ltac:(lia)) as [f Hfl].
    rewrite (Less_elem less d3 _ _ f p Hfl Hp) in Hless. apply negb_true_iff in Hless.
    pose proof (partitionEqual_func_spec less Hswo d3 a b pivot2 p ltac:(lia) Hpivot2
                  ltac:(lia) Hp) as (Hf4 & Hmid & Hlo & Hhi).
    destruct (partitionEqual_func less d3 a b pivot2) as [d4 mid]. simpl in Hf4, Hmid, Hlo, Hhi.
    assert (len d4 = len d3) as Hlen4 by (by destruct Hf4 as (-> & _)).
    assert (Floor less a b d4) as Hfloor4 by (by apply (Floor_Frame less a b a b d3)).
    assert (elem d4 (a - 1) = Some f) as Hfl4.
    { destruct Hf4 as (_ & Ho & _). rewrite Ho; [done | lia]. }
    destruct (IH d4 mid b limit1 wb wp) as (Hf5 & Hs5); try lia.
    { intros x Hx k y Hk Hy. apply (swo_le_less_le p).
      - apply (Hlo (mid - 1) x); [lia | done].
      - apply (Hhi k y); [lia | done]. }
    set (d5 := pdqsort_func less fuel d4 mid b limit1 wb wp) in *.
    split.
    { eapply Frame_trans; [apply Hf|]. eapply Frame_trans; [apply Hf4|].
      apply (Frame_weaken mid b); [lia | lia | done]. }
    apply (SortedIn_join_equal a b mid p f); try done.
    + apply (AllIn_Frame_outside _ _ mid b d4); [done | lia | done].
    + by apply (Frame_AllIn mid b d4).
    + apply (AllIn_Frame_outside _ _ mid b d4); [done | lia |].
      apply (AllIn_sub a b); [lia | lia | by apply Hfloor4].
  - clear Hcase.
    pose proof (partition_func_spec less d3 a b pivot2 p ltac:(lia) Hpivot2
                  ltac:(lia) Hp) as (Hf4 & Hmid & Hpm & Hlo & Hhi).
    destruct (partition_func less d3 a b pivot2) as [[d4 mid] ap].
    simpl in Hf4, Hmid, Hpm, Hlo, Hhi.
    assert (len d4 = len d3) as Hlen4 by (by destruct Hf4 as (-> & _)).
    assert (Floor less a b d4) as Hfloor4 by (by apply (Floor_Frame less a b a b d3)).
    destruct (Z.ltb_spec (mid - a) (b - mid)) as [Hleft | Hright].
    + destruct (IH d4 a mid limit1 true true) as (Hf5 & Hs5); try lia.
      { apply (Floor_sub a b _); [lia | done]. }
      set (d5 := pdqsort_func less fuel d4 a mid limit1 true true) in *.
      assert (len d5 = len d4) as Hlen5 by (by destruct Hf5 as (-> & _)).
      assert (elem d5 mid = Some p) as Hpm5.
      { destruct Hf5 as (_ & Ho & _). rewrite Ho; [done | lia]. }
      assert (AllIn (mid + 1) b d5 (fun x => less x p = false)) as Hhi5.
      { apply (AllIn_Frame_outside _ _ a mid d4); [done | lia | done]. }
      destruct (IH d5 (mid + 1) b limit1 ((b - a) `quot` 8 <=? mid - a) ap) as (Hf6 & Hs6);
        try lia.
      { intros x Hx. replace (mid + 1 - 1) with mid in Hx by lia. by simplify_eq. }
      set (d6 := pdqsort_func less fuel d5 (mid + 1) b limit1 _ ap) in *.
      split.
      { eapply Frame_trans; [apply Hf|]. eapply Frame_trans; [apply Hf4|].
        eapply Frame_trans.
        - apply (Frame_weaken a mid); [lia | lia | apply Hf5].
        - apply (Frame_weaken (mid + 1) b); [lia | lia | apply Hf6]. }
      apply (SortedIn_join a b mid p); try done.
      * apply (Frame_SortedIn_outside less _ _ (mid + 1) b d5); [done | lia | done].
      * destruct Hf6 as (_ & Ho & _). rewrite Ho; [done | lia].
      * apply (AllIn_Frame_outside _ _ (mid + 1) b d5); [done | lia |].
        by apply (Frame_AllIn a mid d4).
      * by apply (Frame_AllIn (mid + 1) b d5).
    + destruct (IH d4 (mid + 1) b limit1 true true) as (Hf5 & Hs5); try lia.
      { intros x Hx. replace (mid + 1 - 1) with mid in Hx by lia. by simplify_eq. }
      set (d5 := pdqsort_func less fuel d4 (mid + 1) b limit1 true true) in *.
      assert (len d5 = len d4) as Hlen5 by (by destruct Hf5 as (-> & _)).
      assert (elem d5 mid = Some p) as Hpm5.
      { destruct Hf5 as (_ & Ho & _). rewrite Ho; [done | lia]. }
      assert (AllIn a mid d5 (fun x => less x p = true)) as Hlo5.
      { apply (AllIn_Frame_outside _ _ (mid + 1) b d4); [done | lia | done]. }
      destruct (IH d5 a mid limit1 ((b - a) `quot` 8 <=? b - mid) ap) as (Hf6 & Hs6);
        try lia.
      { apply (Floor_sub a b _); [lia|].
        apply (Floor_Frame less a b (mid + 1) b d4); [lia | lia | done | done]. }
      set (d6 := pdqsort_func less fuel d5 a mid limit1 _ ap) in *.
      split.
      { eapply Frame_trans; [apply Hf|]. eapply Frame_trans; [apply Hf4|].
        eapply Frame_trans.
        - apply (Frame_weaken (mid + 1) b); [lia | lia | apply Hf5].
        - apply (Frame_weaken a mid); [lia | lia | apply Hf6]. }
      apply (SortedIn_join a b mid p); try done.
      * apply (Frame_SortedIn_outside less _ _ a mid d5); [done | lia | done].
      * destruct Hf6 as (_ & Ho & _). rewrite Ho; [done | lia].
      * by apply (Frame_AllIn a mid d5).
      * apply (AllIn_Frame_outside _ _ a mid d5); [done | lia |].
        by apply (Frame_AllIn (mid + 1) b d4).
Qed.

Lemma SortedIn_StronglySorted (d : list A) :
  SortedIn less 0 (len d) d -> StronglySorted (fun x y => less y x = false) d.
Proof.
  induction d as [| x d IH]; intros Hs; [constructor|].
  constructor.
  - apply IH. intros u v xu xv Hu Huv Hv Hxu Hxv.
    apply (Hs (u + 1) (v + 1) xu xv); try lia.
    + simpl length. lia.
    + unfold elem in *. destruct (Z.ltb_spec u 0); [lia|].
      destruct (Z.ltb_spec (u + 1) 0); [lia|].
      replace (Z.to_nat (u + 1)) with (S (Z.to_nat u)) by lia. done.
    + unfold elem in *. destruct (Z.ltb_spec v 0); [lia|].
      destruct (Z.ltb_spec (v + 1) 0); [lia|].
      replace (Z.to_nat (v + 1)) with (S (Z.to_nat v)) by lia. done.
  - apply Forall_forall. intros y Hy.
    apply list_elem_of_lookup_1 in Hy as [k Hk].
    apply (Hs 0 (Z.of_nat (S k)) x y); try lia.
    + apply lookup_lt_Some in Hk. simpl length. lia.
    + done.
    + unfold elem. destruct (Z.ltb_spec (Z.of_nat (S k)) 0); [lia|].
      rewrite Nat2Z.id. done.
Qed.

Lemma Slice_sorts (d : list A) :
  StronglySorted (fun x y => less y x = false) (Slice less d).
Proof.
  unfold Slice.
  destruct (pdqsort_func_spec (S (length d)) d 0 (len d) (bits_Len (len d)) true true)
    as (Hf & Hs); try lia.
  { intros x Hx. apply elem_Some in Hx. lia. }
  apply SortedIn_StronglySorted. by destruct Hf as (-> & _).
Qed.

End GoSortMain.

(** ** The contracts hold of the libraries of the examples *)

Lemma goLib_sort_permutes : @sort_permutes Demo.goLib.
Proof. intros less l. apply Slice_Permutation. Qed.

Lemma goLib_sort_sorts : @sort_sorts Demo.goLib.
Proof. intros less l Hless. by apply Slice_sorts. Qed.

Lemma mergeLib_sort_permutes : @sort_permutes Demo.mergeLib.
Proof. intros less l. apply merge_sort_Permutation. Qed.

Lemma mergeLib_sort_sorts : @sort_sorts Demo.mergeLib.
Proof.
  intros less l (Hirr & Htrans & Hneg).
  apply StronglySorted_merge_sort.
  - intros x y z Hxy Hyz. by apply (Hneg z y x).
  - intros x y. destruct (less y x) eqn:Hyx; [| by left]. right.
    destruct (less x y) eqn:Hxy; [| done].
    pose proof (Hirr x) as Hx. by rewrite (Htrans x y x Hxy Hyx) in Hx.
Qed.

(** ** The scanner *)

Lemma FsNode_nested_ind (P : FsNode -> Prop) :
  (forall name, P (FsFile name)) ->
  (forall name readErr entries, Forall P entries -> P (FsDir name readErr entries)) ->
  (forall name e, P (FsBroken name e)) ->
  forall n, P n.
Proof.
  intros Hfile Hdir Hbroken.
  fix IH 1. intros [name | name readErr entries | name e].
  - apply Hfile.
  - apply Hdir. induction entries as [| c entries IHentries]; constructor.
    + apply IH.
    + apply IHentries.
  - apply Hbroken.
Qed.

Section Scanner.
Context `{GoLib}.

Lemma walkFn_file vv p acc :
  loadVideoFiles_walkFn vv p (Visited false None) acc
  = ((acc ++ scanEntries vv [p])%list, None).
Proof.
  unfold loadVideoFiles_walkFn, scanEntries. fold (allowed p).
  rewrite filter_cons, filter_nil.
  case_decide as Hp; rewrite Hp || (apply not_true_is_false in Hp; rewrite Hp); simpl.
  - reflexivity.
  - by rewrite app_nil_r.
Qed.

(** A walk that meets no error collects the accepted files, in order. *)
Lemma walk_sound vv n : forall path acc,
  treeSound n = true ->
  walk (loadVideoFiles_walkFn vv) path n acc
  = ((acc ++ scanEntries vv (treeFiles path n))%list, None).
Proof.
  induction n as [name | name readErr ents IH | name e] using FsNode_nested_ind;
    intros path acc Hs.
  - simpl. apply walkFn_file.
  - simpl in Hs. destruct readErr; [done|]. simpl.
    revert acc Hs. induction IH as [| c ents Hc _ IHents]; intros acc Hs.
    + unfold scanEntries. simpl. by rewrite app_nil_r.
    + apply andb_prop in Hs as [Hs1 Hs2].
      rewrite Hc by done. rewrite IHents by done.
      unfold scanEntries. rewrite filter_app, fmap_app, app_assoc. reflexivity.
  - done.
Qed.

(** A walk that meets an error returns it. *)
Lemma walk_unsound vv n : forall path acc,
  treeSound n = false ->
  exists acc' e, walk (loadVideoFiles_walkFn vv) path n acc = (acc', Some e).
Proof.
  induction n as [name | name readErr ents IH | name e] using FsNode_nested_ind;
    intros path acc Hs.
  - done.
  - simpl in Hs. destruct readErr as [e|]; simpl; [by eauto|].
    revert acc Hs. induction IH as [| c ents Hc _ IHents]; intros acc Hs; [done|].
    destruct (treeSound c) eqn:Hc'.
    + rewrite walk_sound by done. simpl in Hs. apply IHents. done.
    + destruct (Hc (GoFilepath.Join path (node_name c)) acc eq_refl) as (acc' & e & ->).
      eauto.
  - simpl. eauto.
Qed.

Lemma loadVideoFiles_Ok path w l :
  loadVideoFiles path w = Ok l <->
  exists vv, loadViewedVideos path w = Ok vv /\ treeSound (root w) = true
    /\ l = sort_Slice loadVideoFiles_less (scanEntries vv (treeFiles path (root w))).
Proof.
  unfold loadVideoFiles, scanned, filepath_Walk.
  destruct (loadViewedVideos path w) as [vv | e]; [| split; [done | intros (? & ? & _); done]].
  destruct (treeSound (root w)) eqn:Hs.
  - rewrite walk_sound by done. simpl. split.
    + intros [= <-]. eauto.
    + intros (vv' & [= <-] & _ & ->). reflexivity.
  - destruct (walk_unsound vv (root w) path [] Hs) as (acc' & e & ->). split; [done|].
    intros (? & _ & ? & _). done.
Qed.

Lemma loadVideoFiles_less_swo : strict_weak_order loadVideoFiles_less.
Proof.
  unfold strict_weak_order, loadVideoFiles_less. repeat split; intros *.
  - apply Z.ltb_irrefl.
  - rewrite !Z.ltb_lt. lia.
  - rewrite !Z.ltb_ge. lia.
Qed.

Lemma StronglySorted_weaken {A} (R1 R2 : A -> A -> Prop) l :
  (forall x y, R1 x y -> R2 x y) -> StronglySorted R1 l -> StronglySorted R2 l.
Proof.
  intros HR. induction 1 as [| x l _ IH Hx]; constructor; [done|].
  eapply Forall_impl; eauto.
Qed.

Lemma elem_of_scanEntries vv files v :
  v ∈ scanEntries vv files <->
  exists p, p ∈ files /\ allowed p = true /\ v = entryOf vv p.
Proof.
  unfold scanEntries. rewrite list_elem_of_fmap. split.
  - intros (p & -> & [Hal Hin]%list_elem_of_filter). eauto.
  - intros (p & Hin & Hal & ->). exists p. split; [done|]. by apply list_elem_of_filter.
Qed.

(** C1, as amended: the scanner decides by the extension alone.  Every file
    the walk visits whose extension, lower-cased, is in the table has an
    entry, whatever its name looks like; an entry is always of such a file,
    with the base name as its name; and the entries are, up to their order,
    those of the accepted files, one each.  The name is never split or
    parsed to decide acceptance. *)
Theorem C1_scanner_accepts_by_extension_alone :
  sort_permutes ->
  forall path w l, loadVideoFiles path w = Ok l ->
    (forall p, p ∈ treeFiles path (root w) -> allowed p = true ->
       exists v, v ∈ l /\ Path v = p /\ Name v = GoFilepath.Base p)
    /\ (forall v, v ∈ l ->
          Path v ∈ treeFiles path (root w) /\ allowed (Path v) = true
          /\ Name v = GoFilepath.Base (Path v))
    /\ (exists vv, l ≡ₚ entryOf vv <$> filter (fun p => allowed p = true)
                                        (treeFiles path (root w))).
Proof.
  intros Hperm path w l (vv & _ & _ & ->)%loadVideoFiles_Ok.
  pose proof (Hperm loadVideoFiles_less (scanEntries vv (treeFiles path (root w)))) as Hp.
  split; [| split].
  - intros p Hin Hal. exists (entryOf vv p). split; [| done].
    rewrite Hp. apply elem_of_scanEntries. eauto.
  - intros v Hv. rewrite Hp in Hv. apply elem_of_scanEntries in Hv as (p & Hin & Hal & ->).
    done.
  - exists vv. apply Hp.
Qed.

(** C3, as amended: the slice the scanner returns is in non-decreasing
    order of the number read off each name ([0] when the leading piece is
    no number), and it is a rearrangement of the entries in walk order.
    How entries with equal numbers stand to each other is left to
    [sort.Slice], which does not promise to keep their order. *)
Theorem C3_scan_sorted_by_leading_number :
  sort_permutes -> sort_sorts ->
  forall path w l, loadVideoFiles path w = Ok l ->
    StronglySorted (fun a b => orderKey (Name a) <= orderKey (Name b)) l
    /\ exists vv, loadViewedVideos path w = Ok vv
         /\ l ≡ₚ scanEntries vv (treeFiles path (root w)).
Proof.
  intros Hperm Hsort path w l (vv & Hvv & _ & ->)%loadVideoFiles_Ok. split.
  - eapply StronglySorted_weaken; [| apply Hsort, loadVideoFiles_less_swo].
    intros x y. unfold loadVideoFiles_less. rewrite Z.ltb_ge. done.
  - exists vv. split; [done|]. apply Hperm.
Qed.

End Scanner.

(** A library of at most twelve entries, sorted by the [sort.Slice] of Go:
    entries with equal numbers keep the order of the walk. *)
Lemma small_library_keeps_walk_order `{GoLib} :
  (forall less l, sort_Slice less l = GoSort.Slice less l) ->
  forall path w l, loadVideoFiles path w = Ok l -> (length l <= 12)%nat ->
    exists vv, loadViewedVideos path w = Ok vv
      /\ stable_wrt (fun v => orderKey (Name v))
           (scanEntries vv (treeFiles path (root w))) l
      /\ StronglySorted (fun a b => orderKey (Name a) <= orderKey (Name b)) l.
Proof.
  intros Hsort path w l Hl Hlen.
  apply loadVideoFiles_Ok in Hl as (vv & Hvv & _ & ->). exists vv. split; [done|].
  rewrite Hsort in *.
  rewrite Slice_Permutation in Hlen.
  destruct (Slice_small_sorted_stable (fun v => orderKey (Name v))
              (scanEntries vv (treeFiles path (root w))) Hlen) as [Hs Hst].
  split; [exact Hst | exact Hs].
Qed.

(** The scenario of the specification: [bad_name.mp4] has no [" - "] and no
    number, and the scan lists it, first. *)
Lemma C1_counterexample_bad_name_is_listed :
  @loadVideoFiles Demo.goLib "videos" Demo.world0 = Ok Demo.lib0
  /\ Name <$> Demo.lib0 = ["bad_name.mp4"; "1 - Intro.mp4"; "2 - Body.mp4"]
  /\ "videos/bad_name.mp4" ∈ treeFiles "videos" (root Demo.world0)
  /\ length (GoStrings.Split "bad_name.mp4" " - ") = 1%nat
  /\ GoStrconv.Atoi (GoStrings.TrimSpace "bad_name.mp4") = (0, false).
Proof.
  split; [vm_compute; reflexivity|]. split; [reflexivity|].
  split; [| split; reflexivity].
  simpl. set_solver.
Qed.

Lemma C1_witness_library :
  (forall p, p ∈ treeFiles "videos" (root Demo.world0) -> allowed p = true ->
     exists v, v ∈ Demo.lib0 /\ Path v = p /\ Name v = GoFilepath.Base p)
  /\ (forall v, v ∈ Demo.lib0 ->
        Path v ∈ treeFiles "videos" (root Demo.world0) /\ allowed (Path v) = true
        /\ Name v = GoFilepath.Base (Path v))
  /\ (exists vv, Demo.lib0 ≡ₚ entryOf vv <$> filter (fun p => allowed p = true)
                                               (treeFiles "videos" (root Demo.world0))).
Proof.
  apply (@C1_scanner_accepts_by_extension_alone Demo.goLib goLib_sort_permutes
           "videos" Demo.world0 Demo.lib0).
  vm_compute. reflexivity.
Defined.

Lemma reversingLib_sort_permutes : @sort_permutes Demo.reversingLib.
Proof. intros less l. simpl. by rewrite merge_sort_Permutation, reverse_Permutation. Qed.

Lemma reversingLib_sort_sorts : @sort_sorts Demo.reversingLib.
Proof. intros less l Hless. apply (mergeLib_sort_sorts less (reverse l) Hless). Qed.

(** Thirteen files, as [filepath.Walk] lists them: eleven numbered episodes,
    then [bonus.mp4] and [extras.mp4], both without a number.  [sort.Slice]
    returns [extras.mp4] before [bonus.mp4]: past twelve elements it
    partitions, and the partition moves elements over others of the same
    number. *)
Lemma C3_counterexample_ties_reordered :
  listingSorted Demo.season = true
  /\ Name <$> (scanned "videos" ∅ Demo.seasonWorld).1
     = ["1 - Intro.mp4"; "10 - J.mp4"; "11 - K.mp4"; "2 - B.mp4"; "3 - C.mp4"; "4 - D.mp4";
        "5 - E.mp4"; "6 - F.mp4"; "7 - G.mp4"; "8 - H.mp4"; "9 - I.mp4"; "bonus.mp4";
        "extras.mp4"]
  /\ (exists l, @loadVideoFiles Demo.goLib "videos" Demo.seasonWorld = Ok l
        /\ Name <$> l
           = ["extras.mp4"; "bonus.mp4"; "1 - Intro.mp4"; "2 - B.mp4"; "3 - C.mp4";
              "4 - D.mp4"; "5 - E.mp4"; "6 - F.mp4"; "7 - G.mp4"; "8 - H.mp4"; "9 - I.mp4";
              "10 - J.mp4"; "11 - K.mp4"])
  /\ orderKey "bonus.mp4" = orderKey "extras.mp4"
  /\ ~ (exists l, @loadVideoFiles Demo.goLib "videos" Demo.seasonWorld = Ok l
          /\ stable_wrt (fun v => orderKey (Name v))
               (scanned "videos" ∅ Demo.seasonWorld).1 l).
Proof.
  split; [reflexivity|]. split; [vm_compute; reflexivity|].
  split; [eexists; split; [vm_compute; reflexivity | vm_compute; reflexivity]|].
  split; [reflexivity|].
  intros (l & Hl & Hstable). specialize (Hstable 0).
  apply (f_equal (fmap Name)) in Hstable.
  vm_compute in Hl. injection Hl as <-.
  vm_compute in Hstable. discriminate.
Qed.

(** The contract of [sort.Slice] alone does not fix the order of ties: an
    implementation that sorts and rearranges may return two files without a
    number in the order opposite to the walk. *)
Lemma sort_contract_leaves_ties_open :
  @sort_permutes Demo.reversingLib /\ @sort_sorts Demo.reversingLib
  /\ Name <$> (scanned "videos" ∅ Demo.seasonWorld).1
     = ["1 - Intro.mp4"; "10 - J.mp4"; "11 - K.mp4"; "2 - B.mp4"; "3 - C.mp4"; "4 - D.mp4";
        "5 - E.mp4"; "6 - F.mp4"; "7 - G.mp4"; "8 - H.mp4"; "9 - I.mp4"; "bonus.mp4";
        "extras.mp4"]
  /\ exists l, @loadVideoFiles Demo.reversingLib "videos" Demo.seasonWorld = Ok l
       /\ Name <$> l
          = ["extras.mp4"; "bonus.mp4"; "1 - Intro.mp4"; "2 - B.mp4"; "3 - C.mp4";
             "4 - D.mp4"; "5 - E.mp4"; "6 - F.mp4"; "7 - G.mp4"; "8 - H.mp4"; "9 - I.mp4";
             "10 - J.mp4"; "11 - K.mp4"].
Proof.
  split; [apply reversingLib_sort_permutes|]. split; [apply reversingLib_sort_sorts|].
  split; [vm_compute; reflexivity|].
  eexists; split; vm_compute; reflexivity.
Qed.

Lemma C3_witness_library :
  StronglySorted (fun a b => orderKey (Name a) <= orderKey (Name b)) Demo.lib0
  /\ exists vv, @loadViewedVideos Demo.goLib "videos" Demo.world0 = Ok vv
       /\ Demo.lib0 ≡ₚ scanEntries vv (treeFiles "videos" (root Demo.world0)).
Proof.
  apply (@C3_scan_sorted_by_leading_number Demo.goLib
           goLib_sort_permutes goLib_sort_sorts "videos" Demo.world0 Demo.lib0).
  vm_compute. reflexivity.
Defined.

(** ** The store *)

Section Store.
Context `{GoLib}.

Lemma lastNamed_cons name v l :
  lastNamed name (v :: l)
  = match lastNamed name l with
    | Some v' => Some v'
    | None => if decide (Name v = name) then Some v else None
    end.
Proof.
  unfold lastNamed. rewrite filter_cons. case_decide.
  - by rewrite last_cons.
  - by destruct (last _).
Qed.

Lemma foldl_insert_lookup (l : list VideoFile) : forall (m : gmap string VideoFile) name,
  foldl (fun m v => <[Name v := v]> m) m l !! name
  = match lastNamed name l with
    | Some v => Some v
    | None => m !! name
    end.
Proof.
  induction l as [| v l IH]; intros m name; [done|].
  simpl. rewrite IH, lastNamed_cons.
  destruct (lastNamed name l); [done|].
  case_decide as Hn.
  - subst. apply lookup_insert_eq.
  - by apply lookup_insert_ne.
Qed.


Lemma saveViewedVideos_written l pretty path w :
  json_roundtrip_at l pretty -> write_err w = None ->
  saveViewedVideos l path w
  = emit (EvWriteFile videoDataFile pretty true) (mkWorld (root w) (FileData pretty) (write_err w) (readme w) (now w) (trace w)).
Proof.
  intros (jsonData & Hm & Hi & _) Hw. unfold saveViewedVideos, os_WriteFile.
  by rewrite Hm, Hi, Hw.
Qed.


End Store.

(** ** The handlers *)

Lemma indexOfName_Some fileName l : forall i,
  indexOfName fileName l = Some i ->
  exists v, l !! i = Some v /\ Name v = fileName
    /\ forall j u, (j < i)%nat -> l !! j = Some u -> Name u <> fileName.
Proof.
  induction l as [| x l IH]; intros i Hi; [done|]. simpl in Hi.
  destruct (String.eqb_spec (Name x) fileName) as [Hx | Hx].
  - injection Hi as <-. exists x. split; [done|]. split; [done|]. lia.
  - destruct (indexOfName fileName l) as [i'|]; [| done]. injection Hi as <-.
    destruct (IH i' eq_refl) as (v & Hv & Hn & Hfirst).
    exists v. split; [done|]. split; [done|].
    intros [| j] u Hj Hu; simplify_eq/=; [done|].
    apply (Hfirst j u); [lia | done].
Qed.

Lemma indexOfName_None fileName l :
  indexOfName fileName l = None <-> forall v, v ∈ l -> Name v <> fileName.
Proof.
  induction l as [| x l IH]; simpl.
  - split; [| done]. intros _ v Hv. by apply elem_of_nil in Hv.
  - destruct (String.eqb_spec (Name x) fileName) as [Hx | Hx].
    + split; [done|]. intros Hall. exfalso. apply (Hall x); [left | done].
    + destruct (indexOfName fileName l) as [i'|] eqn:Hi; simpl.
      * split; [done|]. intros Hall. destruct IH as [_ IH].
        discriminate IH. intros v Hv. apply Hall. by right.
      * split; [| done]. intros _ v [-> | Hv]%elem_of_cons; [done|].
        destruct IH as [IH _]. by apply IH.
Qed.

Lemma findByName_indexOfName fileName l :
  findByName fileName l = indexOfName fileName l ≫= (l !!.).
Proof.
  induction l as [| x l IH]; [done|]. unfold findByName in *. simpl.
  destruct (String.eqb (Name x) fileName); [done|].
  rewrite IH. by destruct (indexOfName fileName l).
Qed.

Lemma findByName_Some_iff fileName l :
  is_Some (findByName fileName l) <-> exists v, v ∈ l /\ Name v = fileName.
Proof.
  rewrite findByName_indexOfName. split.
  - intros [c Hc]. destruct (indexOfName fileName l) as [i|] eqn:Hi; [| done].
    destruct (indexOfName_Some _ _ _ Hi) as (v & Hv & Hn & _).
    exists v. split; [| done]. by eapply list_elem_of_lookup_2.
  - intros (v & Hv & Hn). destruct (indexOfName fileName l) as [i|] eqn:Hi.
    + destruct (indexOfName_Some _ _ _ Hi) as (v' & Hv' & _). simpl. rewrite Hv'. eauto.
    + exfalso. by apply (proj1 (indexOfName_None _ _) Hi v).
Qed.

Section Handlers.
Context `{GoLib}.


(** Where [redirectAfterUnview] sends the client. *)
Lemma redirectAfterUnview_spec r :
  exists target, redirectAfterUnview r = Redirect target StatusSeeOther
    /\ (Referer r = "" -> target = "/")
    /\ (forall e, url_Parse (Referer r) = Err e -> target = "/")
    /\ (Referer r <> "" -> forall u, url_Parse (Referer r) = Ok u ->
          let q := Values_Del (URL_Query u) "ended" in
          target = URL_String {| Rest := Rest u; RawQuery := Values_Encode q |}
          /\ (url_roundtrip_at u q ->
              exists u', url_Parse target = Ok u'
                /\ Values_Get (URL_Query u') "ended" = ""
                /\ URL_Query u' !! "ended" = None
                /\ forall key, key <> "ended" -> URL_Query u' !! key = URL_Query u !! key)).
Proof.
  unfold redirectAfterUnview.
  destruct (String.eqb_spec (Referer r) "") as [Hr | Hr]; simpl.
  - exists "/". split; [done|]. split; [done|]. split; [| done].
    intros e He. done.
  - destruct (url_Parse (Referer r)) as [u | e] eqn:Hu.
    + eexists. split; [done|]. split; [done|]. split; [done|].
      intros _ u' [= <-]. split; [done|]. intros (u2 & Hu2 & Hq).
      exists u2. split; [done|]. unfold Values_Get, Values_Del in *. rewrite Hq.
      rewrite lookup_delete_eq. split; [done|]. split; [done|].
      intros key Hkey. by apply lookup_delete_ne.
    + exists "/". split; [done|]. split; [done|]. split; [done|]. done.
Qed.


(** C5, as amended: a watch request with a non-empty [ended] parameter marks
    the first entry of that name viewed, with the time stamp of the request
    and progress [0], and hands the slice to [saveViewedVideos] before the
    page is made of it, provided the video to watch is itself in the
    library.  When the path names no entry, or [ended] is empty, the slice
    and the world stay as they are. *)
Theorem C5_watch_marks_ended_video
    (r : Request) (videoFiles : list VideoFile) (folderName path : string) (w : World)
    (resp : Response) (videoFiles' : list VideoFile) (w' : World) :
  handleWatch r videoFiles folderName path w = (resp, videoFiles', w') ->
  let fileName := GoStrings.TrimPrefix (URL_Path r) "/watch/" in
  let ended := Values_Get (Query r) "ended" in
  (ended <> "" ->
   (exists c, c ∈ videoFiles /\ Name c = fileName) ->
   (exists v, v ∈ videoFiles /\ Name v = ended) ->
     (exists i v v',
        videoFiles !! i = Some v /\ Name v = ended
        /\ (forall j u, (j < i)%nat -> videoFiles !! j = Some u -> Name u <> ended)
        /\ videoFiles' !! i = Some v'
        /\ Viewed v' = true /\ Current v' = now w /\ Progress v' = 0%float
        /\ Name v' = Name v /\ Path v' = Path v
        /\ (forall j, j <> i -> videoFiles' !! j = videoFiles !! j)
        /\ length videoFiles' = length videoFiles)
     /\ w' = saveViewedVideos videoFiles' path w
     /\ (forall pretty, json_roundtrip_at videoFiles' pretty -> write_err w = None ->
           store w' = FileData pretty)
     /\ exists data, resp = Rendered data /\ Videos data = videoFiles'
          /\ CurrentVideo data = fileName)
  /\ ((forall c, c ∈ videoFiles -> Name c <> fileName) -> videoFiles' = videoFiles /\ w' = w)
  /\ (ended = "" -> videoFiles' = videoFiles /\ w' = w).
Proof.
  intros Heq fileName ended. unfold handleWatch in Heq. fold fileName in Heq. fold ended in Heq.
  destruct (String.eqb_spec ended "") as [He | He]; simpl in Heq.
  { injection Heq as <- <- <-. split; [done|]. done. }
  destruct (findByName fileName videoFiles) as [c|] eqn:Hc; simpl in Heq.
  - unfold markVideoAsViewed in Heq.
    destruct (indexOfName ended videoFiles) as [i|] eqn:Hi; injection Heq as <- <- <-.
    + split; [| split; [| done]].
      * intros _ _ _. destruct (indexOfName_Some _ _ _ Hi) as (v & Hv & Hn & Hfirst).
        split; [| split; [done | split]].
        -- exists i, v, (setProgress 0%float (setCurrent (now w) (setViewed true v))).
           split; [done|]. split; [done|]. split; [done|].
           split; [by rewrite list_lookup_alter_eq, Hv|].
           repeat (split; [done|]).
           split; [| by rewrite length_alter].
           intros j Hj. by rewrite list_lookup_alter_ne.
        -- intros pretty Hrt Hw. by rewrite (saveViewedVideos_written _ _ _ _ Hrt Hw).
        -- eexists. split; [done|]. done.
      * intros Hnone. exfalso.
        assert (is_Some (findByName fileName videoFiles)) as Hs by (rewrite Hc; eauto).
        apply findByName_Some_iff in Hs as (c' & Hc' & Hn'). by apply (Hnone c').
    + split; [| done]. intros _ _ (v & Hv & Hn). exfalso.
      by apply (proj1 (indexOfName_None _ _) Hi v).
  - injection Heq as <- <- <-. split; [| done]. intros _ Hex _. exfalso.
    apply findByName_Some_iff in Hex. rewrite Hc in Hex. by destruct Hex.
Qed.


(** C4, as amended.  A progress-update request never touches the slice
    [main] holds.  An elapsed value that does not parse is answered 400,
    with a log line and no write.  One that parses makes the handler scan
    the directory again: if that fails the answer is 500 and nothing is
    written; otherwise, when the name is in the new scan, the scan with the
    first entry of that name given the time stamp of the request and the
    parsed progress, its viewed flag and everything else as scanned, is
    handed to [saveViewedVideos], and the answer is 200; when the name is
    not in it the answer is 200 and nothing happens. *)
Theorem C4_progress_update_rescans_and_saves
    (r : Request) (s : Server) (resp : Response) (s' : Server) :
  serve (CallUpdateProgress r) s = (resp, s') ->
  let parts := GoStrings.Split (URL_Path r) "/" in
  let elapsed := default "" (last parts) in
  let path := srv_path s in
  let w := srv_world s in
  srv_videoFiles s' = srv_videoFiles s
  /\ (forall e, strconv_ParseFloat elapsed = Err e ->
        status resp = Some StatusBadRequest
        /\ store (srv_world s') = store w
        /\ trace (srv_world s') = (trace w ++ [EvLog "Invalid progress vaule"])%list)
  /\ (forall progress e, strconv_ParseFloat elapsed = Ok progress ->
        loadVideoFiles path w = Err e ->
        status resp = Some StatusInternalServerError
        /\ store (srv_world s') = store w
        /\ trace (srv_world s') = (trace w ++ [EvLog "Error loading video progress"])%list)
  /\ (forall progress l final fileName rest,
        strconv_ParseFloat elapsed = Ok progress ->
        loadVideoFiles path w = Ok l ->
        reverse parts = final :: fileName :: rest ->
        ((exists v, v ∈ l /\ Name v = fileName) ->
           exists i v v' l',
             l !! i = Some v /\ Name v = fileName
             /\ (forall j u, (j < i)%nat -> l !! j = Some u -> Name u <> fileName)
             /\ l' !! i = Some v'
             /\ Current v' = now w /\ Progress v' = progress /\ Viewed v' = Viewed v
             /\ Name v' = Name v /\ Path v' = Path v
             /\ (forall j, j <> i -> l' !! j = l !! j)
             /\ length l' = length l
             /\ srv_world s' = saveViewedVideos l' path w
             /\ (forall pretty, json_roundtrip_at l' pretty -> write_err w = None ->
                   store (srv_world s') = FileData pretty)
             /\ resp = WriteHeader StatusOK)
        /\ ((forall v, v ∈ l -> Name v <> fileName) ->
              resp = WriteHeader StatusOK /\ srv_world s' = w)).
Proof.
  intros Heq parts elapsed path w. unfold serve, handleUpdateProgress in Heq.
  fold path in Heq. fold w in Heq. fold parts in Heq. fold elapsed in Heq.
  destruct (strconv_ParseFloat elapsed) as [progress | e]; simpl in Heq.
  2: { injection Heq as <- <-. split; [done|]. split; [done|]. split; intros; done. }
  destruct (loadVideoFiles path w) as [l | e]; simpl in Heq.
  2: { injection Heq as <- <-. split; [done|]. split; [done|]. split; [| done].
       intros ? ? _ _. done. }
  destruct (reverse parts) as [| final [| fileName rest]] eqn:Hparts; simpl in Heq.
  1,2: injection Heq as <- <-; split; [done|]; split; [done|]; split; [done|]; intros; done.
  destruct (indexOfName fileName l) as [i|] eqn:Hi; simpl in Heq; injection Heq as <- <-.
  - split; [done|]. split; [done|]. split; [done|].
    intros ? ? ? ? ? [= <-] [= <-] [= <- <- <-]. split.
    + intros _. destruct (indexOfName_Some _ _ _ Hi) as (v & Hv & Hn & Hfirst).
      exists i, v, (setProgress progress (setCurrent (now w) v)).
      exists (alter (fun v => setProgress progress (setCurrent (now w) v)) i l).
      split; [done|]. split; [done|]. split; [done|].
      split; [by rewrite list_lookup_alter_eq, Hv|].
      repeat (split; [done|]).
      split; [intros j Hj; by rewrite list_lookup_alter_ne|].
      split; [by rewrite length_alter|]. split; [done|]. split; [| done].
      intros pretty Hrt Hw. simpl. by rewrite (saveViewedVideos_written _ _ _ _ Hrt Hw).
    + intros Hnone. apply (proj2 (indexOfName_None _ _)) in Hnone. congruence.
  - split; [done|]. split; [done|]. split; [done|].
    intros ? ? ? ? ? [= <-] [= <-] [= <- <- <-]. split; [| done].
    intros (v & Hv & Hn). exfalso. by apply (proj1 (indexOfName_None _ _) Hi v).
Qed.

(** C7: without a sidecar file the load yields the empty map and no error;
    with a sidecar file that [json.Unmarshal] rejects, the load fails with
    that error, [loadVideoFiles] passes it on, and [main] ends in
    [log.Fatalf] instead of serving. *)
Theorem C7_absent_store_is_empty_malformed_is_fatal (path : string) (w : World) :
  (store w = FileAbsent -> loadViewedVideos path w = Ok ∅)
  /\ (forall b e, store w = FileData b -> json_Unmarshal b = Err e ->
        loadViewedVideos path w = Err e
        /\ loadVideoFiles path w = Err e
        /\ main [path] w = Fatal "Error loading video files" e).
Proof.
  split.
  - intros Hs. unfold loadViewedVideos, os_ReadFile. by rewrite Hs.
  - intros b e Hs He.
    assert (loadViewedVideos path w = Err e) as Hl.
    { unfold loadViewedVideos, os_ReadFile. by rewrite Hs, He. }
    assert (loadVideoFiles path w = Err e) as Hv.
    { unfold loadVideoFiles. by rewrite Hl. }
    split; [done|]. split; [done|]. unfold main. by rewrite Hv.
Qed.

(** C10: whatever makes [os.ReadFile] fail, the load yields the empty map
    and no error, and the scan goes on as if nothing had ever been saved. *)
Theorem C10_unreadable_store_is_empty (path : string) (w : World) (e : error) :
  os_ReadFile w = Err e ->
  loadViewedVideos path w = Ok ∅
  /\ loadVideoFiles path w
     = match scanned path ∅ w with
       | (_, Some err) => Err err
       | (videoFiles, None) => Ok (sort_Slice loadVideoFiles_less videoFiles)
       end.
Proof.
  intros Hr.
  assert (loadViewedVideos path w = Ok ∅) as Hl.
  { unfold loadViewedVideos. by rewrite Hr. }
  split; [done|]. unfold loadVideoFiles. by rewrite Hl.
Qed.

Lemma serve_keeps_viewed c s i v :
  srv_videoFiles s !! i = Some v -> Viewed v = true ->
  ~ unviews (Name v) (Serve c) ->
  exists v', srv_videoFiles (serve c s).2 !! i = Some v'
    /\ Viewed v' = true /\ Name v' = Name v /\ Path v' = Path v.
Proof.
  intros Hv Hviewed Hun. destruct c as [r | r | r | r | r]; simpl.
  - eauto.
  - unfold handleWatch.
    destruct (negb _ && _); simpl; [| by eauto].
    unfold markVideoAsViewed.
    destruct (indexOfName _ (srv_videoFiles s)) as [i0|]; simpl; [| by eauto].
    destruct (decide (i0 = i)) as [-> | Hne].
    + rewrite list_lookup_alter_eq, Hv. simpl. eauto.
    + rewrite list_lookup_alter_ne by done. eauto.
  - unfold handleUnview.
    destruct (indexOfName _ (srv_videoFiles s)) as [i0|] eqn:Hi0; simpl; [| by eauto].
    destruct (decide (i0 = i)) as [-> | Hne].
    + exfalso. apply Hun. simpl.
      destruct (indexOfName_Some _ _ _ Hi0) as (v0 & Hv0 & Hn0 & _). congruence.
    + rewrite list_lookup_alter_ne by done. eauto.
  - eauto.
  - destruct (handleUpdateProgress r (srv_path s) (srv_world s)). simpl. eauto.
Qed.

(** What a progress-update request saves has the viewed flags of the scan
    it started from. *)
Lemma handleUpdateProgress_keeps_flags r path w :
  (forall l, loadVideoFiles path w = Ok l ->
     exists l', Viewed <$> l' = Viewed <$> l /\ Name <$> l' = Name <$> l
       /\ ((handleUpdateProgress r path w).2 = saveViewedVideos l' path w
           \/ (handleUpdateProgress r path w).2 = w
           \/ exists msg, (handleUpdateProgress r path w).2 = log_Printf msg w))
  /\ (forall e, loadVideoFiles path w = Err e ->
        (handleUpdateProgress r path w).2 = w
        \/ exists msg, (handleUpdateProgress r path w).2 = log_Printf msg w).
Proof.
  unfold handleUpdateProgress. split.
  - intros l Hl. rewrite Hl.
    destruct (strconv_ParseFloat _) as [progress|]; simpl; [| by eauto 10].
    destruct (reverse _) as [| ? [| fileName ?]]; simpl; [by eauto 10 | by eauto 10 |].
    destruct (indexOfName fileName l) as [k|]; simpl; [| by eauto 10].
    eexists. split; [| split; [| left; reflexivity]].
    + rewrite (list_fmap_alter Viewed _ id); [by rewrite list_alter_id|].
      by apply Forall_forall.
    + rewrite (list_fmap_alter Name _ id); [by rewrite list_alter_id|].
      by apply Forall_forall.
  - intros e He. rewrite He. destruct (strconv_ParseFloat _); simpl; eauto.
Qed.

(** C9: along any run of the server (requests of any kind, and changes of
    the file system in between) an entry that is viewed stays viewed, under
    the same name, unless an unview request names it.  A progress-update
    request in particular leaves the slice alone, and what it saves has the
    viewed flags of the scan it made. *)
Theorem C9_viewed_is_cleared_by_unview_only (steps : list Step) :
  forall (s : Server) (i : nat) (v : VideoFile),
  srv_videoFiles s !! i = Some v -> Viewed v = true ->
  Forall (fun e => ~ unviews (Name v) e) steps ->
  (exists v', srv_videoFiles (run s steps) !! i = Some v'
     /\ Viewed v' = true /\ Name v' = Name v /\ Path v' = Path v)
  /\ (forall r, srv_videoFiles (serve (CallUpdateProgress r) s).2 = srv_videoFiles s)
  /\ (forall r l, loadVideoFiles (srv_path s) (srv_world s) = Ok l ->
        exists l', Viewed <$> l' = Viewed <$> l
          /\ ((handleUpdateProgress r (srv_path s) (srv_world s)).2
              = saveViewedVideos l' (srv_path s) (srv_world s)
              \/ store (handleUpdateProgress r (srv_path s) (srv_world s)).2
                 = store (srv_world s))).
Proof.
  intros s i v Hv Hviewed Hall. split; [| split].
  - revert s i v Hv Hviewed Hall.
    induction steps as [| e steps IH]; intros s i v Hv Hviewed Hall; [by eauto|].
    apply Forall_cons in Hall as [He Hall]. unfold run. simpl. fold (run (step s e) steps).
    assert (exists v1, srv_videoFiles (step s e) !! i = Some v1
              /\ Viewed v1 = true /\ Name v1 = Name v /\ Path v1 = Path v)
      as (v1 & Hv1 & Hviewed1 & Hn1 & Hp1).
    { destruct e as [c | w']; [by apply serve_keeps_viewed | simpl; eauto]. }
    rewrite <- Hn1 in Hall.
    destruct (IH (step s e) i v1 Hv1 Hviewed1 Hall) as (v' & Hv' & ? & ? & ?).
    exists v'. split; [done|]. split; [done|]. split; congruence.
  - intros r. simpl. by destruct (handleUpdateProgress r (srv_path s) (srv_world s)).
  - intros r l Hl.
    destruct (handleUpdateProgress_keeps_flags r (srv_path s) (srv_world s)) as [Hok _].
    destruct (Hok l Hl) as (l' & Hflags & _ & [Hsave | [Hsame | [msg Hlog]]]).
    + exists l'. split; [done|]. by left.
    + exists l'. split; [done|]. right. by rewrite Hsame.
    + exists l'. split; [done|]. right. by rewrite Hlog.
Qed.

End Handlers.

(** ** The scenarios *)







(** A progress tick for [1 - Intro.mp4] at second 42.5 is answered 200 and
    reaches the store, but the slice [main] holds keeps progress [0]; the
    next request that saves that slice (a watch request that marks
    [2 - Body.mp4]) writes the [0] over the 42.5.  And when the sidecar file
    has become unreadable as JSON, a tick that parses is answered 500 and
    records nothing. *)
Lemma C4_counterexample_tick_misses_the_served_list :
  @strconv_ParseFloat Demo.goLib "42.5" = Ok 42.5%float
  /\ @serve Demo.goLib (CallUpdateProgress Demo.progressIntro) Demo.server0
     = (WriteHeader StatusOK,
        mkServer "videos" "videos" Demo.lib0 (Demo.written Demo.docPlayed Demo.world0))
  /\ @json_Unmarshal Demo.goLib Demo.docPlayed = Ok Demo.libPlayed
  /\ Progress <$> Demo.libPlayed = [0; 42.5; 0]%float
  /\ Progress <$> Demo.lib0 = [0; 0; 0]%float
  /\ (exists resp w',
        @serve Demo.goLib (CallWatch Demo.watchIntroAfterBody)
          (mkServer "videos" "videos" Demo.lib0 (Demo.written Demo.docPlayed Demo.world0))
        = (resp, mkServer "videos" "videos" Demo.libBodyViewed w')
        /\ store w' = FileData Demo.docBodyViewed
        /\ @json_Unmarshal Demo.goLib Demo.docBodyViewed = Ok Demo.libBodyViewed
        /\ Progress <$> Demo.libBodyViewed = [0; 0; 0]%float)
  /\ (exists w',
        @serve Demo.goLib (CallUpdateProgress Demo.progressIntro)
          (mkServer "videos" "videos" Demo.lib0 (withStore (FileData "{") Demo.world0))
        = (Error "Error loading video progress" StatusInternalServerError,
           mkServer "videos" "videos" Demo.lib0 w')
        /\ store w' = FileData "{"
        /\ trace w' = [EvLog "Error loading video progress"]).
Proof.
  split; [reflexivity|]. split; [vm_compute; reflexivity|].
  split; [vm_compute; reflexivity|]. split; [reflexivity|]. split; [reflexivity|].
  split.
  - eexists _, _. split; [vm_compute; reflexivity|].
    repeat split; vm_compute; reflexivity.
  - eexists. split; [vm_compute; reflexivity|]. split; reflexivity.
Qed.

Lemma C4_witness_tick_is_saved :
  exists i v v' l',
    Demo.lib0 !! i = Some v /\ Name v = "1 - Intro.mp4"
    /\ (forall j u, (j < i)%nat -> Demo.lib0 !! j = Some u -> Name u <> "1 - Intro.mp4")
    /\ l' !! i = Some v'
    /\ Current v' = Demo.t1 /\ Progress v' = 42.5%float /\ Viewed v' = Viewed v
    /\ Name v' = Name v /\ Path v' = Path v
    /\ (forall j, j <> i -> l' !! j = Demo.lib0 !! j)
    /\ length l' = length Demo.lib0
    /\ Demo.written Demo.docPlayed Demo.world0
       = @saveViewedVideos Demo.goLib l' "videos" Demo.world0
    /\ (forall pretty, @json_roundtrip_at Demo.goLib l' pretty ->
          write_err Demo.world0 = None ->
          store (Demo.written Demo.docPlayed Demo.world0) = FileData pretty)
    /\ WriteHeader StatusOK = WriteHeader StatusOK.
Proof.
  refine (proj1 (proj2 (proj2 (proj2
    (@C4_progress_update_rescans_and_saves Demo.goLib Demo.progressIntro Demo.server0
       (WriteHeader StatusOK)
       (mkServer "videos" "videos" Demo.lib0 (Demo.written Demo.docPlayed Demo.world0)) _)))
    42.5%float Demo.lib0 "42.5" "1 - Intro.mp4" ["update-progress"; ""] _ _ _) _).
  - vm_compute. reflexivity.
  - vm_compute. reflexivity.
  - vm_compute. reflexivity.
  - vm_compute. reflexivity.
  - exists Demo.intro. split; [| reflexivity]. unfold Demo.lib0. set_solver.
Defined.

(** [ended] names [1 - Intro.mp4], which is in the library, but the path
    names a video that is not: nothing is marked and nothing is written. *)
Lemma C5_counterexample_unknown_target_marks_nothing :
  Values_Get (Query Demo.watchMissingAfterIntro) "ended" = "1 - Intro.mp4"
  /\ Demo.intro ∈ Demo.lib0
  /\ Viewed Demo.intro = false
  /\ exists data,
       @handleWatch Demo.goLib Demo.watchMissingAfterIntro Demo.lib0 "videos" "videos"
         Demo.world0
       = (Rendered data, Demo.lib0, Demo.world0).
Proof.
  split; [vm_compute; reflexivity|]. split; [unfold Demo.lib0; set_solver|].
  split; [reflexivity|]. eexists. vm_compute. reflexivity.
Qed.

Lemma C5_witness_intro_marked :
  (exists i v v',
     Demo.lib0 !! i = Some v /\ Name v = "1 - Intro.mp4"
     /\ (forall j u, (j < i)%nat -> Demo.lib0 !! j = Some u -> Name u <> "1 - Intro.mp4")
     /\ Demo.libViewed !! i = Some v'
     /\ Viewed v' = true /\ Current v' = Demo.t1 /\ Progress v' = 0%float
     /\ Name v' = Name v /\ Path v' = Path v
     /\ (forall j, j <> i -> Demo.libViewed !! j = Demo.lib0 !! j)
     /\ length Demo.libViewed = length Demo.lib0)
  /\ Demo.written Demo.docViewed Demo.world0
     = @saveViewedVideos Demo.goLib Demo.libViewed "videos" Demo.world0
  /\ (forall pretty, @json_roundtrip_at Demo.goLib Demo.libViewed pretty ->
        write_err Demo.world0 = None ->
        store (Demo.written Demo.docViewed Demo.world0) = FileData pretty)
  /\ exists data,
       Rendered {| ReadmeContent := ""; Videos := Demo.libViewed;
                   CurrentVideo := "2 - Body.mp4"; CurrentVideoFile := Some Demo.body;
                   FolderName := "videos" |} = Rendered data
       /\ Videos data = Demo.libViewed /\ CurrentVideo data = "2 - Body.mp4".
Proof.
  refine (proj1 (@C5_watch_marks_ended_video Demo.goLib Demo.watchBodyAfterIntro Demo.lib0
    "videos" "videos" Demo.world0 _ Demo.libViewed
    (Demo.written Demo.docViewed Demo.world0) _) _ _ _).
  - vm_compute. reflexivity.
  - vm_compute. discriminate.
  - exists Demo.body. split; [unfold Demo.lib0; set_solver | reflexivity].
  - exists Demo.intro. split; [unfold Demo.lib0; set_solver | reflexivity].
Defined.

(** An unview request from the player page while the directory is
    read-only.  The flag is cleared in the slice and the client is sent back
    to the player, but the store keeps the record with the flag set: the
    next start of the program lists the video as viewed again. *)
Lemma C6_counterexample_unview_is_lost_at_restart :
  exists w',
    @handleUnview Demo.goLib Demo.unviewIntroFromPlayer Demo.libViewed "videos"
      (Demo.readOnly (withStore (FileData Demo.docViewed) Demo.world0))
    = (Redirect "http://localhost:8080/watch/2%20-%20Body.mp4" StatusSeeOther,
       Demo.libUnviewed, w')
    /\ Demo.introViewed ∈ Demo.libViewed
    /\ Name Demo.introViewed
       = GoStrings.TrimPrefix (URL_Path Demo.unviewIntroFromPlayer) "/unview/"
    /\ Viewed <$> Demo.libUnviewed = [false; false; false]
    /\ store w' = FileData Demo.docViewed
    /\ @json_Unmarshal Demo.goLib Demo.docViewed = Ok Demo.libViewed
    /\ @main Demo.goLib ["videos"] w' = Serving "videos" "videos" Demo.libViewed
    /\ Viewed <$> Demo.libViewed = [false; true; false].
Proof.
  eexists. split; [vm_compute; reflexivity|].
  split; [unfold Demo.libViewed; set_solver|].
  repeat split; vm_compute; reflexivity.
Qed.

(** The same request on a disk that is full after 24 bytes: the file is
    cut, and the program does not start again. *)
Example unview_on_a_full_disk_cuts_the_store :
  exists w' e,
    @handleUnview Demo.goLib Demo.unviewIntro Demo.libViewed "videos"
      (Demo.diskFull 24 (withStore (FileData Demo.docViewed) Demo.world0))
    = (Redirect "/" StatusSeeOther, Demo.libUnviewed, w')
    /\ store w' = FileData (String.substring 0 24 Demo.docUnviewed)
    /\ trace w' = [EvWriteFile videoDataFile Demo.docUnviewed false;
                   EvLog "Error saving viewed videos"]
    /\ @main Demo.goLib ["videos"] w' = Fatal "Error loading video files" e.
Proof. eexists _, _. repeat split; vm_compute; reflexivity. Qed.


Lemma C7_witness_absent_and_malformed :
  @loadViewedVideos Demo.goLib "videos" Demo.world0 = Ok ∅
  /\ @loadViewedVideos Demo.goLib "videos" (withStore (FileData "{") Demo.world0)
     = Err "invalid character"
  /\ @loadVideoFiles Demo.goLib "videos" (withStore (FileData "{") Demo.world0)
     = Err "invalid character"
  /\ @main Demo.goLib ["videos"] (withStore (FileData "{") Demo.world0)
     = Fatal "Error loading video files" "invalid character".
Proof.
  split.
  - apply (proj1 (@C7_absent_store_is_empty_malformed_is_fatal Demo.goLib "videos"
                    Demo.world0)).
    reflexivity.
  - apply (proj2 (@C7_absent_store_is_empty_malformed_is_fatal Demo.goLib "videos"
                    (withStore (FileData "{") Demo.world0)) "{").
    + reflexivity.
    + vm_compute. reflexivity.
Defined.



Lemma C9_witness_intro_stays_viewed :
  (exists v',
     srv_videoFiles
       (@run Demo.goLib
          (mkServer "videos" "videos" Demo.libViewed (Demo.written Demo.docViewed Demo.world0))
          [Serve (CallUpdateProgress Demo.progressIntro); Outside Demo.world0;
           Serve (CallWatch Demo.watchIntroAfterBody); Serve (CallUnview Demo.unviewBody)])
       !! 1%nat = Some v'
     /\ Viewed v' = true /\ Name v' = "1 - Intro.mp4"
     /\ Path v' = "videos/1 - Intro.mp4").
Proof.
  refine (proj1 (@C9_viewed_is_cleared_by_unview_only Demo.goLib
    [Serve (CallUpdateProgress Demo.progressIntro); Outside Demo.world0;
     Serve (CallWatch Demo.watchIntroAfterBody); Serve (CallUnview Demo.unviewBody)]
    (mkServer "videos" "videos" Demo.libViewed (Demo.written Demo.docViewed Demo.world0))
    1%nat Demo.introViewed _ _ _)).
  - reflexivity.
  - reflexivity.
  - repeat constructor; simpl; try tauto. vm_compute. discriminate.
Defined.

Lemma C10_witness_permission_denied :
  @loadViewedVideos Demo.goLib "videos"
    (withStore (FileUnreadable "permission denied") Demo.world0) = Ok ∅
  /\ @loadVideoFiles Demo.goLib "videos"
       (withStore (FileUnreadable "permission denied") Demo.world0)
     = match scanned "videos" ∅ (withStore (FileUnreadable "permission denied") Demo.world0)
       with
       | (_, Some err) => Err err
       | (videoFiles, None) => Ok (@sort_Slice Demo.goLib loadVideoFiles_less videoFiles)
       end.
Proof.
  apply (@C10_unreadable_store_is_empty Demo.goLib "videos"
           (withStore (FileUnreadable "permission denied") Demo.world0) "permission denied").
  reflexivity.
Defined.

(** A tick whose value parses as not-a-number: [json.Marshal] refuses the
    slice, the refusal is logged, nothing is written, the answer is 200. *)
Example progress_NaN_is_not_saved :
  @serve Demo.goLib (CallUpdateProgress Demo.progressIntroNaN) Demo.server0
  = (WriteHeader StatusOK,
     mkServer "videos" "videos" Demo.lib0
       (log_Printf "Error marshaling video files" Demo.world0)).
Proof. vm_compute. reflexivity. Qed.

(** The scenario of the specification for a malformed tick. *)
Example progress_notanumber_is_bad_request :
  @serve Demo.goLib (CallUpdateProgress Demo.progressIntroBad) Demo.server0
  = (Error "Invalid progress value" StatusBadRequest,
     mkServer "videos" "videos" Demo.lib0
       (log_Printf "Invalid progress vaule" Demo.world0)).
Proof. vm_compute. reflexivity. Qed.

(** * Further properties *)

(** ** Strings and numerals *)

Lemma string_app_cons (c : ascii) (s t : string) :
  (String c s ++ t)%string = String c (s ++ t).
Proof. reflexivity. Qed.

Lemma string_app_nil_r (s : string) : (s ++ "")%string = s.
Proof. induction s as [| c s IH]; [done|]. by rewrite string_app_cons, IH. Qed.

Lemma string_app_assoc (a b c : string) : ((a ++ b) ++ c)%string = (a ++ (b ++ c))%string.
Proof. induction a as [| x a IH]; [done|]. by rewrite !string_app_cons, IH. Qed.

Lemma rev_string_rev_string (s : string) : forall a b,
  GoStrings.rev_string (GoStrings.rev_string s a) b = GoStrings.rev_string a (s ++ b).
Proof.
  induction s as [| c s IH]; intros a b; [done|].
  cbn [GoStrings.rev_string]. by rewrite IH, string_app_cons.
Qed.

Lemma rev_string_involutive (s : string) :
  GoStrings.rev_string (GoStrings.rev_string s "") "" = s.
Proof.
  rewrite rev_string_rev_string. cbn [GoStrings.rev_string]. apply string_app_nil_r.
Qed.

Lemma allPlain_rev_string (s : string) : forall acc,
  allPlain s = true -> allPlain acc = true -> allPlain (GoStrings.rev_string s acc) = true.
Proof.
  induction s as [| c s IH]; intros acc Hs Hacc; [done|].
  simpl in *. apply andb_prop in Hs as [Hc Hs]. apply IH; [done|]. simpl. by rewrite Hc.
Qed.

Lemma rev_string_not_empty (s : string) : forall acc,
  acc <> "" -> GoStrings.rev_string s acc <> "".
Proof. induction s as [| c s IH]; intros acc Hacc; [done|]. simpl. by apply IH. Qed.

(** No white space rune starts with a plain byte, and none ends with one. *)
Lemma leading_space_plain (c : ascii) (s : string) :
  plain c = true ->
  GoStrings.leading_space GoStrings.space_runes (String c s) = O
  /\ GoStrings.leading_space
       (map (fun x => GoStrings.rev_string x EmptyString) GoStrings.space_runes)
       (String c s) = O.
Proof.
  destruct c as [[] [] [] [] [] [] [] []]; intros Hc; try discriminate Hc;
    split; reflexivity.
Qed.

Lemma trim_left_plain runes fuel c s :
  GoStrings.leading_space runes (String c s) = O ->
  GoStrings.trim_left runes fuel (String c s) = String c s.
Proof. intros Hl. destruct fuel; [done|]. simpl. by rewrite Hl. Qed.

(** [strings.TrimSpace] leaves text of plain bytes alone. *)
Lemma TrimSpace_plain (s : string) : allPlain s = true -> GoStrings.TrimSpace s = s.
Proof.
  intros Hs. destruct s as [| c s]; [done|].
  unfold GoStrings.TrimSpace.
  pose proof Hs as Hc. simpl in Hc. apply andb_prop in Hc as [Hc _].
  rewrite (trim_left_plain _ _ c s (proj1 (leading_space_plain c s Hc))).
  cbv zeta.
  pose proof (allPlain_rev_string (String c s) "" Hs eq_refl) as Hrev.
  destruct (GoStrings.rev_string (String c s) "") as [| c' s'] eqn:Hr.
  { exfalso. simpl in Hr. by apply (rev_string_not_empty s (String c "")) in Hr. }
  simpl in Hrev. apply andb_prop in Hrev as [Hc' _].
  rewrite (trim_left_plain _ _ c' s' (proj2 (leading_space_plain c' s' Hc'))).
  rewrite <- Hr. apply rev_string_involutive.
Qed.

(** The first piece [strings.Split] cuts off at [" - "], when no blank
    comes before it. *)
Lemma split_from_plain (a : string) : forall rest part,
  allPlain a = true ->
  hd "" (GoStrings.split_from " - " (a ++ " - " ++ rest) O part) = (part ++ a)%string.
Proof.
  induction a as [| c a IH]; intros rest part Ha.
  - rewrite string_app_nil_r. by destruct rest.
  - simpl in Ha. apply andb_prop in Ha as [Hc Ha].
    rewrite string_app_cons. cbn [GoStrings.split_from].
    assert (GoStrings.HasPrefix (String c (a ++ " - " ++ rest)) " - " = false) as ->.
    { cbn [GoStrings.HasPrefix].
      destruct (Ascii.eqb_spec " " c) as [<- | Hne]; [discriminate Hc | done]. }
    rewrite IH by done. by rewrite string_app_assoc.
Qed.

Lemma Split_numbered (a rest : string) :
  allPlain a = true -> hd "" (GoStrings.Split (a ++ " - " ++ rest) " - ") = a.
Proof. intros Ha. unfold GoStrings.Split. by rewrite split_from_plain. Qed.

(** *** Numerals *)

Lemma digit_char (k : Z) :
  0 <= k < 10 ->
  Z.of_nat (nat_of_ascii (ascii_of_nat (Z.to_nat (48 + k)))) - 48 = k
  /\ plain (ascii_of_nat (Z.to_nat (48 + k))) = true.
Proof.
  intros Hk.
  assert (k = 0 \/ k = 1 \/ k = 2 \/ k = 3 \/ k = 4 \/ k = 5 \/ k = 6 \/ k = 7 \/ k = 8 \/ k = 9)
    as Hcases by lia.
  repeat (destruct Hcases as [-> | Hcases]; [split; reflexivity|]). subst. split; reflexivity.
Qed.

Lemma formatDecimal_allPlain fuel : forall u acc,
  0 <= u -> allPlain acc = true -> allPlain (formatDecimal fuel u acc) = true.
Proof.
  induction fuel as [| fuel IH]; intros u acc Hu Hacc; [done|].
  cbn [formatDecimal].
  pose proof (digit_char (u mod 10) (Z.mod_pos_bound u 10 ltac:(lia))) as [_ Hp].
  destruct (u <? 10).
  - simpl. by rewrite Hp.
  - apply IH; [apply Z.div_pos; lia|]. simpl. by rewrite Hp.
Qed.

Lemma Itoa_allPlain (i : Z) : allPlain (Itoa i) = true.
Proof.
  unfold Itoa. destruct (Z.ltb_spec i 0).
  - change (allPlain (String "-" ?s)) with (allPlain s).
    apply formatDecimal_allPlain; [lia | done].
  - apply formatDecimal_allPlain; [lia | done].
Qed.

(** The digit loop of [strconv.Atoi] reads back what [formatDecimal]
    wrote. *)
Lemma digits_formatDecimal fuel : forall u acc,
  0 <= u <= GoStrconv.maxUint64 -> u < 10 ^ Z.of_nat fuel ->
  GoStrconv.digits (formatDecimal fuel u acc) 0 = GoStrconv.digits acc u.
Proof.
  induction fuel as [| fuel IH]; intros u acc Hu Hfuel.
  - simpl in Hfuel. assert (u = 0) as -> by lia. done.
  - cbn [formatDecimal].
    pose proof (Z.mod_pos_bound u 10 ltac:(lia)) as Hmod.
    pose proof (Z.div_mod u 10 ltac:(lia)) as Hdiv.
    pose proof (digit_char (u mod 10) Hmod) as [Hd _].
    destruct (Z.ltb_spec u 10) as [Hsmall | Hbig].
    + cbn [GoStrconv.digits]. cbv zeta. rewrite Hd.
      rewrite Z.mod_small by lia.
      destruct (Z.leb_spec 0 u); [| lia]. destruct (Z.leb_spec u 9); [| lia]. simpl.
      replace (0 * 10 + u) with u by lia.
      destruct (Z.ltb_spec GoStrconv.maxUint64 u); [lia | done].
    + rewrite IH.
      * cbn [GoStrconv.digits]. cbv zeta. rewrite Hd.
        destruct (Z.leb_spec 0 (u mod 10)); [| lia].
        destruct (Z.leb_spec (u mod 10) 9); [| lia]. simpl.
        replace (u / 10 * 10 + u mod 10) with u by lia.
        destruct (Z.ltb_spec GoStrconv.maxUint64 u); [lia | done].
      * split; [apply Z.div_pos; lia|].
        apply Z.le_trans with u; [| lia]. apply Z.div_le_upper_bound; lia.
      * apply Z.div_lt_upper_bound; [lia|].
        rewrite Nat2Z.inj_succ, Z.pow_succ_r in Hfuel by lia. lia.
Qed.

Lemma digit_char_isDigit (k : Z) :
  0 <= k < 10 -> isDigit (ascii_of_nat (Z.to_nat (48 + k))) = true.
Proof.
  intros Hk.
  assert (k = 0 \/ k = 1 \/ k = 2 \/ k = 3 \/ k = 4 \/ k = 5 \/ k = 6 \/ k = 7 \/ k = 8 \/ k = 9)
    as Hcases by lia.
  repeat (destruct Hcases as [-> | Hcases]; [reflexivity|]). by subst.
Qed.

Lemma isDigit_no_sign (c : ascii) :
  isDigit c = true -> Ascii.eqb c "-" = false /\ Ascii.eqb c "+" = false.
Proof.
  destruct c as [[] [] [] [] [] [] [] []]; intros Hc; try discriminate Hc; split; reflexivity.
Qed.

(** A numeral starts with a digit. *)
Lemma formatDecimal_head fuel : forall u acc,
  0 <= u -> exists c s, formatDecimal (S fuel) u acc = String c s /\ isDigit c = true.
Proof.
  induction fuel as [| fuel IH]; intros u acc Hu.
  - cbn [formatDecimal]. eexists _, _.
    split; [by destruct (u <? 10)|]. apply digit_char_isDigit, Z.mod_pos_bound. lia.
  - change (formatDecimal (S (S fuel)) u acc)
      with (let acc := String (ascii_of_nat (Z.to_nat (48 + u mod 10))) acc in
            if u <? 10 then acc else formatDecimal (S fuel) (u / 10) acc).
    cbv zeta. destruct (u <? 10).
    + eexists _, _. split; [done|]. apply digit_char_isDigit, Z.mod_pos_bound. lia.
    + apply IH, Z.div_pos; lia.
Qed.

(** [strconv.Atoi] reads back what [strconv.Itoa] wrote. *)
Lemma Atoi_Itoa (i : Z) :
  GoStrconv.minInt64 <= i <= GoStrconv.maxInt64 -> GoStrconv.Atoi (Itoa i) = (i, true).
Proof.
  unfold GoStrconv.minInt64, GoStrconv.maxInt64. intros Hi. unfold Itoa.
  destruct (Z.ltb_spec i 0) as [Hneg | Hpos].
  - destruct (formatDecimal_head 19 (- i) "" ltac:(lia)) as (c & s & Hs & Hc).
    unfold GoStrconv.Atoi. cbn [Ascii.eqb Bool.eqb orb].
    rewrite Hs, <- Hs.
    rewrite digits_formatDecimal by (unfold GoStrconv.maxUint64; simpl; lia).
    cbn [GoStrconv.digits negb andb].
    unfold GoStrconv.minInt64.
    destruct (Z.ltb_spec (- - 2 ^ 63) (- i)); [lia|]. f_equal. lia.
  - destruct (formatDecimal_head 19 i "" ltac:(lia)) as (c & s & Hs & Hc).
    destruct (isDigit_no_sign c Hc) as [Hminus Hplus].
    unfold GoStrconv.Atoi. rewrite Hs, Hminus, Hplus. cbn [orb negb andb].
    rewrite <- Hs.
    rewrite digits_formatDecimal by (unfold GoStrconv.maxUint64; simpl; lia).
    cbn [GoStrconv.digits]. unfold GoStrconv.maxInt64.
    destruct (Z.ltb_spec (2 ^ 63 - 1) i); [lia | done].
Qed.

Lemma digits_range (s : string) : forall n m,
  0 <= n <= GoStrconv.maxUint64 -> GoStrconv.digits s n = GoStrconv.ScanOk m ->
  0 <= m <= GoStrconv.maxUint64.
Proof.
  induction s as [| c s IH]; intros n m Hn Hm; simpl in Hm.
  - by injection Hm as <-.
  - destruct (_ && _) eqn:Hd; [| done]. apply andb_prop in Hd as [Hd0 Hd9].
    apply Z.leb_le in Hd0, Hd9.
    destruct (Z.ltb_spec GoStrconv.maxUint64
                (n * 10 + (Z.of_nat (nat_of_ascii c) - 48))); [done|].
    eapply IH; [| exact Hm]. lia.
Qed.

Lemma Atoi_range (s : string) :
  GoStrconv.minInt64 <= (GoStrconv.Atoi s).1 <= GoStrconv.maxInt64
  /\ ((GoStrconv.Atoi s).2 = false ->
      (GoStrconv.Atoi s).1 = 0 \/ (GoStrconv.Atoi s).1 = GoStrconv.maxInt64
      \/ (GoStrconv.Atoi s).1 = GoStrconv.minInt64).
Proof.
  assert (GoStrconv.minInt64 <= 0 <= GoStrconv.maxInt64) as Hzero by done.
  assert (GoStrconv.minInt64 <= GoStrconv.maxInt64) as Hle by done.
  unfold GoStrconv.Atoi. destruct s as [| c s]; [by auto|].
  destruct (if Ascii.eqb c "-" || Ascii.eqb c "+" then s else String c s) as [| c' s'] eqn:Hbody;
    [by auto|].
  destruct (GoStrconv.digits (String c' s') 0) as [un | |] eqn:Hd; [| by auto |].
  - apply digits_range in Hd as Hun; [| by unfold GoStrconv.maxUint64].
    destruct (Ascii.eqb c "-"); cbn [negb andb].
    + destruct (Z.ltb_spec (- GoStrconv.minInt64) un); simpl; [split; [lia | by auto]|].
      split; [| done]. unfold GoStrconv.minInt64, GoStrconv.maxInt64 in *. lia.
    + destruct (Z.ltb_spec GoStrconv.maxInt64 un); simpl; [split; [lia | by auto]|].
      split; [| done]. unfold GoStrconv.minInt64, GoStrconv.maxInt64 in *. lia.
  - destruct (Ascii.eqb c "-"); simpl; (split; [lia | by auto]).
Qed.

(** X1: a name that starts with the numeral of a 64-bit integer, followed
    by [" - "], has that integer for its key, so such names compare as
    their numbers do. *)
Theorem X1_numbered_names_compare_by_number (m n : Z) (restM restN : string) :
  GoStrconv.minInt64 <= m <= GoStrconv.maxInt64 ->
  GoStrconv.minInt64 <= n <= GoStrconv.maxInt64 ->
  orderKey (Itoa m ++ " - " ++ restM) = m
  /\ forall vi vj,
       Name vi = (Itoa m ++ " - " ++ restM)%string ->
       Name vj = (Itoa n ++ " - " ++ restN)%string ->
       loadVideoFiles_less vi vj = (m <? n).
Proof.
  intros Hm Hn.
  assert (forall i rest, GoStrconv.minInt64 <= i <= GoStrconv.maxInt64 ->
            orderKey (Itoa i ++ " - " ++ rest) = i) as Hkey.
  { intros i rest Hi. unfold orderKey.
    rewrite Split_numbered by apply Itoa_allPlain.
    rewrite TrimSpace_plain by apply Itoa_allPlain.
    by rewrite Atoi_Itoa. }
  split; [by apply Hkey|].
  intros vi vj Hvi Hvj. unfold loadVideoFiles_less. rewrite Hvi, Hvj.
  by rewrite !Hkey.
Qed.

(** X2: the key of any name is a 64-bit integer, and a name whose leading
    piece is no number is not refused: its key is [0], or the nearest
    bound when the number does not fit. *)
Theorem X2_order_key_of_any_name (name : string) :
  let lead := GoStrings.TrimSpace (hd "" (GoStrings.Split name " - ")) in
  GoStrconv.minInt64 <= orderKey name <= GoStrconv.maxInt64
  /\ ((GoStrconv.Atoi lead).2 = false ->
      orderKey name = 0 \/ orderKey name = GoStrconv.maxInt64
      \/ orderKey name = GoStrconv.minInt64).
Proof. intros lead. apply Atoi_range. Qed.

Lemma X1_witness_nine_before_ten :
  orderKey "9 - I.mp4" = 9
  /\ forall vi vj, Name vi = "9 - I.mp4" -> Name vj = "10 - J.mp4" ->
       loadVideoFiles_less vi vj = true.
Proof.
  apply (X1_numbered_names_compare_by_number 9 10 "I.mp4" "J.mp4"); vm_compute; done.
Defined.

(** ** Paths and names *)

Lemma HasPrefix_nil (s : string) : GoStrings.HasPrefix s "" = true.
Proof. by destruct s. Qed.

(** [strings.TrimPrefix] takes off what was put in front. *)
Lemma TrimPrefix_app (prefix s : string) : GoStrings.TrimPrefix (prefix ++ s) prefix = s.
Proof.
  unfold GoStrings.TrimPrefix.
  assert (GoStrings.HasPrefix (prefix ++ s) prefix = true
          /\ GoStrings.drop_bytes (String.length prefix) (prefix ++ s) = s) as [-> ->]; [| done].
  induction prefix as [| c prefix [IH1 IH2]]; [split; [apply HasPrefix_nil | done]|].
  rewrite string_app_cons. simpl. by rewrite Ascii.eqb_refl.
Qed.

Lemma split_slash_plain (a : string) : forall part,
  hasSlash a = false -> GoStrings.split_from "/" a O part = [(part ++ a)%string].
Proof.
  induction a as [| c a IH]; intros part Ha; [by rewrite string_app_nil_r|].
  simpl in Ha. apply orb_false_elim in Ha as [Hc Ha].
  cbn [GoStrings.split_from GoStrings.HasPrefix].
  unfold GoFilepath.is_sep in Hc. rewrite Ascii.eqb_sym, Hc.
  rewrite IH by done. by rewrite string_app_assoc.
Qed.

Lemma split_slash_app (a : string) : forall rest part,
  hasSlash a = false ->
  GoStrings.split_from "/" (a ++ "/" ++ rest) O part
  = (part ++ a)%string :: GoStrings.split_from "/" rest O "".
Proof.
  induction a as [| c a IH]; intros rest part Ha.
  - rewrite string_app_nil_r. change ("" ++ "/" ++ rest)%string with (String "/" rest).
    cbn [GoStrings.split_from GoStrings.HasPrefix Ascii.eqb Bool.eqb].
    by rewrite HasPrefix_nil.
  - simpl in Ha. apply orb_false_elim in Ha as [Hc Ha].
    rewrite string_app_cons. cbn [GoStrings.split_from GoStrings.HasPrefix].
    unfold GoFilepath.is_sep in Hc. rewrite Ascii.eqb_sym, Hc.
    rewrite IH by done. by rewrite string_app_assoc.
Qed.

(** The path of a progress request in its four pieces. *)
Lemma Split_progress_path (name secs : string) :
  hasSlash name = false -> hasSlash secs = false ->
  GoStrings.Split ("/update-progress/" ++ name ++ "/" ++ secs) "/"
  = [""; "update-progress"; name; secs].
Proof.
  intros Hname Hsecs. unfold GoStrings.Split.
  change ("/update-progress/" ++ name ++ "/" ++ secs)%string
    with ("" ++ "/" ++ ("update-progress" ++ "/" ++ (name ++ "/" ++ secs)))%string.
  rewrite !split_slash_app by done. by rewrite split_slash_plain.
Qed.

(** A path that starts with a slash has two pieces at least. *)
Lemma Split_rooted (s : string) :
  exists final fileName rest,
    reverse (GoStrings.Split (String "/" s) "/") = final :: fileName :: rest.
Proof.
  unfold GoStrings.Split.
  cbn [GoStrings.split_from GoStrings.HasPrefix Ascii.eqb Bool.eqb].
  rewrite HasPrefix_nil. simpl Nat.pred.
  pose proof (split_from_not_nil "/" s O "") as Hne.
  destruct (GoStrings.split_from "/" s O "") as [| x l] using rev_ind; [done|].
  rewrite app_comm_cons, reverse_snoc.
  destruct (reverse ("" :: l)) as [| y l'] eqn:Hr; [| by eauto].
  apply (f_equal length) in Hr. rewrite length_reverse in Hr. done.
Qed.

(** *** Names of files the scanner accepts *)

Lemma hasSlash_rev_string (s : string) : forall acc,
  hasSlash (GoStrings.rev_string s acc) = hasSlash s || hasSlash acc.
Proof.
  induction s as [| c s IH]; intros acc; [done|].
  cbn [GoStrings.rev_string]. rewrite IH. simpl. by destruct (GoFilepath.is_sep c), (hasSlash s).
Qed.

Lemma hasSlash_lastElemRev (r : string) : hasSlash (lastElemRev r) = false.
Proof.
  induction r as [| c r IH]; [done|]. simpl.
  destruct (GoFilepath.is_sep c) eqn:Hc; [done|]. simpl. by rewrite Hc.
Qed.

Lemma last_elem_rev_lastElemRev (r : string) : forall acc,
  GoFilepath.last_elem_rev r acc = GoStrings.rev_string (lastElemRev r) acc.
Proof.
  induction r as [| c r IH]; intros acc; [done|]. simpl.
  destruct (GoFilepath.is_sep c); [done|]. apply IH.
Qed.

Lemma ext_rev_lastElemRev (r : string) : forall acc,
  GoFilepath.ext_rev (lastElemRev r) acc = GoFilepath.ext_rev r acc.
Proof.
  induction r as [| c r IH]; intros acc; [done|]. simpl.
  destruct (GoFilepath.is_sep c) eqn:Hc; [done|]. simpl. rewrite Hc.
  destruct (Ascii.eqb c "."); [done|]. apply IH.
Qed.

(** A path with an extension ends in an element that is not empty; its
    base name is that element, which has the same extension. *)
Lemma Base_of_Ext (p : string) :
  GoFilepath.Ext p <> "" ->
  GoFilepath.Base p <> "" /\ hasSlash (GoFilepath.Base p) = false
  /\ GoFilepath.Ext (GoFilepath.Base p) = GoFilepath.Ext p.
Proof.
  unfold GoFilepath.Ext, GoFilepath.Base. intros Hext.
  destruct p as [| c0 p0]; [done|].
  set (p := String c0 p0) in *.
  destruct (GoStrings.rev_string p "") as [| c r] eqn:Hr; [done|].
  cbn [GoFilepath.ext_rev] in Hext.
  destruct (GoFilepath.is_sep c) eqn:Hc; [done|].
  cbn [GoFilepath.strip_seps]. rewrite Hc.
  rewrite last_elem_rev_lastElemRev.
  pose proof (ext_rev_lastElemRev (String c r) "") as Hsame.
  pose proof (hasSlash_lastElemRev (String c r)) as Hslash.
  cbn [lastElemRev] in *. rewrite Hc in *.
  set (e := String c (lastElemRev r)) in *.
  assert (GoStrings.rev_string e "" <> "") as Hne.
  { unfold e. cbn [GoStrings.rev_string]. by apply rev_string_not_empty. }
  destruct (GoStrings.rev_string e "") as [| c1 b] eqn:Hb; [done|].
  rewrite <- Hb. split; [by rewrite Hb|]. split.
  - by rewrite hasSlash_rev_string, Hslash.
  - rewrite rev_string_involutive. rewrite Hsame. cbn [GoFilepath.ext_rev]. by rewrite Hc.
Qed.

Lemma allowed_Ext (p : string) : allowed p = true -> GoFilepath.Ext p <> "".
Proof. unfold allowed. intros Hal Hext. rewrite Hext in Hal. done. Qed.

Section Names.
Context `{GoLib}.

(** X3: every entry of a scanned library has a name that is not empty,
    holds no slash and itself ends in an accepted extension; so the sidecar
    file is never one of the entries. *)
Theorem X3_entry_names_are_file_names :
  sort_permutes ->
  forall path w l, loadVideoFiles path w = Ok l ->
    forall v, v ∈ l ->
      Name v <> "" /\ hasSlash (Name v) = false /\ allowed (Name v) = true
      /\ Name v <> videoDataFile.
Proof.
  intros Hperm path w l (vv & _ & _ & ->)%loadVideoFiles_Ok v Hv.
  rewrite (Hperm loadVideoFiles_less _) in Hv.
  apply elem_of_scanEntries in Hv as (p & _ & Hal & ->).
  change (Name (entryOf vv p)) with (GoFilepath.Base p).
  destruct (Base_of_Ext p (allowed_Ext p Hal)) as (Hne & Hslash & Hext).
  assert (allowed (GoFilepath.Base p) = true) as Hal'.
  { unfold allowed in *. by rewrite Hext. }
  repeat (split; [done|]). intros Heq. by rewrite Heq in Hal'.
Qed.

(** X4: a request the server routes to the progress handler has a path
    that starts with the pattern, so the handler finds the two pieces it
    indexes and answers 200, 400 or 500. *)
Theorem X4_progress_request_is_always_answered (r : Request) (path : string) (w : World) :
  GoStrings.HasPrefix (URL_Path r) "/update-progress/" = true ->
  status (handleUpdateProgress r path w).1 = Some StatusOK
  \/ status (handleUpdateProgress r path w).1 = Some StatusBadRequest
  \/ status (handleUpdateProgress r path w).1 = Some StatusInternalServerError.
Proof.
  intros Hprefix. unfold handleUpdateProgress.
  destruct (URL_Path r) as [| c s]; [done|].
  cbn [GoStrings.HasPrefix] in Hprefix.
  destruct (Ascii.eqb_spec "/" c) as [<- | Hne]; [| done].
  destruct (Split_rooted s) as (final & fileName & rest & ->).
  destruct (strconv_ParseFloat _); [| by auto].
  destruct (loadVideoFiles path w) as [l |]; [| by auto].
  destruct (indexOfName fileName l); by auto.
Qed.

(** X5: of the path [/update-progress/<name>/<seconds>] the handler reads
    the name and the seconds when neither holds a slash: it answers 400
    exactly when the seconds do not parse, and when they parse and the
    fresh scan has the name, it saves the scan with the first entry of
    that name updated. *)
Theorem X5_progress_request_names_file_and_seconds
    (name secs : string) (query : Values) (referer path : string) (w : World) :
  hasSlash name = false -> hasSlash secs = false ->
  let r := {| URL_Path := "/update-progress/" ++ name ++ "/" ++ secs;
              Query := query; Referer := referer |} in
  GoStrings.Split (URL_Path r) "/" = [""; "update-progress"; name; secs]
  /\ (status (handleUpdateProgress r path w).1 = Some StatusBadRequest
      <-> exists e, strconv_ParseFloat secs = Err e)
  /\ (forall progress l k,
        strconv_ParseFloat secs = Ok progress -> loadVideoFiles path w = Ok l ->
        indexOfName name l = Some k ->
        handleUpdateProgress r path w
        = (WriteHeader StatusOK,
           saveViewedVideos
             (alter (fun v => setProgress progress (setCurrent (now w) v)) k l) path w))
  /\ (forall progress l,
        strconv_ParseFloat secs = Ok progress -> loadVideoFiles path w = Ok l ->
        indexOfName name l = None ->
        handleUpdateProgress r path w = (WriteHeader StatusOK, w)).
Proof.
  intros Hname Hsecs r.
  pose proof (Split_progress_path name secs Hname Hsecs) as Hsplit.
  split; [done|]. unfold handleUpdateProgress. subst r. cbn [URL_Path].
  rewrite Hsplit.
  change (default "" (last [""; "update-progress"; name; secs])) with secs.
  change (reverse [""; "update-progress"; name; secs])
    with [secs; name; "update-progress"; ""].
  split; [| split].
  - destruct (strconv_ParseFloat secs) as [progress | e]; simpl.
    + split; [intros Hs | by intros [? ?]].
      destruct (loadVideoFiles path w) as [l |]; [destruct (indexOfName name l) |];
        vm_compute in Hs; discriminate Hs.
    + split; [by eauto | done].
  - intros progress l k -> -> ->. done.
  - intros progress l -> -> ->. done.
Qed.

End Names.

Lemma X3_witness_intro :
  Name Demo.intro <> "" /\ hasSlash (Name Demo.intro) = false
  /\ allowed (Name Demo.intro) = true /\ Name Demo.intro <> videoDataFile.
Proof.
  apply (@X3_entry_names_are_file_names Demo.goLib goLib_sort_permutes
           "videos" Demo.world0 Demo.lib0).
  - vm_compute. reflexivity.
  - unfold Demo.lib0. set_solver.
Defined.

Lemma X4_witness_tick :
  status (@handleUpdateProgress Demo.goLib Demo.progressIntro "videos" Demo.world0).1
  = Some StatusOK
  \/ status (@handleUpdateProgress Demo.goLib Demo.progressIntro "videos" Demo.world0).1
     = Some StatusBadRequest
  \/ status (@handleUpdateProgress Demo.goLib Demo.progressIntro "videos" Demo.world0).1
     = Some StatusInternalServerError.
Proof.
  apply (@X4_progress_request_is_always_answered Demo.goLib). reflexivity.
Defined.

Lemma X5_witness_tick :
  GoStrings.Split "/update-progress/1 - Intro.mp4/42.5" "/"
  = [""; "update-progress"; "1 - Intro.mp4"; "42.5"]
  /\ @handleUpdateProgress Demo.goLib Demo.progressIntro "videos" Demo.world0
     = (WriteHeader StatusOK,
        @saveViewedVideos Demo.goLib Demo.libPlayed "videos" Demo.world0).
Proof.
  destruct (@X5_progress_request_names_file_and_seconds Demo.goLib
              "1 - Intro.mp4" "42.5" ∅ "" "videos" Demo.world0 eq_refl eq_refl)
    as (Hsplit & _ & Hsave & _).
  split; [exact Hsplit|].
  apply (Hsave 42.5%float Demo.lib0 1%nat); reflexivity.
Defined.

(** ** Extensions and base names *)

Lemma rev_string_app (a b : string) : forall acc,
  GoStrings.rev_string (a ++ b) acc = GoStrings.rev_string b (GoStrings.rev_string a acc).
Proof.
  induction a as [| c a IH]; intros acc; [done|].
  rewrite string_app_cons. cbn [GoStrings.rev_string]. apply IH.
Qed.

Lemma rev_string_acc (s : string) : forall acc,
  GoStrings.rev_string s acc = (GoStrings.rev_string s "" ++ acc)%string.
Proof.
  induction s as [| c s IH]; intros acc; [done|].
  cbn [GoStrings.rev_string]. rewrite IH, (IH (String c "")).
  by rewrite string_app_assoc.
Qed.

(** [filepath.Ext] on the reversed path passes over a tail without dot
    and separator. *)
Lemma ext_rev_passes (suf : string) : forall x acc,
  hasDotOrSlash suf = false ->
  GoFilepath.ext_rev (GoStrings.rev_string suf x) acc = GoFilepath.ext_rev x (suf ++ acc).
Proof.
  induction suf as [| c suf IH]; intros x acc Hsuf; [done|].
  simpl in Hsuf. apply orb_false_elim in Hsuf as [Hc Hsuf].
  apply orb_false_elim in Hc as [Hsep Hdot].
  cbn [GoStrings.rev_string]. rewrite IH by done.
  cbn [GoFilepath.ext_rev]. by rewrite Hsep, Hdot, string_app_cons.
Qed.

Lemma Ext_app (stem suf : string) :
  hasDotOrSlash suf = false -> GoFilepath.Ext (stem ++ String "." suf) = String "." suf.
Proof.
  intros Hsuf. unfold GoFilepath.Ext. rewrite rev_string_app.
  cbn [GoStrings.rev_string]. rewrite ext_rev_passes by done.
  cbn [GoFilepath.ext_rev GoFilepath.is_sep Ascii.eqb Bool.eqb]. by rewrite string_app_nil_r.
Qed.

(** The extension is what the path ends with. *)
Lemma ext_rev_suffix (r : string) : forall acc,
  exists r1 r2, r = (r1 ++ r2)%string
    /\ GoFilepath.ext_rev r acc = GoStrings.rev_string r1 acc \/ GoFilepath.ext_rev r acc = "".
Proof.
  induction r as [| c r IH]; intros acc; [by exists "", ""; right|].
  cbn [GoFilepath.ext_rev]. destruct (GoFilepath.is_sep c); [by exists "", ""; right|].
  destruct (Ascii.eqb c ".").
  - exists (String c ""), r. by left.
  - destruct (IH (String c acc)) as (r1 & r2 & [[-> Hr] | Hr]); [| by exists "", ""; right].
    exists (String c r1), r2. left. by rewrite string_app_cons.
Qed.

Lemma Ext_suffix (p : string) : exists stem, p = (stem ++ GoFilepath.Ext p)%string.
Proof.
  unfold GoFilepath.Ext.
  destruct (ext_rev_suffix (GoStrings.rev_string p "") "") as (r1 & r2 & [[Hr ->] | ->]).
  - exists (GoStrings.rev_string r2 "").
    rewrite <- (rev_string_involutive p) at 1. rewrite Hr, rev_string_app.
    apply rev_string_acc.
  - exists p. by rewrite string_app_nil_r.
Qed.

(** *** Bytes and runes *)

Ltac divmod := Z.div_mod_to_equations; lia.

Lemma byte_val_range (c : ascii) : 0 <= GoStrings.byte_val c < 256.
Proof. unfold GoStrings.byte_val. pose proof (nat_ascii_bounded c). lia. Qed.

Lemma byte_val_of (b : Z) : 0 <= b < 256 -> GoStrings.byte_val (GoStrings.byte_of b) = b.
Proof.
  intros Hb. unfold GoStrings.byte_val, GoStrings.byte_of.
  rewrite nat_ascii_embedding by lia. lia.
Qed.

(** A byte from 128 on is neither the dot nor the separator. *)
Lemma high_byte_plain (c : ascii) :
  128 <= GoStrings.byte_val c -> GoFilepath.is_sep c || Ascii.eqb c "." = false.
Proof.
  intros Hc. unfold GoFilepath.is_sep.
  destruct (Ascii.eqb_spec c "/") as [-> | _]; [by vm_compute in Hc|].
  destruct (Ascii.eqb_spec c ".") as [-> | _]; [by vm_compute in Hc | done].
Qed.

Lemma lor_below (a b n : Z) : 0 <= n -> 0 <= a < 2 ^ n -> 0 <= b < 2 ^ n -> 0 <= Z.lor a b < 2 ^ n.
Proof.
  intros Hn Ha Hb. split; [apply Z.lor_nonneg; lia|].
  destruct (Z.eq_dec (Z.lor a b) 0) as [-> | Hne]; [lia|].
  assert (0 < Z.lor a b) as Hpos by (pose proof (proj2 (Z.lor_nonneg a b)); lia).
  apply Z.log2_lt_pow2; [done|]. rewrite Z.log2_lor by lia.
  destruct (Z.eq_dec a 0) as [-> | Ha0], (Z.eq_dec b 0) as [-> | Hb0].
  - done.
  - rewrite Z.max_r by (simpl; apply Z.log2_nonneg). apply Z.log2_lt_pow2; lia.
  - rewrite Z.max_l by (simpl; apply Z.log2_nonneg). apply Z.log2_lt_pow2; lia.
  - apply Z.max_lub_lt; apply Z.log2_lt_pow2; lia.
Qed.

Lemma lor_above (a b n : Z) :
  0 <= n -> 0 <= a -> 0 <= b -> 2 ^ n <= a \/ 2 ^ n <= b -> 2 ^ n <= Z.lor a b.
Proof.
  intros Hn Ha Hb Hab.
  assert (0 < 2 ^ n) as Hpow by (apply Z.pow_pos_nonneg; lia).
  assert (0 <= Z.lor a b) as Hnn by (apply Z.lor_nonneg; lia).
  assert (n <= Z.log2 (Z.lor a b)) as Hlog.
  { rewrite Z.log2_lor by lia. destruct Hab as [H | H].
    - apply Z.max_le_iff. left. apply Z.log2_le_pow2; lia.
    - apply Z.max_le_iff. right. apply Z.log2_le_pow2; lia. }
  destruct (Z.eq_dec (Z.lor a b) 0) as [H0 | Hne].
  - rewrite H0 in Hlog. simpl in Hlog.
    apply Z.lor_eq_0_iff in H0 as [-> ->]. lia.
  - apply Z.log2_le_pow2; lia.
Qed.

Lemma land_63 (x : Z) : Z.land x 63 = x mod 64.
Proof. change 63 with (Z.ones 6). by rewrite Z.land_ones. Qed.

Lemma land_31 (x : Z) : Z.land x 31 = x mod 32.
Proof. change 31 with (Z.ones 5). by rewrite Z.land_ones. Qed.

Lemma land_15 (x : Z) : Z.land x 15 = x mod 16.
Proof. change 15 with (Z.ones 4). by rewrite Z.land_ones. Qed.

Lemma land_7 (x : Z) : Z.land x 7 = x mod 8.
Proof. change 7 with (Z.ones 3). by rewrite Z.land_ones. Qed.

(** The bytes [utf8.AppendRune] writes from the second on, and the first
    of an encoding of several bytes, are from 128 on. *)
Lemma high_lor (k x : Z) :
  128 <= k < 256 -> 0 <= x < 256 ->
  128 <= GoStrings.byte_val (GoStrings.byte_of (Z.lor k x)).
Proof.
  intros Hk Hx.
  pose proof (lor_below k x 8 ltac:(lia) ltac:(lia) ltac:(lia)) as Hlt.
  pose proof (lor_above k x 7 ltac:(lia) ltac:(lia) ltac:(lia) ltac:(left; lia)) as Hge.
  rewrite byte_val_of; lia.
Qed.

Lemma hasDotOrSlash_app (a b : string) :
  hasDotOrSlash (a ++ b) = hasDotOrSlash a || hasDotOrSlash b.
Proof.
  induction a as [| c a IH]; [done|]. rewrite string_app_cons. simpl. rewrite IH.
  by rewrite !orb_assoc.
Qed.

Lemma encodeRune_high (l : Z) :
  128 <= l -> hasDotOrSlash (GoStrings.encodeRune l) = false /\ GoStrings.encodeRune l <> "".
Proof.
  intros Hl. unfold GoStrings.encodeRune.
  assert (forall x, 128 <= GoStrings.byte_val (GoStrings.byte_of (Z.lor 128 (Z.land x 63))))
    as Htail.
  { intros x. apply high_lor; [lia|]. rewrite land_63. divmod. }
  destruct (Z.leb_spec 0 l); [| lia]. destruct (Z.leb_spec l 127); [lia|]. simpl.
  destruct (Z.leb_spec l 2047).
  { split; [| done]. simpl. rewrite !high_byte_plain; [done | apply Htail |].
    apply high_lor; [lia|]. rewrite Z.shiftr_div_pow2 by lia. change (2 ^ 6) with 64. divmod. }
  destruct (Z.ltb_spec l 0); [lia|]. simpl.
  destruct ((1114111 <? l) || (55296 <=? l) && (l <=? 57343)) eqn:Hbad.
  { split; [vm_compute; reflexivity | done]. }
  apply orb_false_elim in Hbad as [Hmax _]. apply Z.ltb_ge in Hmax.
  destruct (Z.leb_spec l 65535).
  { split; [| done]. simpl. rewrite !high_byte_plain; [done | apply Htail | apply Htail |].
    apply high_lor; [lia|]. rewrite Z.shiftr_div_pow2 by lia. change (2 ^ 12) with 4096. divmod. }
  split; [| done]. simpl.
  rewrite !high_byte_plain; [done | apply Htail | apply Htail | apply Htail |].
  apply high_lor; [lia|]. rewrite Z.shiftr_div_pow2 by lia. change (2 ^ 18) with 262144. divmod.
Qed.

(** Above U+007F only U+0130 and U+212A have a lower-case letter below it,
    [i] and [k]. *)
Definition lowersAbove (e : Z * Z * Z * Z) : bool :=
  let '(lo, hi, _, delta) := e in
  (128 <=? lo) && ((128 <=? lo + delta) || (lo =? hi) && ((lo =? 304) || (lo =? 8490))).

Lemma unicode_ToLower_high (r : Z) :
  128 <= r ->
  128 <= GoStrings.unicode_ToLower r
  \/ (r = 304 /\ GoStrings.unicode_ToLower r = 105)
  \/ (r = 8490 /\ GoStrings.unicode_ToLower r = 107).
Proof.
  intros Hr.
  destruct (Z.eq_dec r 304) as [-> | H304]; [right; left; by vm_compute|].
  destruct (Z.eq_dec r 8490) as [-> | H8490]; [right; right; by vm_compute|].
  left. unfold GoStrings.unicode_ToLower.
  destruct (Z.leb_spec r 127); [lia|].
  destruct (List.find _ GoStrings.lowerRanges) as [[[[lo hi] stride] delta]|] eqn:Hfind; [| lia].
  apply List.find_some in Hfind as [Hin Hp].
  assert (forallb lowersAbove GoStrings.lowerRanges = true) as Hall by (vm_compute; reflexivity).
  rewrite forallb_forall in Hall. specialize (Hall _ Hin). simpl in Hall.
  apply andb_true_iff in Hp as [Hp _]. apply andb_true_iff in Hp as [Hlo Hhi].
  apply andb_true_iff in Hall as [_ Hall]. apply orb_true_iff in Hall as [Hall | Hall]; [lia|].
  apply andb_true_iff in Hall as [Heq Hor]. apply orb_true_iff in Hor. lia.
Qed.

(** A rune that does not start with an ASCII byte is above U+007F, and
    its bytes are from 128 on. *)
Lemma between_high (lo hi : Z) (c : ascii) :
  128 <= lo -> GoStrings.between lo hi c = true -> GoFilepath.is_sep c || Ascii.eqb c "." = false.
Proof.
  intros Hlo Hc. apply high_byte_plain. unfold GoStrings.between in Hc.
  apply andb_true_iff in Hc as [Hc _]. lia.
Qed.

Lemma DecodeRuneInString_high (c0 : ascii) (s1 : string) :
  128 <= GoStrings.byte_val c0 ->
  exists r w pre,
    GoStrings.DecodeRuneInString (String c0 s1) = (r, S w)
    /\ 128 <= r
    /\ String c0 s1 = (pre ++ GoStrings.drop_bytes (S w) (String c0 s1))%string
    /\ hasDotOrSlash pre = false.
Proof.
  intros Hc0. pose proof (byte_val_range c0) as Hr0.
  assert (exists r, (r, 1%nat) = (GoStrings.RuneError, 1%nat) /\ 128 <= r
            /\ String c0 s1 = (String c0 "" ++ GoStrings.drop_bytes 1 (String c0 s1))%string
            /\ hasDotOrSlash (String c0 "") = false) as Hbad.
  { exists GoStrings.RuneError. split; [done|]. split; [by vm_compute|]. split; [done|].
    simpl. by rewrite (high_byte_plain c0 Hc0). }
  destruct Hbad as (rb & Hrb & Hrb128 & Hsb & Hpb).
  assert (forall x : Z * nat, x = (GoStrings.RuneError, 1%nat) ->
            exists r w pre, x = (r, S w) /\ 128 <= r
              /\ String c0 s1 = (pre ++ GoStrings.drop_bytes (S w) (String c0 s1))%string
              /\ hasDotOrSlash pre = false) as Herr.
  { intros x ->. exists GoStrings.RuneError, O, (String c0 ""). split; [done|].
    split; [by vm_compute|]. done. }
  unfold GoStrings.DecodeRuneInString.
  destruct (Z.ltb_spec (GoStrings.byte_val c0) 128); [lia|].
  set (s0 := GoStrings.byte_val c0) in *.
  assert (forall sz lo hi,
            (sz = 1 \/ (128 <= lo /\ hi <= 191
               /\ ((sz = 2 /\ 194 <= s0 <= 223)
                   \/ (sz = 3 /\ ((s0 = 224 /\ 160 <= lo) \/ 225 <= s0 <= 239))
                   \/ (sz = 4 /\ ((s0 = 240 /\ 144 <= lo) \/ 241 <= s0 <= 244))))) ->
            exists r w pre,
              match s1 with
              | String c1 s2 =>
                  if (sz =? 1) || negb (GoStrings.between lo hi c1)
                  then (GoStrings.RuneError, 1%nat)
                  else if sz =? 2 then
                    (Z.lor (Z.shiftl (Z.land s0 31) 6) (Z.land (GoStrings.byte_val c1) 63), 2%nat)
                  else
                    match s2 with
                    | String c2 s3 =>
                        if negb (GoStrings.between 128 191 c2) then (GoStrings.RuneError, 1%nat)
                        else if sz =? 3 then
                          (Z.lor (Z.lor (Z.shiftl (Z.land s0 15) 12)
                                        (Z.shiftl (Z.land (GoStrings.byte_val c1) 63) 6))
                                 (Z.land (GoStrings.byte_val c2) 63), 3%nat)
                        else
                          match s3 with
                          | String c3 _ =>
                              if negb (GoStrings.between 128 191 c3)
                              then (GoStrings.RuneError, 1%nat)
                              else
                                (Z.lor (Z.lor (Z.lor (Z.shiftl (Z.land s0 7) 18)
                                                     (Z.shiftl (Z.land (GoStrings.byte_val c1) 63) 12))
                                              (Z.shiftl (Z.land (GoStrings.byte_val c2) 63) 6))
                                       (Z.land (GoStrings.byte_val c3) 63), 4%nat)
                          | EmptyString => (GoStrings.RuneError, 1%nat)
                          end
                    | EmptyString => (GoStrings.RuneError, 1%nat)
                    end
              | EmptyString => (GoStrings.RuneError, 1%nat)
              end = (r, S w) /\ 128 <= r
              /\ String c0 s1 = (pre ++ GoStrings.drop_bytes (S w) (String c0 s1))%string
              /\ hasDotOrSlash pre = false) as Hgen.
  { intros sz lo hi Hsz.
    destruct s1 as [| c1 s2]; [by apply Herr|].
    destruct (Z.eqb_spec sz 1) as [-> | Hsz1]; [by apply Herr|].
    destruct Hsz as [? | (Hlo & Hhi & Hsz)]; [done|]. simpl.
    destruct (GoStrings.between lo hi c1) eqn:Hc1; [| by apply Herr]. simpl.
    pose proof (between_high lo hi c1 Hlo Hc1) as Hp1.
    pose proof (byte_val_range c1) as Hr1.
    assert (lo <= GoStrings.byte_val c1 <= hi) as Hlo1.
    { unfold GoStrings.between in Hc1. apply andb_true_iff in Hc1 as [Hc1 Hc1']. lia. }
    set (b1 := GoStrings.byte_val c1) in *.
    destruct (Z.eqb_spec sz 2) as [-> | Hsz2].
    { exists (Z.lor (Z.shiftl (Z.land s0 31) 6) (Z.land b1 63)), 1%nat, (String c0 (String c1 "")).
      split; [done|]. split; [| split; [done|]].
      - rewrite land_31, land_63, Z.shiftl_mul_pow2 by lia. change (2 ^ 6) with 64.
        apply (lor_above _ _ 7); divmod.
      - simpl. by rewrite (high_byte_plain c0 Hc0), Hp1. }
    destruct s2 as [| c2 s3]; [by apply Herr|].
    destruct (GoStrings.between 128 191 c2) eqn:Hc2; [| by apply Herr]. simpl.
    pose proof (between_high 128 191 c2 ltac:(lia) Hc2) as Hp2.
    pose proof (byte_val_range c2) as Hr2.
    set (b2 := GoStrings.byte_val c2) in *.
    destruct (Z.eqb_spec sz 3) as [-> | Hsz3].
    { eexists _, 2%nat, (String c0 (String c1 (String c2 ""))).
      split; [done|]. split; [| split; [done|]].
      - rewrite land_15, !land_63, !Z.shiftl_mul_pow2 by lia.
        change (2 ^ 6) with 64. change (2 ^ 12) with 4096.
        apply (lor_above _ _ 7); [lia | | divmod |].
        + apply Z.lor_nonneg. divmod.
        + left. apply (lor_above _ _ 7); divmod.
      - simpl. by rewrite (high_byte_plain c0 Hc0), Hp1, Hp2. }
    destruct s3 as [| c3 s4]; [by apply Herr|].
    destruct (GoStrings.between 128 191 c3) eqn:Hc3; [| by apply Herr]. simpl.
    pose proof (between_high 128 191 c3 ltac:(lia) Hc3) as Hp3.
    pose proof (byte_val_range c3) as Hr3.
    set (b3 := GoStrings.byte_val c3) in *.
    eexists _, 3%nat, (String c0 (String c1 (String c2 (String c3 "")))).
    split; [done|]. split; [| split; [done|]].
    - rewrite land_7, !land_63, !Z.shiftl_mul_pow2 by lia.
      change (2 ^ 6) with 64. change (2 ^ 12) with 4096. change (2 ^ 18) with 262144.
      apply (lor_above _ _ 7); [lia | | divmod |].
      + apply Z.lor_nonneg. split; [apply Z.lor_nonneg|]; divmod.
      + left. apply (lor_above _ _ 7); [lia | | divmod |].
        * apply Z.lor_nonneg. divmod.
        * left. apply (lor_above _ _ 7); divmod.
    - simpl. by rewrite (high_byte_plain c0 Hc0), Hp1, Hp2, Hp3. }
  set (first :=
         if (194 <=? s0) && (s0 <=? 223) then (2, 128, 191)
         else if s0 =? 224 then (3, 160, 191)
         else if (225 <=? s0) && (s0 <=? 236) then (3, 128, 191)
         else if s0 =? 237 then (3, 128, 159)
         else if (238 <=? s0) && (s0 <=? 239) then (3, 128, 191)
         else if s0 =? 240 then (4, 144, 191)
         else if (241 <=? s0) && (s0 <=? 243) then (4, 128, 191)
         else if s0 =? 244 then (4, 128, 143)
         else (1, 0, 0)).
  assert (let '(sz, lo, hi) := first in
          sz = 1 \/ (128 <= lo /\ hi <= 191
               /\ ((sz = 2 /\ 194 <= s0 <= 223)
                   \/ (sz = 3 /\ ((s0 = 224 /\ 160 <= lo) \/ 225 <= s0 <= 239))
                   \/ (sz = 4 /\ ((s0 = 240 /\ 144 <= lo) \/ 241 <= s0 <= 244)))))
    as Hfirst.
  { subst first.
    repeat match goal with
           | |- context [if ?b then _ else _] =>
               let H := fresh in destruct b eqn:H
           end; lia. }
  destruct first as [[sz lo] hi]. by apply Hgen.
Qed.

(** *** [strings.Map] and [strings.ToLower] *)

Lemma drop_bytes_length (n : nat) : forall s,
  String.length (GoStrings.drop_bytes n s) = (String.length s - n)%nat.
Proof. induction n as [| n IH]; intros [| c s]; simpl; auto. Qed.

Lemma DecodeRuneInString_width (c0 : ascii) (s1 : string) :
  exists r w, GoStrings.DecodeRuneInString (String c0 s1) = (r, S w).
Proof.
  destruct (Z.ltb_spec (GoStrings.byte_val c0) 128) as [Hlow | Hhigh].
  - unfold GoStrings.DecodeRuneInString. apply Z.ltb_lt in Hlow. rewrite Hlow. eauto.
  - destruct (DecodeRuneInString_high c0 s1 Hhigh) as (r & w & _ & -> & _). eauto.
Qed.

(** The fuel of [map_runes] is enough when it is the length of the
    string. *)
Lemma map_runes_fuel (mapping : Z -> Z) (fuel : nat) : forall fuel' s,
  (String.length s <= fuel)%nat -> (String.length s <= fuel')%nat ->
  GoStrings.map_runes fuel mapping s = GoStrings.map_runes fuel' mapping s.
Proof.
  induction fuel as [| fuel IH]; intros fuel' s Hf Hf'.
  - destruct s; [by destruct fuel' | simpl in Hf; lia].
  - destruct s as [| c0 s1]; [by destruct fuel'|].
    destruct fuel' as [| fuel']; [simpl in Hf'; lia|].
    cbn [GoStrings.map_runes].
    destruct (DecodeRuneInString_width c0 s1) as (r & w & ->).
    f_equal. apply IH; rewrite drop_bytes_length; simpl in *; lia.
Qed.

Lemma Map_cons (mapping : Z -> Z) (c0 : ascii) (s1 : string) (r : Z) (w : nat) :
  GoStrings.DecodeRuneInString (String c0 s1) = (r, S w) ->
  GoStrings.Map mapping (String c0 s1)
  = ((if (0 <=? mapping r)%Z then GoStrings.encodeRune (mapping r) else "")
     ++ GoStrings.Map mapping (GoStrings.drop_bytes (S w) (String c0 s1)))%string.
Proof.
  intros Hdec. unfold GoStrings.Map at 1. cbn [String.length GoStrings.map_runes].
  rewrite Hdec. f_equal. apply map_runes_fuel; rewrite drop_bytes_length; simpl; lia.
Qed.

Lemma unicode_ToLower_ascii (c : ascii) :
  GoStrings.byte_val c < 128 ->
  0 <= GoStrings.unicode_ToLower (GoStrings.byte_val c) <= 127
  /\ GoStrings.byte_of (GoStrings.unicode_ToLower (GoStrings.byte_val c))
     = GoStrings.lower_byte c.
Proof.
  intros Hc. pose proof (byte_val_range c) as Hr.
  unfold GoStrings.unicode_ToLower, GoStrings.lower_byte, GoStrings.byte_of.
  destruct (Z.leb_spec (GoStrings.byte_val c) 127); [| lia].
  unfold GoStrings.byte_val in *.
  destruct (Nat.leb_spec 65 (nat_of_ascii c)), (Nat.leb_spec (nat_of_ascii c) 90); simpl.
  - destruct (Z.leb_spec 65 (Z.of_nat (nat_of_ascii c))); [| lia].
    destruct (Z.leb_spec (Z.of_nat (nat_of_ascii c)) 90); [| lia]. simpl.
    split; [lia|]. f_equal. lia.
  - destruct (Z.leb_spec (Z.of_nat (nat_of_ascii c)) 90); [lia|]. rewrite andb_false_r.
    split; [lia|]. by rewrite Nat2Z.id, ascii_nat_embedding.
  - destruct (Z.leb_spec 65 (Z.of_nat (nat_of_ascii c))); [lia|]. simpl.
    split; [lia|]. by rewrite Nat2Z.id, ascii_nat_embedding.
  - lia.
Qed.

(** On a byte below 128 [strings.Map] with [unicode.ToLower] does what
    the loop for ASCII strings does. *)
Lemma Map_ToLower_ascii (c : ascii) (s : string) :
  GoStrings.byte_val c < 128 ->
  GoStrings.Map GoStrings.unicode_ToLower (String c s)
  = String (GoStrings.lower_byte c) (GoStrings.Map GoStrings.unicode_ToLower s).
Proof.
  intros Hc.
  assert (GoStrings.DecodeRuneInString (String c s) = (GoStrings.byte_val c, 1%nat)) as Hdec.
  { unfold GoStrings.DecodeRuneInString. apply Z.ltb_lt in Hc. by rewrite Hc. }
  rewrite (Map_cons _ c s _ O Hdec). cbn [GoStrings.drop_bytes].
  destruct (unicode_ToLower_ascii c Hc) as [Hl <-].
  set (l := GoStrings.unicode_ToLower (GoStrings.byte_val c)) in *.
  unfold GoStrings.encodeRune.
  destruct (Z.leb_spec 0 l); [| lia]. destruct (Z.leb_spec l 127); [| lia]. done.
Qed.

(** The two ways of [strings.ToLower] agree. *)
Lemma ToLower_Map (s : string) :
  GoStrings.ToLower s = GoStrings.Map GoStrings.unicode_ToLower s.
Proof.
  unfold GoStrings.ToLower. destruct (GoStrings.isASCII s) eqn:Hs; [| done].
  induction s as [| c s IH]; [done|]. simpl in Hs.
  apply andb_true_iff in Hs as [Hc Hs]. apply Z.ltb_lt in Hc.
  rewrite Map_ToLower_ascii by done. simpl. by rewrite IH.
Qed.

Lemma lower_byte_dot_slash (c : ascii) :
  GoFilepath.is_sep (GoStrings.lower_byte c) = GoFilepath.is_sep c
  /\ Ascii.eqb (GoStrings.lower_byte c) "." = Ascii.eqb c ".".
Proof. destruct c as [[] [] [] [] [] [] [] []]; split; reflexivity. Qed.

(** What a rune above U+007F is lowered to holds neither dot nor
    separator, and is not empty. *)
Lemma lowered_high (r : Z) :
  128 <= r ->
  exists out,
    (if 0 <=? GoStrings.unicode_ToLower r
     then GoStrings.encodeRune (GoStrings.unicode_ToLower r) else "") = out
    /\ hasDotOrSlash out = false /\ out <> "".
Proof.
  intros Hr. destruct (unicode_ToLower_high r Hr) as [Hl | [[-> ->] | [-> ->]]].
  - destruct (Z.leb_spec 0 (GoStrings.unicode_ToLower r)); [| lia].
    eexists. split; [done|]. by apply encodeRune_high.
  - by exists "i".
  - by exists "k".
Qed.

(** [strings.ToLower] neither makes nor removes a dot or a separator. *)
Lemma hasDotOrSlash_Map_ToLower (n : nat) : forall s,
  (String.length s <= n)%nat ->
  hasDotOrSlash (GoStrings.Map GoStrings.unicode_ToLower s) = hasDotOrSlash s.
Proof.
  induction n as [| n IH]; intros [| c0 s1] Hlen; try done; [simpl in Hlen; lia|].
  destruct (Z.ltb_spec (GoStrings.byte_val c0) 128) as [Hlow | Hhigh].
  - rewrite Map_ToLower_ascii by done. simpl.
    destruct (lower_byte_dot_slash c0) as [-> ->].
    rewrite IH by (simpl in Hlen; lia). done.
  - destruct (DecodeRuneInString_high c0 s1 Hhigh) as (r & w & pre & Hdec & Hr & Hpre & Hplain).
    rewrite (Map_cons _ c0 s1 r w Hdec).
    destruct (lowered_high r Hr) as (out & -> & Hout & _).
    rewrite hasDotOrSlash_app, Hout, IH by (rewrite drop_bytes_length; simpl in *; lia).
    rewrite Hpre at 2. by rewrite hasDotOrSlash_app, Hplain.
Qed.

(** A lowered text starts with a dot only when the text does. *)
Lemma Map_ToLower_dot (s t : string) :
  GoStrings.Map GoStrings.unicode_ToLower s = String "." t ->
  exists s', s = String "." s' /\ t = GoStrings.Map GoStrings.unicode_ToLower s'.
Proof.
  destruct s as [| c0 s1]; [done|].
  destruct (Z.ltb_spec (GoStrings.byte_val c0) 128) as [Hlow | Hhigh].
  - rewrite Map_ToLower_ascii by done. intros [= Hc <-].
    destruct (lower_byte_dot_slash c0) as [_ Hdot]. rewrite Hc in Hdot.
    symmetry in Hdot. apply Ascii.eqb_eq in Hdot as ->. eauto.
  - destruct (DecodeRuneInString_high c0 s1 Hhigh) as (r & w & pre & Hdec & Hr & _).
    rewrite (Map_cons _ c0 s1 r w Hdec).
    destruct (lowered_high r Hr) as (out & -> & Hout & Hne).
    destruct out as [| e out]; [done|]. rewrite string_app_cons. intros [= -> _]. done.
Qed.

Lemma extension_shape (e : string) :
  default false (videoExtensions !! GoStrings.ToLower e) = true ->
  In (GoStrings.ToLower e) [".mp4"; ".avi"; ".mkv"; ".mov"; ".wmv"; ".flv"; ".webm"]
  /\ exists suf, e = String "." suf /\ hasDotOrSlash suf = false.
Proof.
  intros He.
  assert (In (GoStrings.ToLower e) [".mp4"; ".avi"; ".mkv"; ".mov"; ".wmv"; ".flv"; ".webm"])
    as Hin.
  { destruct (videoExtensions !! GoStrings.ToLower e) as [b|] eqn:Hl; [| done].
    unfold videoExtensions in Hl. apply elem_of_list_to_map_2 in Hl.
    apply list_elem_of_In in Hl. simpl in Hl. simpl.
    repeat (destruct Hl as [[= <- _] | Hl]; [by auto 10|]). done. }
  split; [done|]. rewrite ToLower_Map in Hin.
  assert (exists t, GoStrings.Map GoStrings.unicode_ToLower e = String "." t
                    /\ hasDotOrSlash t = false) as (t & Ht & Hplain).
  { simpl in Hin. repeat (destruct Hin as [<- | Hin]; [by eauto|]). done. }
  destruct (Map_ToLower_dot e t Ht) as (suf & -> & ->). exists suf. split; [done|].
  by rewrite (hasDotOrSlash_Map_ToLower (String.length suf)) in Hplain.
Qed.

(** X6: the scanner accepts a path exactly when the path ends in a text
    that [strings.ToLower] turns into one of the seven extensions.  The
    case of the letters does not count, and neither does the difference
    between [k] and the Kelvin sign or between [i] and the dotted capital
    I, which [unicode.ToLower] lowers to them. *)
Theorem X6_accepted_means_ends_in_an_extension (p : string) :
  allowed p = true
  <-> exists stem e, p = (stem ++ e)%string
        /\ In (GoStrings.ToLower e)
             [".mp4"; ".avi"; ".mkv"; ".mov"; ".wmv"; ".flv"; ".webm"].
Proof.
  unfold allowed. split.
  - intros Hal. destruct (Ext_suffix p) as [stem Hp].
    exists stem, (GoFilepath.Ext p). split; [done|]. by apply extension_shape.
  - intros (stem & e & -> & Hin).
    assert (default false (videoExtensions !! GoStrings.ToLower e) = true) as He.
    { simpl in Hin. repeat (destruct Hin as [<- | Hin]; [reflexivity|]). done. }
    destruct (extension_shape e He) as (_ & suf & -> & Hsuf).
    by rewrite Ext_app.
Qed.

(** The Kelvin sign in the place of the [k], the dotted capital I in the
    place of the [i]. *)
Example scanner_accepts_the_Kelvin_sign :
  allowed ("videos/1 - a.m" ++ GoStrings.bytes_of [226; 132; 170]%nat ++ "v") = true
  /\ allowed ("videos/1 - a.av" ++ GoStrings.bytes_of [196; 176]%nat) = true
  /\ allowed "videos/1 - a.MP4" = true /\ allowed "videos/1 - a.mp3" = false.
Proof. vm_compute. done. Qed.

(** ** The scan and the start of the server *)

Section Startup.
Context `{GoLib}.

Lemma treeError_None_sound (n : FsNode) : treeError n = None -> treeSound n = true.
Proof.
  induction n as [name | name readErr ents IH | name e] using FsNode_nested_ind;
    intros Hn; [done | | done].
  simpl in *. destruct readErr; [done|].
  induction IH as [| c ents Hc _ IHents]; [done|].
  destruct (treeError c); [done|]. rewrite Hc by done. by apply IHents.
Qed.

Lemma walk_treeError vv (n : FsNode) : forall path acc e,
  treeError n = Some e ->
  exists acc', walk (loadVideoFiles_walkFn vv) path n acc = (acc', Some e).
Proof.
  induction n as [name | name readErr ents IH | name e0] using FsNode_nested_ind;
    intros path acc e Hn; [done | |].
  - simpl in Hn. destruct readErr as [e'|]; simpl.
    { injection Hn as <-. eauto. }
    revert acc Hn. induction IH as [| c ents Hc _ IHents]; intros acc Hn; [done|].
    destruct (treeError c) as [ec|] eqn:Hec.
    + injection Hn as <-.
      destruct (Hc (GoFilepath.Join path (node_name c)) acc ec eq_refl) as (acc' & ->).
      eauto.
    + rewrite walk_sound by (by apply treeError_None_sound). by apply IHents.
  - simpl in *. injection Hn as <-. eauto.
Qed.

(** X8: [loadVideoFiles] fails with the error of the store when the store
    does not parse, else with the first error the walk meets, and then
    returns no list, whatever the walk had collected; otherwise it returns
    the sorted entries.  [main] serves only in that last case, and only
    when it was given one argument. *)
Theorem X8_scan_stops_at_the_first_error (path : string) (w : World) :
  loadVideoFiles path w
  = match loadViewedVideos path w with
    | Err e => Err e
    | Ok vv =>
        match treeError (root w) with
        | Some e => Err e
        | None =>
            Ok (sort_Slice loadVideoFiles_less (scanEntries vv (treeFiles path (root w))))
        end
    end
  /\ main [path] w
     = match loadVideoFiles path w with
       | Err e => Fatal "Error loading video files" e
       | Ok l => Serving path (GoFilepath.Base path) l
       end
  /\ forall args, length args <> 1%nat -> main args w = Exit 1.
Proof.
  split; [| split].
  - unfold loadVideoFiles, scanned, filepath_Walk.
    destruct (loadViewedVideos path w) as [vv | e]; [| done].
    destruct (treeError (root w)) as [e|] eqn:He.
    + by destruct (walk_treeError vv (root w) path [] e He) as (acc' & ->).
    + by rewrite walk_sound by (by apply treeError_None_sound).
  - done.
  - intros [| a [| b args]] Hlen; done.
Qed.

End Startup.

(** ** What the handlers answer *)

Lemma indexOfName_alter (f : VideoFile -> VideoFile) fileName i l :
  (forall v, Name (f v) = Name v) ->
  indexOfName fileName (alter f i l) = indexOfName fileName l.
Proof.
  intros Hf. revert i. induction l as [| x l IH]; intros [| i]; simpl; try done.
  - by rewrite Hf.
  - specialize (IH i). change (alter f i l) with (list_alter f i l) in IH. by rewrite IH.
Qed.

Lemma indexOfName_le fileName l i v k :
  l !! i = Some v -> Name v = fileName -> indexOfName fileName l = Some k -> (k <= i)%nat.
Proof.
  intros Hv Hn Hk. destruct (indexOfName_Some _ _ _ Hk) as (u & Hu & _ & Hfirst).
  destruct (decide (k <= i)%nat); [done|]. exfalso. apply (Hfirst i v); [lia | done | done].
Qed.

Section Answers.
Context `{GoLib}.

(** X9: what the video route serves is a file the scan found below the
    directory, with an accepted extension, whose base name is the name
    asked for; when no such file was found it answers not-found. *)
Theorem X9_video_route_serves_scanned_files_only :
  sort_permutes ->
  forall path w l, loadVideoFiles path w = Ok l ->
  forall r,
    let fileName := GoStrings.TrimPrefix (URL_Path r) "/video/" in
    (exists p, handleVideo r l = ServeFile p /\ p ∈ treeFiles path (root w)
       /\ allowed p = true /\ GoFilepath.Base p = fileName)
    \/ (handleVideo r l = NotFound
        /\ forall p, p ∈ treeFiles path (root w) -> allowed p = true ->
             GoFilepath.Base p <> fileName).
Proof.
  intros Hperm path w l (vv & _ & _ & ->)%loadVideoFiles_Ok r fileName.
  pose proof (Hperm loadVideoFiles_less (scanEntries vv (treeFiles path (root w)))) as Hp.
  unfold handleVideo. fold fileName. rewrite findByName_indexOfName.
  destruct (indexOfName fileName _) as [i|] eqn:Hi; simpl.
  - destruct (indexOfName_Some _ _ _ Hi) as (v & Hv & Hn & _). rewrite Hv. left.
    apply list_elem_of_lookup_2 in Hv. rewrite Hp in Hv.
    apply elem_of_scanEntries in Hv as (p & Hin & Hal & ->). eauto.
  - right. split; [done|]. intros p Hin Hal Hbase.
    apply (proj1 (indexOfName_None _ _) Hi (entryOf vv p)); [| done].
    rewrite Hp. apply elem_of_scanEntries. eauto.
Qed.

End Answers.

(** X10: asked for the name of an entry, the video route serves the first
    entry of that name; an entry that shares its name with an earlier one
    is never served. *)
Theorem X10_video_route_serves_first_of_name
    (l : list VideoFile) (i : nat) (v : VideoFile) (query : Values) (referer : string) :
  l !! i = Some v ->
  exists j u, (j <= i)%nat /\ l !! j = Some u /\ Name u = Name v
    /\ (forall k x, (k < j)%nat -> l !! k = Some x -> Name x <> Name v)
    /\ handleVideo {| URL_Path := "/video/" ++ Name v; Query := query; Referer := referer |} l
       = ServeFile (Path u).
Proof.
  intros Hv. unfold handleVideo. cbn [URL_Path]. rewrite TrimPrefix_app.
  rewrite findByName_indexOfName.
  destruct (indexOfName (Name v) l) as [j|] eqn:Hj.
  - destruct (indexOfName_Some _ _ _ Hj) as (u & Hu & Hn & Hfirst).
    exists j, u. split; [exact (indexOfName_le (Name v) l i v j Hv eq_refl Hj)|].
    simpl. rewrite Hu. done.
  - exfalso. apply (proj1 (indexOfName_None _ _) Hj v); [| done].
    by eapply list_elem_of_lookup_2.
Qed.

Lemma X10_witness_second_twin :
  exists j u, (j <= 1)%nat /\ Demo.libTwins !! j = Some u /\ Name u = Name Demo.twinB
    /\ (forall k x, (k < j)%nat -> Demo.libTwins !! k = Some x -> Name x <> Name Demo.twinB)
    /\ handleVideo {| URL_Path := "/video/" ++ Name Demo.twinB; Query := ∅; Referer := "" |}
         Demo.libTwins
       = ServeFile (Path u).
Proof. apply (X10_video_route_serves_first_of_name Demo.libTwins 1 Demo.twinB). reflexivity. Defined.

Lemma X9_witness_intro :
  (exists p, handleVideo (Demo.get "/video/1 - Intro.mp4" [] "") Demo.lib0 = ServeFile p
     /\ p ∈ treeFiles "videos" (root Demo.world0)
     /\ allowed p = true /\ GoFilepath.Base p = "1 - Intro.mp4")
  \/ (handleVideo (Demo.get "/video/1 - Intro.mp4" [] "") Demo.lib0 = NotFound
      /\ forall p, p ∈ treeFiles "videos" (root Demo.world0) -> allowed p = true ->
           GoFilepath.Base p <> "1 - Intro.mp4").
Proof.
  apply (@X9_video_route_serves_scanned_files_only Demo.goLib goLib_sort_permutes
           "videos" Demo.world0 Demo.lib0).
  vm_compute. reflexivity.
Defined.

(** ** Marking and unmarking *)

Section Marks.
Context `{GoLib}.

(** X11: the page of the watch route lists the slice as the request leaves
    it, but shows as current video the first entry of the name as it was
    when the request came in.  So a request that ends the very video it
    watches lists that video as viewed, with progress [0], and still gives
    the player the entry with its old flag and progress. *)
Theorem X11_watch_page_holds_a_copy_taken_before_marking
    (r : Request) (l : list VideoFile) (folderName path : string) (w : World) :
  let fileName := GoStrings.TrimPrefix (URL_Path r) "/watch/" in
  let out := handleWatch r l folderName path w in
  exists data, out.1.1 = Rendered data
    /\ Videos data = out.1.2 /\ CurrentVideo data = fileName
    /\ FolderName data = folderName /\ ReadmeContent data = ""
    /\ CurrentVideoFile data = findByName fileName l
    /\ (forall v, findByName fileName l = Some v ->
          Values_Get (Query r) "ended" = fileName -> fileName <> "" ->
          exists i v', l !! i = Some v /\ Videos data !! i = Some v'
            /\ Name v' = fileName /\ Viewed v' = true /\ Progress v' = 0%float
            /\ Current v' = now w /\ CurrentVideoFile data = Some v).
Proof.
  intros fileName out. subst out. unfold handleWatch. fold fileName.
  destruct (negb (String.eqb (Values_Get (Query r) "ended") "")
            && bool_decide (is_Some (findByName fileName l))) eqn:Hguard.
  - destruct (markVideoAsViewed _ l path w) as [l' w'] eqn:Hmark.
    eexists. split; [done|]. repeat (split; [done|]). cbn [CurrentVideoFile Videos].
    intros v Hv Hended Hne. rewrite Hended in Hmark. unfold markVideoAsViewed in Hmark.
    rewrite findByName_indexOfName in Hv.
    destruct (indexOfName fileName l) as [i|] eqn:Hi; [| done]. simpl in Hv.
    injection Hmark as <- <-. exists i. eexists.
    split; [done|]. split; [by rewrite list_lookup_alter_eq, Hv|]. simpl.
    destruct (indexOfName_Some _ _ _ Hi) as (v0 & Hv0 & Hn & _).
    rewrite Hv in Hv0. injection Hv0 as <-. rewrite findByName_indexOfName, Hi. simpl.
    done.
  - eexists. split; [done|]. repeat (split; [done|]). cbn [CurrentVideoFile Videos].
    intros v Hv Hended Hne. exfalso. rewrite Hended, Hv in Hguard.
    destruct (String.eqb_spec fileName ""); [done|].
    rewrite bool_decide_true in Hguard by eauto. done.
Qed.

(** X12: marking a name viewed a second time changes nothing but the time
    stamp: the slice is the one a single marking at the later time leaves. *)
Theorem X12_marking_twice_is_marking_once_later
    (endedFilename : string) (l : list VideoFile) (path : string) (w1 w2 : World) :
  (markVideoAsViewed endedFilename (markVideoAsViewed endedFilename l path w1).1 path w2).1
  = (markVideoAsViewed endedFilename l path w2).1.
Proof.
  unfold markVideoAsViewed.
  destruct (indexOfName endedFilename l) as [i|] eqn:Hi; cbn [fst].
  - rewrite indexOfName_alter by done. rewrite Hi. cbn [fst].
    rewrite list_alter_alter_eq. by apply list_alter_ext.
  - by rewrite Hi.
Qed.

(** X13: an unview request after a marking does not bring back what the
    marking overwrote: the viewed flags are those an unview of the
    original slice leaves, the progress and the time stamps those of the
    marked slice (the progress of the entry stays [0]). *)
Theorem X13_unview_keeps_what_marking_wrote
    (name : string) (query : Values) (referer : string) (l : list VideoFile)
    (path : string) (w1 w2 : World) :
  let r := {| URL_Path := "/unview/" ++ name; Query := query; Referer := referer |} in
  let marked := (markVideoAsViewed name l path w1).1 in
  let unviewed := (handleUnview r marked path w2).1.2 in
  Viewed <$> unviewed = Viewed <$> (handleUnview r l path w2).1.2
  /\ Progress <$> unviewed = Progress <$> marked
  /\ Current <$> unviewed = Current <$> marked
  /\ Name <$> unviewed = Name <$> l /\ Path <$> unviewed = Path <$> l.
Proof.
  intros r marked unviewed. subst r marked unviewed.
  unfold handleUnview, markVideoAsViewed. cbn [URL_Path]. rewrite TrimPrefix_app.
  destruct (indexOfName name l) as [i|] eqn:Hi; cbn [fst snd].
  - rewrite indexOfName_alter by done. rewrite Hi. cbn [fst snd].
    rewrite list_alter_alter_eq.
    repeat split.
    + rewrite (list_fmap_alter Viewed _ (fun _ => false)) by (by apply Forall_forall).
      by rewrite (list_fmap_alter Viewed (setViewed false) (fun _ => false))
        by (by apply Forall_forall).
    + rewrite (list_fmap_alter Progress _ (fun _ => 0%float)) by (by apply Forall_forall).
      by rewrite (list_fmap_alter Progress _ (fun _ => 0%float))
        by (by apply Forall_forall).
    + rewrite (list_fmap_alter Current _ (fun _ => now w1)) by (by apply Forall_forall).
      by rewrite (list_fmap_alter Current _ (fun _ => now w1))
        by (by apply Forall_forall).
    + rewrite (list_fmap_alter Name _ id) by (by apply Forall_forall).
      by rewrite list_alter_id.
    + rewrite (list_fmap_alter Path _ id) by (by apply Forall_forall).
      by rewrite list_alter_id.
  - rewrite Hi. done.
Qed.

(** X14: a second unview request for a name leaves the slice as the first
    did, and, when the name is in the library, hands it to
    [saveViewedVideos] again. *)
Theorem X14_unview_again_changes_nothing_and_saves_again
    (r : Request) (l : list VideoFile) (path : string) (w1 w2 : World) :
  let once := (handleUnview r l path w1).1.2 in
  (handleUnview r once path w2).1.2 = once
  /\ ((exists v, v ∈ l /\ Name v = GoStrings.TrimPrefix (URL_Path r) "/unview/") ->
      (handleUnview r once path w2).2 = saveViewedVideos once path w2).
Proof.
  intros once. subst once. unfold handleUnview.
  set (fileName := GoStrings.TrimPrefix (URL_Path r) "/unview/").
  destruct (indexOfName fileName l) as [i|] eqn:Hi; cbn [fst snd].
  - rewrite indexOfName_alter by done. rewrite Hi. cbn [fst snd].
    rewrite list_alter_alter_eq. split; [by apply list_alter_ext | done].
  - rewrite Hi. split; [done|]. intros (v & Hv & Hn). exfalso.
    by apply (proj1 (indexOfName_None _ _) Hi v).
Qed.

End Marks.

(** ** The store *)

Section StoreMore.
Context `{GoLib}.

(** X16: the map [loadViewedVideos] returns holds every record under its
    own name; its records are records of the document, and every name of
    the document has one. *)
Theorem X16_loaded_records_are_keyed_by_their_names
    (path : string) (w : World) (vv : gmap string VideoFile) :
  loadViewedVideos path w = Ok vv ->
  (forall k v, vv !! k = Some v ->
     Name v = k
     /\ exists b l, store w = FileData b /\ json_Unmarshal b = Ok l /\ v ∈ l)
  /\ (forall b l, store w = FileData b -> json_Unmarshal b = Ok l ->
        forall v, v ∈ l -> is_Some (vv !! Name v)).
Proof.
  unfold loadViewedVideos, os_ReadFile. intros Hload.
  destruct (store w) as [| e | b] eqn:Hs.
  - injection Hload as <-. split; [by intros k v ?%lookup_empty_Some | done].
  - injection Hload as <-. split; [by intros k v ?%lookup_empty_Some | done].
  - destruct (json_Unmarshal b) as [l | e] eqn:Hb; [| done]. injection Hload as <-.
    split.
    + intros k v Hv. rewrite foldl_insert_lookup in Hv.
      destruct (lastNamed k l) as [v'|] eqn:Hl; [| by apply lookup_empty_Some in Hv].
      injection Hv as <-. unfold lastNamed in Hl. apply last_Some_elem_of in Hl.
      apply list_elem_of_filter in Hl as [Hn Hl]. split; [done|]. eauto.
    + intros b' l' [= <-] Hb' v Hv. rewrite Hb in Hb'. injection Hb' as <-.
      rewrite foldl_insert_lookup.
      destruct (lastNamed (Name v) l) as [v'|] eqn:Hl; [by eauto|]. exfalso.
      unfold lastNamed in Hl. apply last_None in Hl.
      assert (v ∈ filter (fun v0 => Name v0 = Name v) l) as Hin
        by (by apply list_elem_of_filter).
      rewrite Hl in Hin. by apply elem_of_nil in Hin.
Qed.


End StoreMore.

(** ** The server over a run *)

(** Settles what the status of a given response is and is not. *)
Ltac answers :=
  split;
  [ by auto 6
  | let Hs := fresh in
    intros Hs; simpl in Hs;
    unfold StatusOK, StatusSeeOther, StatusBadRequest, StatusNotFound,
      StatusInternalServerError in Hs;
    discriminate Hs ].

Section Runs.
Context `{GoLib}.

(** X19: the answers of each route.  The root page is 200 or 404, the watch
    page always 200, unview 303 or 404, the video route a file or 404, a
    progress request 200, 400 or 500 (or the handler aborts, on a path
    without a slash).  A 500 is the answer of a progress request whose
    fresh scan failed, and of nothing else. *)
Theorem X19_answers_by_route (c : Call) (s : Server) :
  match c with
  | CallRoot _ =>
      status (serve c s).1 = Some StatusOK \/ status (serve c s).1 = Some StatusNotFound
  | CallWatch _ => status (serve c s).1 = Some StatusOK
  | CallUnview _ =>
      status (serve c s).1 = Some StatusSeeOther
      \/ status (serve c s).1 = Some StatusNotFound
  | CallVideo _ =>
      (exists name, (serve c s).1 = ServeFile name)
      \/ status (serve c s).1 = Some StatusNotFound
  | CallUpdateProgress _ =>
      status (serve c s).1 = Some StatusOK \/ status (serve c s).1 = Some StatusBadRequest
      \/ status (serve c s).1 = Some StatusInternalServerError \/ (serve c s).1 = Panic
  end
  /\ (status (serve c s).1 = Some StatusInternalServerError ->
      exists r e, c = CallUpdateProgress r
        /\ loadVideoFiles (srv_path s) (srv_world s) = Err e).
Proof.
  destruct c as [r | r | r | r | r]; simpl.
  - unfold handleRoot. destruct (negb _); answers.
  - unfold handleWatch. destruct (negb _ && _); [| answers].
    destruct (markVideoAsViewed _ _ _ _). answers.
  - unfold handleUnview. destruct (indexOfName _ _); simpl; [| answers].
    destruct (redirectAfterUnview_spec r) as (target & -> & _). answers.
  - unfold handleVideo. destruct (findByName _ _); simpl; [| answers].
    split; [by eauto | done].
  - unfold handleUpdateProgress.
    destruct (strconv_ParseFloat _); simpl; [| answers].
    destruct (loadVideoFiles _ _) as [l | e]; simpl; [| by eauto 10].
    destruct (reverse _) as [| ? [| fileName ?]]; simpl; [answers | answers |].
    destruct (indexOfName fileName l); simpl; answers.
Qed.

Lemma serve_keeps_library (c : Call) (s : Server) :
  Name <$> srv_videoFiles (serve c s).2 = Name <$> srv_videoFiles s
  /\ Path <$> srv_videoFiles (serve c s).2 = Path <$> srv_videoFiles s
  /\ srv_path (serve c s).2 = srv_path s
  /\ srv_folderName (serve c s).2 = srv_folderName s.
Proof.
  destruct c as [r | r | r | r | r]; simpl; try done.
  - unfold handleWatch. destruct (negb _ && _); [| done].
    unfold markVideoAsViewed. destruct (indexOfName _ _); [| done]. simpl.
    rewrite (list_fmap_alter Name _ id) by (by apply Forall_forall).
    rewrite (list_fmap_alter Path _ id) by (by apply Forall_forall).
    by rewrite !list_alter_id.
  - unfold handleUnview. destruct (indexOfName _ _); [| done]. simpl.
    rewrite (list_fmap_alter Name _ id) by (by apply Forall_forall).
    rewrite (list_fmap_alter Path _ id) by (by apply Forall_forall).
    by rewrite !list_alter_id.
  - by destruct (handleUpdateProgress _ _ _).
Qed.

(** X20: while the server runs, the slice keeps its entries: the names and
    the paths, in their order, are those of the scan at the start, whatever
    is asked and whatever changes in the directory; so do the directory
    and the folder name. *)
Theorem X20_library_is_fixed_at_the_start (steps : list Step) : forall s : Server,
  Name <$> srv_videoFiles (run s steps) = Name <$> srv_videoFiles s
  /\ Path <$> srv_videoFiles (run s steps) = Path <$> srv_videoFiles s
  /\ srv_path (run s steps) = srv_path s
  /\ srv_folderName (run s steps) = srv_folderName s.
Proof.
  induction steps as [| e steps IH]; intros s; [done|].
  unfold run. simpl. fold (run (step s e) steps).
  destruct (IH (step s e)) as (-> & -> & -> & ->).
  destruct e as [c | w']; [apply serve_keeps_library | done].
Qed.

Lemma serve_progress (c : Call) (s : Server) (l0 : list VideoFile) :
  Forall2 (fun v v' =>
             Progress v' = 0%float
             \/ (Progress v' = Progress v /\ (Viewed v' = true -> Viewed v = true)))
    l0 (srv_videoFiles s) ->
  Forall2 (fun v v' =>
             Progress v' = 0%float
             \/ (Progress v' = Progress v /\ (Viewed v' = true -> Viewed v = true)))
    l0 (srv_videoFiles (serve c s).2).
Proof.
  intros Hinv. destruct c as [r | r | r | r | r]; simpl; try done.
  - unfold handleWatch. destruct (negb _ && _); [| done].
    unfold markVideoAsViewed. destruct (indexOfName _ _); [| done]. simpl.
    apply Forall2_alter_r; [done|]. intros v v' _ _ _. by left.
  - unfold handleUnview. destruct (indexOfName _ _); [| done]. simpl.
    apply Forall2_alter_r; [done|]. intros v v' _ _ [Hz | [Hp _]]; [by left|].
    right. done.
  - by destruct (handleUpdateProgress _ _ _).
Qed.

(** X21: the progress the server holds for an entry is never raised: after
    any run it is the progress of the start or [0], and an entry that was
    not viewed at the start and is viewed at the end has progress [0]. *)
Theorem X21_held_progress_is_only_ever_reset (steps : list Step) (s : Server) :
  Forall2 (fun v v' =>
             (Progress v' = Progress v \/ Progress v' = 0%float)
             /\ (Viewed v = false -> Viewed v' = true -> Progress v' = 0%float))
    (srv_videoFiles s) (srv_videoFiles (run s steps)).
Proof.
  assert (forall steps s l0,
            Forall2 (fun v v' =>
                       Progress v' = 0%float
                       \/ (Progress v' = Progress v /\ (Viewed v' = true -> Viewed v = true)))
              l0 (srv_videoFiles s) ->
            Forall2 (fun v v' =>
                       Progress v' = 0%float
                       \/ (Progress v' = Progress v /\ (Viewed v' = true -> Viewed v = true)))
              l0 (srv_videoFiles (run s steps))) as Hrun.
  { clear. intros steps. induction steps as [| e steps IH]; intros s l0 Hinv; [done|].
    unfold run. simpl. fold (run (step s e) steps). apply IH.
    destruct e as [c | w']; [by apply serve_progress | done]. }
  eapply Forall2_impl; [apply Hrun|].
  - apply Forall2_same_length_lookup_2; [done|]. intros i v v' Hv Hv'. right.
    rewrite Hv in Hv'. by injection Hv' as <-.
  - intros v v' [Hz | [Hp Hview]]; [by auto|]. split; [by left|].
    intros Hf Ht. rewrite (Hview Ht) in Hf. done.
Qed.


End Runs.

Lemma X16_witness_saved_library :
  (forall k v, (list_to_map [("bad_name.mp4", Demo.bad); ("1 - Intro.mp4", Demo.introViewed);
                             ("2 - Body.mp4", Demo.body)] : gmap string VideoFile) !! k
               = Some v ->
     Name v = k
     /\ exists b l, store (withStore (FileData Demo.docViewed) Demo.world0) = FileData b
          /\ @json_Unmarshal Demo.goLib b = Ok l /\ v ∈ l)
  /\ (forall b l, store (withStore (FileData Demo.docViewed) Demo.world0) = FileData b ->
        @json_Unmarshal Demo.goLib b = Ok l ->
        forall v, v ∈ l ->
          is_Some ((list_to_map [("bad_name.mp4", Demo.bad);
                                 ("1 - Intro.mp4", Demo.introViewed);
                                 ("2 - Body.mp4", Demo.body)] : gmap string VideoFile)
                   !! Name v)).
Proof.
  apply (@X16_loaded_records_are_keyed_by_their_names Demo.goLib "videos"
           (withStore (FileData Demo.docViewed) Demo.world0)).
  vm_compute. reflexivity.
Defined.



Section Effects.
Context `{GoLib}.

Lemma saveViewedVideos_effect (l : list VideoFile) (path : string) (w : World) :
  let w' := saveViewedVideos l path w in
  root w' = root w /\ readme w' = readme w /\ now w' = now w /\ write_err w' = write_err w
  /\ ((trace w' = trace w /\ store w' = store w)
      \/ (exists msg, trace w' = (trace w ++ [EvLog msg])%list /\ store w' = store w)
      \/ (exists doc, trace w' = (trace w ++ [EvWriteFile videoDataFile doc true])%list
            /\ store w' = FileData doc)
      \/ (exists doc msg,
            trace w' = (trace w ++ [EvWriteFile videoDataFile doc false; EvLog msg])%list
            /\ (store w' = store w
                \/ exists written, store w' = FileData (String.substring 0 written doc)))).
Proof.
  intros w'. subst w'. unfold saveViewedVideos, os_WriteFile.
  destruct (json_Marshal l) as [jsonData |]; [| by eauto 10].
  destruct (json_Indent jsonData) as [pretty |]; [| by eauto 10].
  destruct (write_err w) as [f|] eqn:Hw; simpl.
  - repeat (split; [done|]). do 3 right. eexists _, _.
    split; [by rewrite <- app_assoc|]. destruct f; simpl; eauto.
  - repeat (split; [done|]). do 2 right. left. by eauto.
Qed.

(** X23: a request changes nothing of the world but the sidecar file and
    the log.  It logs one line, or writes the sidecar file once, or tries
    to and logs the failure, or does nothing; after a failed write the file
    is as it was or holds the first bytes of the document.  The root page
    and the video route do nothing at all. *)
Theorem X23_a_request_does_one_write_at_most (c : Call) (s : Server) :
  let w := srv_world s in
  let w' := srv_world (serve c s).2 in
  root w' = root w /\ readme w' = readme w /\ now w' = now w /\ write_err w' = write_err w
  /\ ((trace w' = trace w /\ store w' = store w)
      \/ (exists msg, trace w' = (trace w ++ [EvLog msg])%list /\ store w' = store w)
      \/ (exists doc, trace w' = (trace w ++ [EvWriteFile videoDataFile doc true])%list
            /\ store w' = FileData doc)
      \/ (exists doc msg,
            trace w' = (trace w ++ [EvWriteFile videoDataFile doc false; EvLog msg])%list
            /\ (store w' = store w
                \/ exists written, store w' = FileData (String.substring 0 written doc))))
  /\ match c with
     | CallRoot _ | CallVideo _ => w' = w
     | _ => True
     end.
Proof.
  intros w w'. subst w w'.
  destruct c as [r | r | r | r | r]; simpl.
  - repeat (split; [done|]). split; [by left | done].
  - unfold handleWatch. destruct (negb _ && _).
    2: { simpl. repeat (split; [done|]). split; [by left | done]. }
    unfold markVideoAsViewed. destruct (indexOfName _ _) as [i|]; simpl.
    2: { repeat (split; [done|]). split; [by left | done]. }
    destruct (saveViewedVideos_effect
                (alter (fun v => setProgress 0%float
                                   (setCurrent (now (srv_world s)) (setViewed true v)))
                   i (srv_videoFiles s)) (srv_path s) (srv_world s))
      as (? & ? & ? & ? & ?).
    done.
  - unfold handleUnview. destruct (indexOfName _ _) as [i|]; simpl.
    2: { repeat (split; [done|]). split; [by left | done]. }
    destruct (saveViewedVideos_effect (alter (setViewed false) i (srv_videoFiles s))
                (srv_path s) (srv_world s)) as (? & ? & ? & ? & ?).
    done.
  - repeat (split; [done|]). split; [by left | done].
  - unfold handleUpdateProgress.
    destruct (strconv_ParseFloat _) as [progress |]; simpl.
    2: { repeat (split; [done|]). split; [by eauto 10 | done]. }
    destruct (loadVideoFiles _ _) as [l |]; simpl.
    2: { repeat (split; [done|]). split; [by eauto 10 | done]. }
    destruct (reverse _) as [| ? [| fileName ?]]; simpl;
      try (repeat (split; [done|]); split; [by left | done]).
    destruct (indexOfName fileName l) as [k|]; simpl.
    2: { repeat (split; [done|]). split; [by left | done]. }
    destruct (saveViewedVideos_effect
                (alter (fun v => setProgress progress (setCurrent (now (srv_world s)) v)) k l)
                (srv_path s) (srv_world s)) as (? & ? & ? & ? & ?).
    done.
Qed.

End Effects.

(** ** Requests that follow one another *)

Section Followups.
Context `{GoLib}.


End Followups.

